(** * InstanceWriter: a bounded, batching writer over a ring buffer

  Shallow embedding of [InstanceWriter] (package [template]) and of the
  [InstanceRingBuffer] it drains.  Go's [int] and [int64] are taken to be
  64-bit two's-complement integers, modelled as [Z] with the wrap-around
  of [++], [--] and [atomic.AddInt64] written out ([add64]).  A
  [*Instance] is an [option Instance], [None] being the nil pointer. *)

From Stdlib Require Import ZArith Lia String.
From stdpp Require Import base numbers list.

Set Default Proof Using "Type".
Local Open Scope Z_scope.

(** ** 64-bit integers *)

Definition min_int64 : Z := - 2 ^ 63.
Definition max_int64 : Z := 2 ^ 63 - 1.

Definition in_int64 (z : Z) : Prop := min_int64 <= z <= max_int64.

Definition wrap64 (z : Z) : Z := (z + 2 ^ 63) mod 2 ^ 64 - 2 ^ 63.

(** [atomic.AddInt64(&x, d)], and [x++] / [x--] with [d] = 1 / -1. *)
Definition add64 (x d : Z) : Z := wrap64 (x + d).

(** ** The ring buffer *)

Module Ring.
Section Defs.
Context {Instance : Type}.

(** Modelled from the spec: the source file of [InstanceRingBuffer] is
    missing.  "Holds up to N record references in circular storage plus
    a count of unconsumed entries": [buffer] is the circular storage,
    [readIdx] the slot of the oldest unprocessed entry and
    [unprocessed] the count. *)
Record InstanceRingBuffer := mkRing {
  buffer : list (option Instance);
  readIdx : nat;
  unprocessed : nat
}.

(** Modelled from the spec: [Size() -> int], the fixed capacity. *)
Definition Size (b : InstanceRingBuffer) : nat := length (buffer b).

(** Modelled from the spec: [UnprocessedCount() -> int], the number of
    items inserted but not yet returned by [NextBatch]. *)
Definition UnprocessedCount (b : InstanceRingBuffer) : nat := unprocessed b.

(** Modelled from the spec: [New(capacity)] "constructs a buffer of fixed
    size; fails only on invalid (<= 0) capacity". *)
Definition NewInstanceRingBuffer (size : Z) : option InstanceRingBuffer :=
  if size <=? 0 then None
  else Some (mkRing (replicate (Z.to_nat size) None) 0 0).

(** The storage slot of the [i]-th oldest unprocessed entry. *)
Definition slot (b : InstanceRingBuffer) (i : nat) : nat :=
  ((readIdx b + i) mod Size b)%nat.

(** Modelled from the spec: [Add(item) -> overwrote].  "If buffer was
    already at capacity-worth of unprocessed items, the oldest
    unprocessed item is dropped (overwritten) to make room, and the call
    returns true; otherwise returns false." *)
Definition Add (b : InstanceRingBuffer) (item : option Instance)
  : InstanceRingBuffer * bool :=
  let storage := <[slot b (unprocessed b) := item]> (buffer b) in
  if (Size b <=? unprocessed b)%nat
  then (mkRing storage (slot b 1) (unprocessed b), true)
  else (mkRing storage (readIdx b) (S (unprocessed b)), false).

(** A view into the buffer's own storage: [vlen] slots from [vstart] on,
    going round the ring. *)
Record view := mkView { vstart : nat; vlen : nat }.

Definition view_slot (b : InstanceRingBuffer) (v : view) (i : nat) : nat :=
  ((vstart v + i) mod Size b)%nat.

(** Reading the view ([copy(dst, chunk)] reads it this way). *)
Definition view_items (b : InstanceRingBuffer) (v : view)
  : list (option Instance) :=
  (fun i => default None (buffer b !! view_slot b v i)) <$> seq 0 (vlen v).

(** Writing nil through the view ([chunk[i] = nil] for every [i]). *)
Definition view_clear (b : InstanceRingBuffer) (v : view)
  : InstanceRingBuffer :=
  mkRing
    (foldr (fun i st => <[view_slot b v i := None]> st) (buffer b)
           (seq 0 (vlen v)))
    (readIdx b) (unprocessed b).

(** The size of the next batch: [max] or what is there, if less. *)
Definition batch_len (b : InstanceRingBuffer) (max : Z) : nat :=
  Z.to_nat (Z.min max (Z.of_nat (unprocessed b))).

(** Modelled from the spec: [NextBatch(max) -> slice] "returns up to max
    oldest unprocessed items (fewer if fewer are available, empty if
    none), marks them processed"; "it returns a view into the buffer's
    own storage". *)
Definition NextBatch (b : InstanceRingBuffer) (max : Z)
  : InstanceRingBuffer * view :=
  let n := batch_len b max in
  (mkRing (buffer b) (slot b n) (unprocessed b - n), mkView (readIdx b) n).

(** What a caller sees of [NextBatch]: the items under the view. *)
Definition NextBatchItems (b : InstanceRingBuffer) (max : Z)
  : InstanceRingBuffer * list (option Instance) :=
  let '(b', v) := NextBatch b max in (b', view_items b' v).

(** The unprocessed entries, oldest first. *)
Definition contents (b : InstanceRingBuffer) : list (option Instance) :=
  (fun i => default None (buffer b !! slot b i)) <$> seq 0 (unprocessed b).

(** Representation invariant of a buffer made by [New]. *)
Definition wf (b : InstanceRingBuffer) : Prop :=
  (0 < Size b)%nat /\ (readIdx b < Size b)%nat /\ (unprocessed b <= Size b)%nat.

(** Callers of a ring buffer: insertions and batch extractions. *)
Inductive op :=
| OpAdd (item : option Instance)
| OpNextBatch (max : Z).

(** Runs [ops] in order; collects the [Add] results and the batches. *)
Fixpoint run_ops (b : InstanceRingBuffer) (ops : list op)
  : InstanceRingBuffer * list bool * list (list (option Instance)) :=
  match ops with
  | [] => (b, [], [])
  | OpAdd x :: ops' =>
      let '(b1, o) := Add b x in
      let '(b2, os, bs) := run_ops b1 ops' in (b2, o :: os, bs)
  | OpNextBatch max :: ops' =>
      let '(b1, items) := NextBatchItems b max in
      let '(b2, os, bs) := run_ops b1 ops' in (b2, os, items :: bs)
  end.

Definition added (ops : list op) : list (option Instance) :=
  omap (fun o => match o with OpAdd x => Some x | _ => None end) ops.

(** How many insertions overwrote an entry. *)
Definition overwrites (os : list bool) : nat := length (List.filter (fun o => o) os).

(** Inserting a list of items one by one. *)
Definition add_all (b : InstanceRingBuffer) (items : list (option Instance))
  : InstanceRingBuffer :=
  foldl (fun b x => (Add b x).1) b items.
End Defs.
Arguments InstanceRingBuffer : clear implicits.
Arguments Add : simpl never.
Arguments NextBatch : simpl never.
Arguments NextBatchItems : simpl never.
Arguments view_clear : simpl never.
Arguments contents : simpl never.
End Ring.

(** ** The writer *)

Definition DefaultInstanceMaxBuffered : Z := 10000.
Definition DefaultInstanceMaxRequests : Z := 10.
Definition DefaultInstanceMaxBatchSize : Z := 1000.

Module Writer.
Import Ring.
Section Defs.
Context {Instance : Type}.

(** A Go slice whose backing array it addresses from the start: [arr] is
    the whole backing array (its length is the capacity) and [slen] the
    length of the slice. *)
Record slice := mkSlice { arr : list (option Instance); slen : nat }.

Definition cap (s : slice) : nat := length (arr s).

(** The elements of the slice, [s[0:len(s)]]. *)
Definition elems (s : slice) : list (option Instance) := take (slen s) (arr s).

(** A [chan struct{}] that is only ever closed. *)
Inductive chanState := ChanOpen | ChanClosed.

Record InstanceWriter := mkWriter {
  (** nil when [None]; an instance is sent only if it returns true *)
  PreprocessFunc : option (option Instance -> bool);
  (** whether the callback is set; its calls are [CallOverwrite] effects *)
  OverwriteFunc : bool;
  MaxBuffered : Z;
  MaxRequests : Z;
  MaxBatchSize : Z;
  (** nil until [Start] *)
  shutdownFlag : option chanState;
  (** nil until [run] *)
  buff : option (InstanceRingBuffer Instance);
  (** buffered channels of capacity [MaxRequests], oldest first; nil
      until [run], which for a receiver is like empty *)
  requestDoneCh : list Z;
  chunkSliceCache : list slice;
  requestsActive : Z;
  totalWaiting : Z;
  TotalReceived : Z;
  TotalFilteredOut : Z;
  TotalInFlight : Z;
  TotalSent : Z;
  TotalFailedToSend : Z;
  TotalOverwritten : Z
}.

Definition set_MaxBuffered (v : Z) (w : InstanceWriter) : InstanceWriter :=
  {| PreprocessFunc := PreprocessFunc w; OverwriteFunc := OverwriteFunc w;
     MaxBuffered := v; MaxRequests := MaxRequests w;
     MaxBatchSize := MaxBatchSize w; shutdownFlag := shutdownFlag w;
     buff := buff w; requestDoneCh := requestDoneCh w;
     chunkSliceCache := chunkSliceCache w;
     requestsActive := requestsActive w; totalWaiting := totalWaiting w;
     TotalReceived := TotalReceived w;
     TotalFilteredOut := TotalFilteredOut w;
     TotalInFlight := TotalInFlight w; TotalSent := TotalSent w;
     TotalFailedToSend := TotalFailedToSend w;
     TotalOverwritten := TotalOverwritten w |}.

Definition set_MaxRequests (v : Z) (w : InstanceWriter) : InstanceWriter :=
  {| PreprocessFunc := PreprocessFunc w; OverwriteFunc := OverwriteFunc w;
     MaxBuffered := MaxBuffered w; MaxRequests := v;
     MaxBatchSize := MaxBatchSize w; shutdownFlag := shutdownFlag w;
     buff := buff w; requestDoneCh := requestDoneCh w;
     chunkSliceCache := chunkSliceCache w;
     requestsActive := requestsActive w; totalWaiting := totalWaiting w;
     TotalReceived := TotalReceived w;
     TotalFilteredOut := TotalFilteredOut w;
     TotalInFlight := TotalInFlight w; TotalSent := TotalSent w;
     TotalFailedToSend := TotalFailedToSend w;
     TotalOverwritten := TotalOverwritten w |}.

Definition set_MaxBatchSize (v : Z) (w : InstanceWriter) : InstanceWriter :=
  {| PreprocessFunc := PreprocessFunc w; OverwriteFunc := OverwriteFunc w;
     MaxBuffered := MaxBuffered w; MaxRequests := MaxRequests w;
     MaxBatchSize := v; shutdownFlag := shutdownFlag w; buff := buff w;
     requestDoneCh := requestDoneCh w;
     chunkSliceCache := chunkSliceCache w;
     requestsActive := requestsActive w; totalWaiting := totalWaiting w;
     TotalReceived := TotalReceived w;
     TotalFilteredOut := TotalFilteredOut w;
     TotalInFlight := TotalInFlight w; TotalSent := TotalSent w;
     TotalFailedToSend := TotalFailedToSend w;
     TotalOverwritten := TotalOverwritten w |}.

Definition set_shutdownFlag (v : option chanState) (w : InstanceWriter) : InstanceWriter :=
  {| PreprocessFunc := PreprocessFunc w; OverwriteFunc := OverwriteFunc w;
     MaxBuffered := MaxBuffered w; MaxRequests := MaxRequests w;
     MaxBatchSize := MaxBatchSize w; shutdownFlag := v; buff := buff w;
     requestDoneCh := requestDoneCh w;
     chunkSliceCache := chunkSliceCache w;
     requestsActive := requestsActive w; totalWaiting := totalWaiting w;
     TotalReceived := TotalReceived w;
     TotalFilteredOut := TotalFilteredOut w;
     TotalInFlight := TotalInFlight w; TotalSent := TotalSent w;
     TotalFailedToSend := TotalFailedToSend w;
     TotalOverwritten := TotalOverwritten w |}.

Definition set_buff (v : option (InstanceRingBuffer Instance)) (w : InstanceWriter) : InstanceWriter :=
  {| PreprocessFunc := PreprocessFunc w; OverwriteFunc := OverwriteFunc w;
     MaxBuffered := MaxBuffered w; MaxRequests := MaxRequests w;
     MaxBatchSize := MaxBatchSize w; shutdownFlag := shutdownFlag w;
     buff := v; requestDoneCh := requestDoneCh w;
     chunkSliceCache := chunkSliceCache w;
     requestsActive := requestsActive w; totalWaiting := totalWaiting w;
     TotalReceived := TotalReceived w;
     TotalFilteredOut := TotalFilteredOut w;
     TotalInFlight := TotalInFlight w; TotalSent := TotalSent w;
     TotalFailedToSend := TotalFailedToSend w;
     TotalOverwritten := TotalOverwritten w |}.

Definition set_requestDoneCh (v : list Z) (w : InstanceWriter) : InstanceWriter :=
  {| PreprocessFunc := PreprocessFunc w; OverwriteFunc := OverwriteFunc w;
     MaxBuffered := MaxBuffered w; MaxRequests := MaxRequests w;
     MaxBatchSize := MaxBatchSize w; shutdownFlag := shutdownFlag w;
     buff := buff w; requestDoneCh := v;
     chunkSliceCache := chunkSliceCache w;
     requestsActive := requestsActive w; totalWaiting := totalWaiting w;
     TotalReceived := TotalReceived w;
     TotalFilteredOut := TotalFilteredOut w;
     TotalInFlight := TotalInFlight w; TotalSent := TotalSent w;
     TotalFailedToSend := TotalFailedToSend w;
     TotalOverwritten := TotalOverwritten w |}.

Definition set_chunkSliceCache (v : list slice) (w : InstanceWriter) : InstanceWriter :=
  {| PreprocessFunc := PreprocessFunc w; OverwriteFunc := OverwriteFunc w;
     MaxBuffered := MaxBuffered w; MaxRequests := MaxRequests w;
     MaxBatchSize := MaxBatchSize w; shutdownFlag := shutdownFlag w;
     buff := buff w; requestDoneCh := requestDoneCh w;
     chunkSliceCache := v; requestsActive := requestsActive w;
     totalWaiting := totalWaiting w; TotalReceived := TotalReceived w;
     TotalFilteredOut := TotalFilteredOut w;
     TotalInFlight := TotalInFlight w; TotalSent := TotalSent w;
     TotalFailedToSend := TotalFailedToSend w;
     TotalOverwritten := TotalOverwritten w |}.

Definition set_requestsActive (v : Z) (w : InstanceWriter) : InstanceWriter :=
  {| PreprocessFunc := PreprocessFunc w; OverwriteFunc := OverwriteFunc w;
     MaxBuffered := MaxBuffered w; MaxRequests := MaxRequests w;
     MaxBatchSize := MaxBatchSize w; shutdownFlag := shutdownFlag w;
     buff := buff w; requestDoneCh := requestDoneCh w;
     chunkSliceCache := chunkSliceCache w; requestsActive := v;
     totalWaiting := totalWaiting w; TotalReceived := TotalReceived w;
     TotalFilteredOut := TotalFilteredOut w;
     TotalInFlight := TotalInFlight w; TotalSent := TotalSent w;
     TotalFailedToSend := TotalFailedToSend w;
     TotalOverwritten := TotalOverwritten w |}.

Definition set_totalWaiting (v : Z) (w : InstanceWriter) : InstanceWriter :=
  {| PreprocessFunc := PreprocessFunc w; OverwriteFunc := OverwriteFunc w;
     MaxBuffered := MaxBuffered w; MaxRequests := MaxRequests w;
     MaxBatchSize := MaxBatchSize w; shutdownFlag := shutdownFlag w;
     buff := buff w; requestDoneCh := requestDoneCh w;
     chunkSliceCache := chunkSliceCache w;
     requestsActive := requestsActive w; totalWaiting := v;
     TotalReceived := TotalReceived w;
     TotalFilteredOut := TotalFilteredOut w;
     TotalInFlight := TotalInFlight w; TotalSent := TotalSent w;
     TotalFailedToSend := TotalFailedToSend w;
     TotalOverwritten := TotalOverwritten w |}.

Definition set_TotalReceived (v : Z) (w : InstanceWriter) : InstanceWriter :=
  {| PreprocessFunc := PreprocessFunc w; OverwriteFunc := OverwriteFunc w;
     MaxBuffered := MaxBuffered w; MaxRequests := MaxRequests w;
     MaxBatchSize := MaxBatchSize w; shutdownFlag := shutdownFlag w;
     buff := buff w; requestDoneCh := requestDoneCh w;
     chunkSliceCache := chunkSliceCache w;
     requestsActive := requestsActive w; totalWaiting := totalWaiting w;
     TotalReceived := v; TotalFilteredOut := TotalFilteredOut w;
     TotalInFlight := TotalInFlight w; TotalSent := TotalSent w;
     TotalFailedToSend := TotalFailedToSend w;
     TotalOverwritten := TotalOverwritten w |}.

Definition set_TotalFilteredOut (v : Z) (w : InstanceWriter) : InstanceWriter :=
  {| PreprocessFunc := PreprocessFunc w; OverwriteFunc := OverwriteFunc w;
     MaxBuffered := MaxBuffered w; MaxRequests := MaxRequests w;
     MaxBatchSize := MaxBatchSize w; shutdownFlag := shutdownFlag w;
     buff := buff w; requestDoneCh := requestDoneCh w;
     chunkSliceCache := chunkSliceCache w;
     requestsActive := requestsActive w; totalWaiting := totalWaiting w;
     TotalReceived := TotalReceived w; TotalFilteredOut := v;
     TotalInFlight := TotalInFlight w; TotalSent := TotalSent w;
     TotalFailedToSend := TotalFailedToSend w;
     TotalOverwritten := TotalOverwritten w |}.

Definition set_TotalInFlight (v : Z) (w : InstanceWriter) : InstanceWriter :=
  {| PreprocessFunc := PreprocessFunc w; OverwriteFunc := OverwriteFunc w;
     MaxBuffered := MaxBuffered w; MaxRequests := MaxRequests w;
     MaxBatchSize := MaxBatchSize w; shutdownFlag := shutdownFlag w;
     buff := buff w; requestDoneCh := requestDoneCh w;
     chunkSliceCache := chunkSliceCache w;
     requestsActive := requestsActive w; totalWaiting := totalWaiting w;
     TotalReceived := TotalReceived w;
     TotalFilteredOut := TotalFilteredOut w; TotalInFlight := v;
     TotalSent := TotalSent w; TotalFailedToSend := TotalFailedToSend w;
     TotalOverwritten := TotalOverwritten w |}.

Definition set_TotalSent (v : Z) (w : InstanceWriter) : InstanceWriter :=
  {| PreprocessFunc := PreprocessFunc w; OverwriteFunc := OverwriteFunc w;
     MaxBuffered := MaxBuffered w; MaxRequests := MaxRequests w;
     MaxBatchSize := MaxBatchSize w; shutdownFlag := shutdownFlag w;
     buff := buff w; requestDoneCh := requestDoneCh w;
     chunkSliceCache := chunkSliceCache w;
     requestsActive := requestsActive w; totalWaiting := totalWaiting w;
     TotalReceived := TotalReceived w;
     TotalFilteredOut := TotalFilteredOut w;
     TotalInFlight := TotalInFlight w; TotalSent := v;
     TotalFailedToSend := TotalFailedToSend w;
     TotalOverwritten := TotalOverwritten w |}.

Definition set_TotalFailedToSend (v : Z) (w : InstanceWriter) : InstanceWriter :=
  {| PreprocessFunc := PreprocessFunc w; OverwriteFunc := OverwriteFunc w;
     MaxBuffered := MaxBuffered w; MaxRequests := MaxRequests w;
     MaxBatchSize := MaxBatchSize w; shutdownFlag := shutdownFlag w;
     buff := buff w; requestDoneCh := requestDoneCh w;
     chunkSliceCache := chunkSliceCache w;
     requestsActive := requestsActive w; totalWaiting := totalWaiting w;
     TotalReceived := TotalReceived w;
     TotalFilteredOut := TotalFilteredOut w;
     TotalInFlight := TotalInFlight w; TotalSent := TotalSent w;
     TotalFailedToSend := v; TotalOverwritten := TotalOverwritten w |}.

Definition set_TotalOverwritten (v : Z) (w : InstanceWriter) : InstanceWriter :=
  {| PreprocessFunc := PreprocessFunc w; OverwriteFunc := OverwriteFunc w;
     MaxBuffered := MaxBuffered w; MaxRequests := MaxRequests w;
     MaxBatchSize := MaxBatchSize w; shutdownFlag := shutdownFlag w;
     buff := buff w; requestDoneCh := requestDoneCh w;
     chunkSliceCache := chunkSliceCache w;
     requestsActive := requestsActive w; totalWaiting := totalWaiting w;
     TotalReceived := TotalReceived w;
     TotalFilteredOut := TotalFilteredOut w;
     TotalInFlight := TotalInFlight w; TotalSent := TotalSent w;
     TotalFailedToSend := TotalFailedToSend w; TotalOverwritten := v |}.

(** [&InstanceWriter{...}] as a user builds it: the exported
    configuration is set, everything else has its zero value. *)
Definition NewWriter (pre : option (option Instance -> bool)) (ovw : bool)
    (maxBuffered maxRequests maxBatchSize : Z) : InstanceWriter :=
  {| PreprocessFunc := pre; OverwriteFunc := ovw;
     MaxBuffered := maxBuffered; MaxRequests := maxRequests;
     MaxBatchSize := maxBatchSize;
     shutdownFlag := None; buff := None;
     requestDoneCh := []; chunkSliceCache := [];
     requestsActive := 0; totalWaiting := 0;
     TotalReceived := 0; TotalFilteredOut := 0; TotalInFlight := 0;
     TotalSent := 0; TotalFailedToSend := 0; TotalOverwritten := 0 |}.

(** The three configuration fields. *)
Definition config (w : InstanceWriter) : Z * Z * Z :=
  (MaxBuffered w, MaxRequests w, MaxBatchSize w).

(** *** What a call of the coordinating goroutine can do

    Besides changing the writer, a call starts send goroutines and calls
    the overwrite callback; it may panic, or block for ever on a channel
    nobody feeds. *)
Inductive effect :=
| Spawn (count : Z) (chunkCopy : slice)
| CallOverwrite.

Inductive res (A : Type) :=
| Ok (a : A) (w : InstanceWriter) (out : list effect)
| Panic (msg : string)
| Blocks.
Arguments Ok {A}.
Arguments Panic {A}.
Arguments Blocks {A}.

Definition M (A : Type) : Type := InstanceWriter -> res A.

Definition ret {A} (a : A) : M A := fun w => Ok a w [].

Definition bind {A B} (m : M A) (f : A -> M B) : M B :=
  fun w =>
    match m w with
    | Ok a w1 out1 =>
        match f a w1 with
        | Ok b w2 out2 => Ok b w2 (out1 ++ out2)
        | Panic msg => Panic msg
        | Blocks => Blocks
        end
    | Panic msg => Panic msg
    | Blocks => Blocks
    end.

Definition get : M InstanceWriter := fun w => Ok w w [].
Definition modify (f : InstanceWriter -> InstanceWriter) : M unit :=
  fun w => Ok tt (f w) [].
Definition emit (e : effect) : M unit := fun w => Ok tt w [e].
Definition panic {A} (msg : string) : M A := fun _ => Panic msg.
Definition block {A} : M A := fun _ => Blocks.
End Defs.
Arguments slice : clear implicits.
Arguments InstanceWriter : clear implicits.
Arguments effect : clear implicits.
Arguments res : clear implicits.
Arguments M : clear implicits.
Arguments Ok {Instance A}.
Arguments Panic {Instance A}.
Arguments Blocks {Instance A}.

Notation "x <- m ;; k" := (bind m (fun x => k))
  (at level 200, m at level 99, k at level 200, right associativity).
Notation "m ;;; k" := (bind m (fun _ => k))
  (at level 100, k at level 200, right associativity).

Section Code.
Context {Instance : Type}.
Local Abbreviation InstanceWriter := (InstanceWriter Instance).
Local Abbreviation slice := (slice Instance).
Local Abbreviation M := (M Instance).

(** [w.buff], a nil pointer before [run]. *)
Definition theBuff : M (InstanceRingBuffer Instance) :=
  w <- get ;;
  match buff w with
  | Some b => ret b
  | None => panic "invalid memory address or nil pointer dereference"
  end.

Definition setBuff (b : InstanceRingBuffer Instance) : M unit :=
  modify (set_buff (Some b)).

(** [for i := size; i < len(slice); i++ { slice[i] = nil }] *)
Definition nilAbove (size : nat) (s : slice) : slice :=
  mkSlice
    (foldr (fun i a => <[i := None]> a) (arr s) (seq size (slen s - size)))
    (slen s).

(** [slice[:size]]: needs [size <= cap(slice)]. *)
Definition reslice (s : slice) (size : nat) : M slice :=
  if (size <=? cap s)%nat then ret (mkSlice (arr s) size)
  else panic "slice bounds out of range".

(** [copy(dst, src)]: as many elements as the shorter of the two has. *)
Definition copy (dst : slice) (src : list (option Instance)) : slice :=
  let n := Nat.min (slen dst) (length src) in
  mkSlice (take n src ++ drop n (arr dst)) (slen dst).

Definition getChunkSlice (size : nat) : M slice :=
  w <- get ;;
  match chunkSliceCache w with
  | [] => block                          (* <-w.chunkSliceCache *)
  | s :: cache =>
      modify (set_chunkSliceCache cache) ;;;
      reslice (nilAbove size s) size
  end.

Definition tryToSendChunk : M unit :=
  b <- theBuff ;;
  let totalUnprocessed := UnprocessedCount b in
  w <- get ;;
  if MaxRequests w <=? requestsActive w then
    modify (set_totalWaiting (Z.of_nat totalUnprocessed))
  else
    let '(b1, chunk) := NextBatch b (MaxBatchSize w) in
    setBuff b1 ;;;
    let count := Z.of_nat (vlen chunk) in
    if count =? 0 then ret tt
    else
      modify (fun w => set_TotalInFlight (add64 (TotalInFlight w) count) w) ;;;
      modify (fun w => set_requestsActive (add64 (requestsActive w) 1) w) ;;;
      chunkCopy <- getChunkSlice (vlen chunk) ;;
      let chunkCopy := copy chunkCopy (view_items b1 chunk) in
      let b2 := view_clear b1 chunk in
      setBuff b2 ;;;
      emit (Spawn count chunkCopy) ;;;
      modify (set_totalWaiting (Z.of_nat (UnprocessedCount b2))).

(** The first two statements of [handleRequestDone]. *)
Definition completed (count : Z) (w : InstanceWriter) : InstanceWriter :=
  set_TotalInFlight (add64 (TotalInFlight w) (wrap64 (- count)))
    (set_requestsActive (add64 (requestsActive w) (-1)) w).

Definition handleRequestDone (count : Z) : M unit :=
  modify (fun w => set_requestsActive (add64 (requestsActive w) (-1)) w) ;;;
  modify (fun w => set_TotalInFlight
                     (add64 (TotalInFlight w) (wrap64 (- count))) w) ;;;
  w <- get ;;
  if 0 <? totalWaiting w then tryToSendChunk else ret tt.

(** [select { case count := <-w.requestDoneCh: ...; default: }] *)
Definition pollRequestDone : M unit :=
  w <- get ;;
  match requestDoneCh w with
  | count :: ch => modify (set_requestDoneCh ch) ;;; handleRequestDone count
  | [] => ret tt
  end.

(** [count := <-w.requestDoneCh; w.handleRequestDone(ctx, count)] *)
Definition recvRequestDone : M unit :=
  w <- get ;;
  match requestDoneCh w with
  | count :: ch => modify (set_requestDoneCh ch) ;;; handleRequestDone count
  | [] => block
  end.

(** One iteration of the loop of [processInput], on [insts[i]]. *)
Definition processItem (inst : option Instance) : M unit :=
  w <- get ;;
  if match PreprocessFunc w with
     | Some f => negb (f inst)
     | None => false
     end
  then modify (fun w => set_TotalFilteredOut (add64 (TotalFilteredOut w) 1) w)
  else
    b <- theBuff ;;
    let '(b1, overwrote) := Add b inst in
    setBuff b1 ;;;
    (if overwrote then
       modify (fun w => set_TotalOverwritten (add64 (TotalOverwritten w) 1) w) ;;;
       if OverwriteFunc w then emit CallOverwrite else ret tt
     else ret tt) ;;;
    pollRequestDone ;;;
    b2 <- theBuff ;;
    w2 <- get ;;
    if MaxBatchSize w2 <=? Z.of_nat (UnprocessedCount b2)
    then tryToSendChunk else ret tt.

(** [atomic.AddInt64(&w.TotalReceived, int64(len(insts)))] *)
Definition countReceived (insts : list (option Instance)) : M unit :=
  modify (fun w => set_TotalReceived
                     (add64 (TotalReceived w) (Z.of_nat (length insts))) w).



(** [run], up to its main loop. *)
Definition applyDefaults (w : InstanceWriter) : InstanceWriter :=
  let w := if MaxBuffered w =? 0
           then set_MaxBuffered DefaultInstanceMaxBuffered w else w in
  let w := if MaxRequests w =? 0
           then set_MaxRequests DefaultInstanceMaxRequests w else w in
  if MaxBatchSize w =? 0
  then set_MaxBatchSize DefaultInstanceMaxBatchSize w else w.

Definition runInit : M unit :=
  modify applyDefaults ;;;
  w <- get ;;
  match NewInstanceRingBuffer (MaxBuffered w) with
  | None => panic "ring buffer: invalid size"
  | Some b =>
      setBuff b ;;;
      if MaxRequests w <? 0 then panic "makechan: size out of range"
      else if (0 <? MaxRequests w) && (MaxBatchSize w <? 0)
      then panic "makeslice: cap out of range"
      else
        modify (set_chunkSliceCache
                  (replicate (Z.to_nat (MaxRequests w))
                     (mkSlice (replicate (Z.to_nat (MaxBatchSize w)) None) 0))) ;;;
        modify (set_requestDoneCh [])
  end.

(** [WaitForShutdown], seen from its caller. *)
Inductive waitResult :=
| WaitPanics (msg : string)
| WaitBlocks                  (* <-w.shutdownFlag on an open channel *)
| WaitReturns.

Definition WaitForShutdown (w : InstanceWriter) : waitResult :=
  match shutdownFlag w with
  | None => WaitPanics "should not wait for writer shutdown when not running"
  | Some ChanOpen => WaitBlocks
  | Some ChanClosed => WaitReturns
  end.

(** *** The writer and its goroutines

    A send goroutine calls [SendFunc], counts the outcome, gives its slice
    back to the cache and signals on [requestDoneCh].  [SendFunc] is the
    user's: it returns an error or not, as the environment decides, and
    is taken to read the slice it is given without writing to its backing
    array.  [PreprocessFunc] is taken to leave the writer alone. *)
Inductive phase :=
| Sending (chunkCopy : slice)       (* inside w.SendFunc(ctx, chunkCopy) *)
| Returning (chunkCopy : slice)     (* before w.chunkSliceCache <- chunkCopy *)
| Signalling.                       (* before w.requestDoneCh <- count *)

Record task := mkTask { tcount : Z; tphase : phase }.

(** Where the coordinating goroutine stands in [run]. *)
Inductive loopPos :=
| AtSelect             (* the outer select of the main loop *)
| AtBlockingSelect     (* the inner select, after the default case *)
| InDrain              (* the select of drainInput *)
| InWaitForRequests.   (* the loop of waitForRequests *)

Inductive mode :=
| NotStarted
| Spawned                                          (* Start returned, run not begun *)
| Loop (p : loopPos)
| InBatch (rest : list (option Instance)) (back : loopPos)   (* inside processInput *)
| Returned                                         (* run returned *)
| Exited                                           (* shutdownFlag closed, goroutine over *)
| Crashed (msg : string)
| Stuck.

Record World := mkWorld {
  wr : InstanceWriter;
  tasks : list task;
  pc : mode;
  ctxDone : bool;
  overwriteCalls : nat
}.

Definition set_wr (w : InstanceWriter) (st : World) : World :=
  mkWorld w (tasks st) (pc st) (ctxDone st) (overwriteCalls st).
Definition set_tasks (ts : list task) (st : World) : World :=
  mkWorld (wr st) ts (pc st) (ctxDone st) (overwriteCalls st).
Definition set_pc (m : mode) (st : World) : World :=
  mkWorld (wr st) (tasks st) m (ctxDone st) (overwriteCalls st).
Definition set_ctxDone (d : bool) (st : World) : World :=
  mkWorld (wr st) (tasks st) (pc st) d (overwriteCalls st).

Definition boot (w : InstanceWriter) : World := mkWorld w [] NotStarted false 0.

Definition spawned (out : list (effect Instance)) : list task :=
  omap (fun e => match e with
                 | Spawn count c => Some (mkTask count (Sending c))
                 | CallOverwrite => None
                 end) out.

Definition callbacks (out : list (effect Instance)) : nat :=
  length (List.filter (fun e => match e with
                                | CallOverwrite => true
                                | Spawn _ _ => false
                                end) out).

(** The coordinating goroutine ran [m] and goes on at [next]. *)
Definition commit (st : World) (next : mode) (m : M unit) : World :=
  match m (wr st) with
  | Ok _ w out =>
      mkWorld w (tasks st ++ spawned out) next (ctxDone st)
        (overwriteCalls st + callbacks out)
  | Panic msg => set_pc (Crashed msg) st
  | Blocks => set_pc Stuck st
  end.

(** Where [processInput] goes on, or returns to. *)
Definition afterBatch (rest : list (option Instance)) (back : loopPos) : mode :=
  match rest with
  | [] => Loop back
  | _ => InBatch rest back
  end.

Inductive event :=
| EvStart                            (* w.Start(ctx) *)
| EvRun                              (* the new goroutine runs run up to its loop *)
| EvCancel                           (* ctx is cancelled *)
| EvCtxDone                          (* a select takes <-ctx.Done() *)
| EvInput (insts : list (option Instance))   (* a select takes <-w.InputChan *)
| EvItem                             (* processInput handles its next instance *)
| EvRequestDone                      (* <-w.requestDoneCh is taken *)
| EvDefault                          (* a select takes its default case *)
| EvReturn                           (* waitForRequests ends and run returns *)
| EvClose                            (* close(w.shutdownFlag) *)
| EvSendReturns (i : nat) (failed : bool)   (* SendFunc of task i returns *)
| EvSliceBack (i : nat)              (* task i: w.chunkSliceCache <- chunkCopy *)
| EvSignal (i : nat).                (* task i: w.requestDoneCh <- count *)

Definition halted (m : mode) : bool :=
  match m with Crashed _ | Stuck => true | _ => false end.

Definition set_phase (i : nat) (ph : phase) (st : World) : World :=
  set_tasks (alter (fun t => mkTask (tcount t) ph) i (tasks st)) st.

(** One step of the system: of the coordinating goroutine, of a send
    goroutine, or of the environment.  [None] when the step cannot be
    taken in this state.

    An iteration of [processInput], and every other call of the
    coordinating goroutine, is one step.  Send goroutines only add to
    [TotalSent] and [TotalFailedToSend] and append to the two channels; a
    step reads [requestDoneCh] at most once, and first, and takes the head
    of a [chunkSliceCache] that is not empty: a send goroutine moving
    during a step has the effect of moving just before it or just after
    it. *)
Definition step (st : World) (ev : event) : option World :=
  if halted (pc st) then None else
  let w := wr st in
  match ev, pc st with
  | EvStart, NotStarted =>
      Some (set_pc Spawned (set_wr (set_shutdownFlag (Some ChanOpen) w) st))
  | EvRun, Spawned => Some (commit st (Loop AtSelect) runInit)
  | EvCancel, _ => Some (set_ctxDone true st)
  | EvCtxDone, Loop AtSelect | EvCtxDone, Loop AtBlockingSelect =>
      if ctxDone st then Some (set_pc (Loop InDrain) st) else None
  | EvInput insts, Loop AtSelect | EvInput insts, Loop AtBlockingSelect =>
      Some (commit st (afterBatch insts AtSelect) (countReceived insts))
  | EvInput insts, Loop InDrain =>
      Some (commit st (afterBatch insts InDrain) (countReceived insts))
  | EvItem, InBatch (inst :: rest) back =>
      Some (commit st (afterBatch rest back) (processItem inst))
  | EvRequestDone, Loop AtSelect | EvRequestDone, Loop AtBlockingSelect =>
      match requestDoneCh w with
      | [] => None
      | _ => Some (commit st (Loop AtSelect) recvRequestDone)
      end
  | EvRequestDone, Loop InWaitForRequests =>
      if 0 <? requestsActive w then
        match requestDoneCh w with
        | [] => None
        | _ => Some (commit st (Loop InWaitForRequests) recvRequestDone)
        end
      else None
  | EvDefault, Loop AtSelect =>
      match requestDoneCh w with
      | [] => if ctxDone st then None
              else Some (commit st (Loop AtBlockingSelect) tryToSendChunk)
      | _ => None
      end
  | EvDefault, Loop InDrain =>
      (* drainInput returns; its deferred calls run last-in first-out *)
      Some (commit st (Loop InWaitForRequests) tryToSendChunk)
  | EvReturn, Loop InWaitForRequests =>
      if 0 <? requestsActive w then None else Some (set_pc Returned st)
  | EvClose, Returned =>
      match shutdownFlag w with
      | Some ChanOpen =>
          Some (set_pc Exited (set_wr (set_shutdownFlag (Some ChanClosed) w) st))
      | Some ChanClosed => Some (set_pc (Crashed "close of closed channel") st)
      | None => Some (set_pc (Crashed "close of nil channel") st)
      end
  | EvSendReturns i failed, _ =>
      match tasks st !! i with
      | Some (mkTask count (Sending c)) =>
          let w := if failed
                   then set_TotalFailedToSend (add64 (TotalFailedToSend w) count) w
                   else set_TotalSent (add64 (TotalSent w) count) w in
          Some (set_phase i (Returning c) (set_wr w st))
      | _ => None
      end
  | EvSliceBack i, _ =>
      match tasks st !! i with
      | Some (mkTask count (Returning c)) =>
          if Z.of_nat (length (chunkSliceCache w)) <? MaxRequests w then
            Some (set_phase i Signalling
                    (set_wr (set_chunkSliceCache (chunkSliceCache w ++ [c]) w) st))
          else None
      | _ => None
      end
  | EvSignal i, _ =>
      match tasks st !! i with
      | Some (mkTask count Signalling) =>
          if Z.of_nat (length (requestDoneCh w)) <? MaxRequests w then
            Some (set_tasks (delete i (tasks st))
                    (set_wr (set_requestDoneCh (requestDoneCh w ++ [count]) w) st))
          else None
      | _ => None
      end
  | _, _ => None
  end.

Fixpoint steps (st : World) (evs : list event) : option World :=
  match evs with
  | [] => Some st
  | ev :: evs' =>
      match step st ev with
      | Some st' => steps st' evs'
      | None => None
      end
  end.

(** A writer as a user can build it: a Go [int] in every configuration
    field. *)
Definition fresh (w : InstanceWriter) : Prop :=
  exists pre ovw mb mr mbs,
    w = NewWriter pre ovw mb mr mbs /\
    in_int64 mb /\ in_int64 mr /\ in_int64 mbs.

Definition reachable (st : World) : Prop :=
  exists w0 evs, fresh w0 /\ steps (boot w0) evs = Some st.

(** The coordinating goroutine is inside the loops of [run]. *)
Definition running (m : mode) : bool :=
  match m with Loop _ | InBatch _ _ => true | _ => false end.

(** Sends whose [SendFunc] has not returned. *)
Definition is_sending (t : task) : bool :=
  match tphase t with Sending _ => true | _ => false end.

Definition executing (ts : list task) : nat := length (List.filter is_sending ts).

(** Sends that still own their slice. *)
Definition holds_slice (t : task) : bool :=
  match tphase t with Sending _ | Returning _ => true | Signalling => false end.

Definition holding (ts : list task) : nat := length (List.filter holds_slice ts).

(** *** [tryToSendChunk] when it starts a send *)

(** The writer after a batch has been handed to a new send goroutine. *)
Definition launched (w : InstanceWriter) (b : InstanceRingBuffer Instance)
    (cache : list slice) : InstanceWriter :=
  let '(b1, chunk) := NextBatch b (MaxBatchSize w) in
  let b2 := view_clear b1 chunk in
  set_totalWaiting (Z.of_nat (unprocessed b2))
    (set_buff (Some b2)
       (set_chunkSliceCache cache
          (set_requestsActive (add64 (requestsActive w) 1)
             (set_TotalInFlight
                (add64 (TotalInFlight w)
                   (Z.of_nat (batch_len b (MaxBatchSize w)))) w)))).

(** The slice the new send goroutine gets, made from the pooled [s]. *)
Definition chunkOf (w : InstanceWriter) (b : InstanceRingBuffer Instance)
    (s : slice) : slice :=
  let n := batch_len b (MaxBatchSize w) in
  copy (mkSlice (arr (nilAbove n s)) n) (take n (contents b)).

(** *** Invariants of the started writer *)

(** A slice of the pool: its capacity is [MaxBatchSize] and its backing
    array holds nil from its length on. *)
Definition pool_ok (maxBatchSize : Z) (s : slice) : Prop :=
  Z.of_nat (cap s) = maxBatchSize /\ (slen s <= cap s)%nat /\
  forall i, (slen s <= i < cap s)%nat -> arr s !! i = Some None.

Definition task_ok (maxBatchSize : Z) (t : task) : Prop :=
  match tphase t with
  | Sending c | Returning c =>
      pool_ok maxBatchSize c /\ tcount t = Z.of_nat (slen c)
  | Signalling => True
  end.

Record WInv (w : InstanceWriter) (ts : list task) : Prop := mkWInv {
  inv_mb : 0 < MaxBuffered w;
  inv_mr : 0 < MaxRequests w <= max_int64;
  inv_mbs : 0 < MaxBatchSize w;
  inv_buff :
    exists b, buff w = Some b /\ wf b /\ Z.of_nat (Size b) = MaxBuffered w /\
              0 <= totalWaiting w <= Z.of_nat (unprocessed b);
  inv_active :
    requestsActive w = Z.of_nat (length ts + length (requestDoneCh w));
  inv_bound : requestsActive w <= MaxRequests w;
  inv_pool :
    Z.of_nat (length (chunkSliceCache w) + holding ts) = MaxRequests w;
  inv_cache : Forall (pool_ok (MaxBatchSize w)) (chunkSliceCache w);
  inv_tasks : Forall (task_ok (MaxBatchSize w)) ts
}.

(** [run] panics before its loop exactly on a negative setting. *)
Definition bad_config (w : InstanceWriter) : Prop :=
  MaxBuffered w < 0 \/ MaxRequests w < 0 \/ MaxBatchSize w < 0.

Definition GInv (st : World) : Prop :=
  match pc st with
  | NotStarted => fresh (wr st) /\ tasks st = []
  | Spawned =>
      (exists w0, fresh w0 /\ wr st = set_shutdownFlag (Some ChanOpen) w0) /\
      tasks st = []
  | Crashed _ =>
      (exists w0, fresh w0 /\ bad_config w0 /\
                  wr st = set_shutdownFlag (Some ChanOpen) w0) /\
      tasks st = []
  | Loop _ | InBatch _ _ =>
      WInv (wr st) (tasks st) /\ shutdownFlag (wr st) = Some ChanOpen
  | Returned =>
      WInv (wr st) (tasks st) /\ shutdownFlag (wr st) = Some ChanOpen /\
      tasks st = []
  | Exited =>
      WInv (wr st) (tasks st) /\ shutdownFlag (wr st) = Some ChanClosed /\
      tasks st = []
  | Stuck => False
  end.

(** A call of the coordinating goroutine that keeps the invariant: it
    returns, and leaves the configuration and [shutdownFlag] alone. *)
Definition keeps (m : M unit) : Prop :=
  forall w ts, WInv w ts ->
    exists w' out,
      m w = Ok tt w' out /\ WInv w' (ts ++ spawned out) /\
      shutdownFlag w' = shutdownFlag w /\ config w' = config w.

(** [run] has reached its loop. *)
Definition started (m : mode) : bool :=
  match m with
  | Loop _ | InBatch _ _ | Returned | Exited => true
  | _ => false
  end.

(** What a step keeps: the invariant and, once [run] is in its loop, the
    configuration. *)
Definition step_ok (st st' : World) : Prop :=
  GInv st' /\
  (started (pc st) = true ->
   started (pc st') = true /\ config (wr st') = config (wr st)).


(** [m], called on one writer that satisfies the invariant. *)
Definition keeps_at (m : M unit) (w : InstanceWriter) (ts : list task) : Prop :=
  exists w' out,
    m w = Ok tt w' out /\ WInv w' (ts ++ spawned out) /\
    shutdownFlag w' = shutdownFlag w /\ config w' = config w.


(** The unprocessed entries of the writer's buffer, oldest first. *)
Definition contents_of (w : InstanceWriter) : option (list (option Instance)) :=
  contents <$> buff w.

(** *** A run with a sink that fails

    Five instances arrive in one batch and leave in one send; the sink
    fails; a sixth instance arrives afterwards. *)
Definition demoWriter : InstanceWriter := NewWriter None false 8 2 8.

Definition failingRun (a b c d e f : option Instance) : list event :=
  [EvStart; EvRun; EvInput [a; b; c; d; e];
   EvItem; EvItem; EvItem; EvItem; EvItem;
   EvDefault; EvSendReturns 0 true; EvSliceBack 0; EvSignal 0;
   EvRequestDone; EvInput [f]; EvItem].

(** *** The steps, one by one

    [transition] lists the steps a started writer takes in a state that
    satisfies the invariant, with the outcome of the call made. *)

(** Where a batch can be received, and where [processInput] returns to. *)
Inductive selectPos : mode -> loopPos -> Prop :=
| sel_outer : selectPos (Loop AtSelect) AtSelect
| sel_inner : selectPos (Loop AtBlockingSelect) AtSelect
| sel_drain : selectPos (Loop InDrain) InDrain.

(** The call the coordinating goroutine makes on an event, and where it
    goes on afterwards. *)
Inductive called : World -> event -> mode -> M unit -> Prop :=
| C_input st insts back :
    selectPos (pc st) back ->
    called st (EvInput insts) (afterBatch insts back) (countReceived insts)
| C_item st inst rest back :
    pc st = InBatch (inst :: rest) back ->
    called st EvItem (afterBatch rest back) (processItem inst)
| C_done st :
    pc st = Loop AtSelect \/ pc st = Loop AtBlockingSelect ->
    requestDoneCh (wr st) <> [] ->
    called st EvRequestDone (Loop AtSelect) recvRequestDone
| C_done_wait st :
    pc st = Loop InWaitForRequests ->
    0 < requestsActive (wr st) -> requestDoneCh (wr st) <> [] ->
    called st EvRequestDone (Loop InWaitForRequests) recvRequestDone
| C_default st :
    pc st = Loop AtSelect ->
    requestDoneCh (wr st) = [] -> ctxDone st = false ->
    called st EvDefault (Loop AtBlockingSelect) tryToSendChunk
| C_flush st :
    pc st = Loop InDrain ->
    called st EvDefault (Loop InWaitForRequests) tryToSendChunk.

Inductive transition : World -> event -> World -> Prop :=
| T_start st :
    pc st = NotStarted ->
    transition st EvStart
      (set_pc Spawned (set_wr (set_shutdownFlag (Some ChanOpen) (wr st)) st))
| T_run st w' :
    pc st = Spawned -> runInit (wr st) = Ok tt w' [] ->
    WInv w' [] -> tasks st = [] ->
    transition st EvRun
      (mkWorld w' [] (Loop AtSelect) (ctxDone st) (overwriteCalls st + 0))
| T_run_panic st msg :
    pc st = Spawned -> runInit (wr st) = Panic msg ->
    transition st EvRun (set_pc (Crashed msg) st)
| T_cancel st :
    halted (pc st) = false -> transition st EvCancel (set_ctxDone true st)
| T_ctx st :
    pc st = Loop AtSelect \/ pc st = Loop AtBlockingSelect ->
    ctxDone st = true ->
    transition st EvCtxDone (set_pc (Loop InDrain) st)
| T_call st ev next m w' out :
    called st ev next m ->
    WInv (wr st) (tasks st) -> m (wr st) = Ok tt w' out ->
    WInv w' (tasks st ++ spawned out) ->
    transition st ev
      (mkWorld w' (tasks st ++ spawned out) next (ctxDone st)
         (overwriteCalls st + callbacks out))
| T_return st :
    pc st = Loop InWaitForRequests -> requestsActive (wr st) <= 0 ->
    tasks st = [] -> requestDoneCh (wr st) = [] ->
    transition st EvReturn (set_pc Returned st)
| T_close st :
    pc st = Returned ->
    transition st EvClose
      (set_pc Exited (set_wr (set_shutdownFlag (Some ChanClosed) (wr st)) st))
| T_send st i count c failed :
    running (pc st) = true -> WInv (wr st) (tasks st) ->
    tasks st !! i = Some (mkTask count (Sending c)) ->
    transition st (EvSendReturns i failed)
      (set_phase i (Returning c)
         (set_wr (if failed
                  then set_TotalFailedToSend
                         (add64 (TotalFailedToSend (wr st)) count) (wr st)
                  else set_TotalSent
                         (add64 (TotalSent (wr st)) count) (wr st)) st))
| T_back st i count c :
    running (pc st) = true -> WInv (wr st) (tasks st) ->
    tasks st !! i = Some (mkTask count (Returning c)) ->
    transition st (EvSliceBack i)
      (set_phase i Signalling
         (set_wr (set_chunkSliceCache (chunkSliceCache (wr st) ++ [c]) (wr st)) st))
| T_signal st i count :
    running (pc st) = true -> WInv (wr st) (tasks st) ->
    tasks st !! i = Some (mkTask count Signalling) ->
    transition st (EvSignal i)
      (set_tasks (delete i (tasks st))
         (set_wr (set_requestDoneCh (requestDoneCh (wr st) ++ [count]) (wr st)) st)).

(** *** Counting records *)

(** Equal as [int64] values are: modulo [2 ^ 64]. *)
Definition cong64 (a b : Z) : Prop := (a - b) mod 2 ^ 64 = 0.

Definition sumZ (l : list Z) : Z := foldr Z.add 0 l.

(** The records held by send goroutines, and by those whose [SendFunc]
    has not returned. *)
Definition sumCounts (ts : list task) : Z := sumZ (tcount <$> ts).
Definition sumSending (ts : list task) : Z :=
  sumZ (tcount <$> List.filter is_sending ts).

(** [w.buff.UnprocessedCount()], 0 while there is no buffer. *)
Definition buffered (w : InstanceWriter) : Z :=
  match buff w with
  | Some b => Z.of_nat (UnprocessedCount b)
  | None => 0
  end.

(** The instances of the current batch that [processInput] has not
    handled yet. *)
Definition pending (m : mode) : Z :=
  match m with
  | InBatch rest _ => Z.of_nat (length rest)
  | _ => 0
  end.

(** What a call of the coordinating goroutine does to the counters:
    [delta] is the number of records it takes into account. *)
Record Summary (delta : Z) (w w' : InstanceWriter)
    (out : list (effect Instance)) : Prop :=
  mkSummary {
  s_sent : TotalSent w' = TotalSent w;
  s_failed : TotalFailedToSend w' = TotalFailedToSend w;
  s_static : OverwriteFunc w' = OverwriteFunc w /\ config w' = config w;
  s_flight :
    cong64 (TotalInFlight w' - sumZ (requestDoneCh w'))
           (TotalInFlight w - sumZ (requestDoneCh w) + sumCounts (spawned out));
  s_range : in_int64 (TotalInFlight w) -> in_int64 (TotalInFlight w');
  s_recv :
    cong64 (TotalFilteredOut w' + TotalOverwritten w' + buffered w' +
            sumCounts (spawned out) - TotalReceived w')
           (TotalFilteredOut w + TotalOverwritten w + buffered w -
            TotalReceived w + delta);
  s_over :
    if OverwriteFunc w
    then cong64 (TotalOverwritten w')
                (TotalOverwritten w + Z.of_nat (callbacks out))
    else callbacks out = 0%nat;
  s_new :
    Forall (fun t => 0 < tcount t <= MaxBatchSize w /\ is_sending t = true)
           (spawned out);
  s_ch : exists k, requestDoneCh w' = drop k (requestDoneCh w)
}.

Definition tallies (m : M unit) (delta : Z) : Prop :=
  forall w ts w' out,
    WInv w ts -> m w = Ok tt w' out -> Summary delta w w' out.

(** The accounts of the writer: every record received is somewhere. *)
Record AInv (st : World) : Prop := mkAInv {
  a_flight :
    cong64 (TotalInFlight (wr st))
           (sumCounts (tasks st) + sumZ (requestDoneCh (wr st)));
  a_range : in_int64 (TotalInFlight (wr st));
  a_recv :
    cong64 (TotalReceived (wr st))
           (TotalFilteredOut (wr st) + TotalOverwritten (wr st) +
            buffered (wr st) + pending (pc st) + sumSending (tasks st) +
            TotalSent (wr st) + TotalFailedToSend (wr st));
  a_over :
    if OverwriteFunc (wr st)
    then cong64 (Z.of_nat (overwriteCalls st)) (TotalOverwritten (wr st))
    else overwriteCalls st = 0%nat;
  a_counts :
    Forall (fun t => 0 < tcount t <= MaxBatchSize (wr st)) (tasks st) /\
    Forall (fun c => 0 < c <= MaxBatchSize (wr st)) (requestDoneCh (wr st))
}.

(** *** What a dispatch does

    [tryToSendChunk] on active requests [ra], waiting count [tw] and [u]
    unprocessed entries: deferred, nothing to send, or a batch sent. *)
Definition tryRel (maxRequests maxBatchSize ra tw u ra' tw' u' : Z) : Prop :=
  (maxRequests <= ra /\ ra' = ra /\ u' = u /\ tw' = u) \/
  (ra < maxRequests /\ u = 0 /\ ra' = ra /\ tw' = tw /\ u' = 0) \/
  (ra < maxRequests /\ 0 < u /\ ra' = ra + 1 /\
   u' = u - Z.min maxBatchSize u /\ tw' = u').

(** The records handed to the send goroutines a call starts, in order. *)
Definition sentTo (out : list (effect Instance)) : list (option Instance) :=
  flat_map (fun e => match e with
                     | Spawn _ c => elems c
                     | CallOverwrite => []
                     end) out.

(** The end of an iteration of [processInput]. *)
Definition sendIfFull : M unit :=
  b2 <- theBuff ;;
  w2 <- get ;;
  if MaxBatchSize w2 <=? Z.of_nat (UnprocessedCount b2)
  then tryToSendChunk else ret tt.

(** An accepted instance has been added to the buffer. *)
Definition added (inst : option Instance) (b : InstanceRingBuffer Instance)
    (w : InstanceWriter) : InstanceWriter :=
  let w1 := set_buff (Some (Add b inst).1) w in
  if (Add b inst).2
  then set_TotalOverwritten (add64 (TotalOverwritten w) 1) w1
  else w1.

(** [PreprocessFunc] turns the instance down. *)
Definition rejected (w : InstanceWriter) (inst : option Instance) : bool :=
  match PreprocessFunc w with
  | Some f => negb (f inst)
  | None => false
  end.

(** [totalWaiting] is up to date and a backlog has a send to wake it. *)
Definition settled (w : InstanceWriter) : Prop :=
  exists b, buff w = Some b /\
    totalWaiting w = Z.of_nat (unprocessed b) /\
    (0 < Z.of_nat (unprocessed b) -> 0 < requestsActive w).

(** With [k] entries or more in the buffer every send slot is taken, and
    the backlog is recorded. *)
Definition busyFrom (k : Z) (w : InstanceWriter) : Prop :=
  exists b, buff w = Some b /\
    (k <= Z.of_nat (unprocessed b) ->
     requestsActive w = MaxRequests w /\ 0 < totalWaiting w).


(** *** The records, in order *)

(** A run, step by step: the state before, the event and the state
    after. *)
Fixpoint trace (st : World) (evs : list event) : list (World * event * World) :=
  match evs with
  | [] => []
  | ev :: evs' =>
      match step st ev with
      | Some st' => (st, ev, st') :: trace st' evs'
      | None => []
      end
  end.

(** The slices [SendFunc] is called with by the send goroutines a step
    starts: new goroutines come last. *)
Definition sentBy (st st' : World) : list (option Instance) :=
  flat_map (fun t => match tphase t with
                     | Sending c => elems c
                     | _ => []
                     end) (drop (length (tasks st)) (tasks st')).

(** The instance an iteration of [processInput] puts in the buffer. *)
Definition acceptedAt (st : World) (ev : event) : list (option Instance) :=
  match ev, pc st with
  | EvItem, InBatch (inst :: _) _ =>
      if rejected (wr st) inst then [] else [inst]
  | _, _ => []
  end.

(** All that was given to [SendFunc] along a run, and all that was put
    in the buffer, in order. *)
Definition dispatched (st : World) (evs : list event) : list (option Instance) :=
  flat_map (fun x => sentBy x.1.1 x.2) (trace st evs).

Definition accepted (st : World) (evs : list event) : list (option Instance) :=
  flat_map (fun x => acceptedAt x.1.1 x.1.2) (trace st evs).

(** The unprocessed entries of the buffer, none before there is one. *)
Definition held (w : InstanceWriter) : list (option Instance) :=
  match buff w with
  | Some b => contents b
  | None => []
  end.

(** Where the coordinating goroutine waits, and where [run] stands in
    its shutdown: no batch is handled from [waitForRequests]; in a select
    without default, and in [waitForRequests], the backlog is recorded and
    has a send to wake it; after [run] the buffer is empty and no request
    is active. *)
Definition DInv (st : World) : Prop :=
  match pc st with
  | InBatch rest back => rest <> [] /\ (back = AtSelect \/ back = InDrain)
  | Loop AtBlockingSelect | Loop InWaitForRequests => settled (wr st)
  | Returned | Exited =>
      buffered (wr st) = 0 /\ requestsActive (wr st) = 0 /\
      requestDoneCh (wr st) = []
  | _ => True
  end.

(** What [waitForRequests] has left to do: the unprocessed entries and
    the active requests. *)
Definition work (st : World) : nat :=
  length (held (wr st)) + length (tasks st) + length (requestDoneCh (wr st)).
End Code.

(** *** A run with a backlog

    One send at a time, batches of two: of five instances arriving
    together the first two leave at once and the other three wait for the
    send to complete. *)
Definition backlogWriter : InstanceWriter nat := NewWriter None false 8 1 2.

Definition backlogInput : list (option nat) :=
  [Some 1; Some 2; Some 3; Some 4; Some 5]%nat.

Definition toSending : list (@event nat) :=
  [EvStart; EvRun; EvInput backlogInput; EvItem; EvItem; EvItem; EvItem; EvItem].

Definition toSliceBack : list (@event nat) :=
  toSending ++ [EvSendReturns 0 false; EvSliceBack 0].

Definition toSignalled : list (@event nat) := toSliceBack ++ [EvSignal 0].

(** A run without input, from [Start] to the end of the goroutine. *)
Definition toExited : list (@event nat) :=
  [EvStart; EvRun; EvCancel; EvCtxDone; EvDefault; EvReturn; EvClose].

(** The state [evs] leads to from a new writer [w]. *)
Definition stateAfter {Instance : Type} (w : InstanceWriter Instance)
    (evs : list (@event Instance)) : @World Instance :=
  match steps (boot w) evs with
  | Some st => st
  | None => boot w
  end.

(** A full buffer of capacity two. *)
Definition fullRing : InstanceRingBuffer nat :=
  add_all (mkRing [None; None] 0 0) [Some 1; Some 2]%nat.
End Writer.

(** * Properties *)

Module RingFacts.
Import Ring.
Section Facts.
Context {Instance : Type}.
Implicit Types (b : InstanceRingBuffer Instance) (x : option Instance).

Lemma slot_inj (N r i j : nat) :
  (0 < N)%nat -> (i < N)%nat -> (j < N)%nat ->
  ((r + i) mod N = (r + j) mod N)%nat -> i = j.
Proof.
  intros HN Hi Hj Heq.
  pose proof (Nat.div_mod_eq (r + i) N) as E1.
  pose proof (Nat.div_mod_eq (r + j) N) as E2.
  rewrite Heq in E1.
  set (q1 := ((r + i) / N)%nat) in *. set (q2 := ((r + j) / N)%nat) in *.
  set (m := ((r + j) mod N)%nat) in *.
  assert (q1 = q2) by nia. subst q1. nia.
Qed.

Lemma mod_add_same (r N : nat) : ((r + N) mod N = r mod N)%nat.
Proof.
  replace (r + N)%nat with (r + 1 * N)%nat by lia.
  apply Nat.Div0.mod_add.
Qed.

Lemma slot_lt b i : wf b -> (slot b i < Size b)%nat.
Proof. intros (HN & _ & _). apply Nat.mod_upper_bound. lia. Qed.

Lemma slot_0 b : wf b -> slot b 0 = readIdx b.
Proof.
  intros (HN & Hr & _). unfold slot.
  rewrite Nat.add_0_r. by apply Nat.mod_small.
Qed.

Lemma length_contents b : length (contents b) = unprocessed b.
Proof. unfold contents. by rewrite length_fmap, length_seq. Qed.

Lemma lookup_contents b i :
  contents b !! i =
    if decide (i < unprocessed b)%nat
    then Some (default None (buffer b !! slot b i)) else None.
Proof.
  unfold contents. rewrite list_lookup_fmap. case_decide.
  - by rewrite lookup_seq_lt.
  - rewrite lookup_seq_ge; [done | lia].
Qed.

Lemma wf_New (size : Z) b :
  NewInstanceRingBuffer size = Some b ->
  wf b /\ Size b = Z.to_nat size /\ (0 < size)%Z /\ contents b = [].
Proof.
  unfold NewInstanceRingBuffer. destruct (Z.leb_spec size 0); [done |].
  intros [= <-]. unfold wf, Size, contents; simpl.
  rewrite length_replicate. repeat split; lia.
Qed.

Lemma Size_Add b x : Size (Add b x).1 = Size b.
Proof.
  unfold Add. destruct (Size b <=? unprocessed b)%nat; simpl;
    unfold Size; simpl; by rewrite length_insert.
Qed.

Lemma Add_overwrote b x :
  (Add b x).2 = bool_decide (Size b <= unprocessed b)%nat.
Proof.
  unfold Add. destruct (Nat.leb_spec (Size b) (unprocessed b)); simpl.
  - by rewrite bool_decide_eq_true_2.
  - rewrite bool_decide_eq_false_2; [done | lia].
Qed.

Lemma unprocessed_Add b x :
  unprocessed (Add b x).1 =
    if (Add b x).2 then unprocessed b else S (unprocessed b).
Proof. unfold Add. by destruct (Size b <=? unprocessed b)%nat. Qed.

Lemma wf_Add b x : wf b -> wf (Add b x).1.
Proof.
  intros Hwf. pose proof Hwf as (HN & Hr & Hu).
  unfold wf. rewrite Size_Add. unfold Add.
  destruct (Nat.leb_spec (Size b) (unprocessed b)); simpl.
  - split; [done |]. split; [by apply slot_lt | done].
  - split; [done |]. split; [done | lia].
Qed.

(** [Add] appends to the unprocessed entries, and drops the oldest one
    when the buffer is full. *)
Lemma contents_Add b x :
  wf b ->
  contents (Add b x).1 =
    (if (Add b x).2 then drop 1 (contents b) else contents b) ++ [x].
Proof.
  intros (HN & Hr & Hu).
  apply list_eq. intros i. rewrite lookup_contents.
  unfold Add. destruct (Nat.leb_spec (Size b) (unprocessed b)) as [Hfull | Hroom];
    simpl; unfold slot, Size in *; simpl; rewrite length_insert;
    destruct b as [st r u]; simpl in *; remember (length st) as N.
  - (* full: the slot written is the one of the oldest entry *)
    assert (u = N) as -> by lia.
    rewrite mod_add_same, Nat.Div0.add_mod_idemp_l.
    case_decide as Hi.
    + destruct (decide (i = N - 1)%nat) as [-> | Hne].
      * replace (r + 1 + (N - 1))%nat with (r + N)%nat by lia.
        rewrite mod_add_same, list_lookup_insert_eq
          by (rewrite <- HeqN; apply Nat.mod_upper_bound; lia).
        rewrite lookup_app_r by (rewrite length_drop, length_contents; simpl; lia).
        rewrite length_drop, length_contents; simpl.
        replace (N - 1 - (N - 1))%nat with 0%nat by lia. done.
      * rewrite list_lookup_insert_ne.
        2:{ intros E. replace (r mod N)%nat with ((r + 0) mod N)%nat in E
              by (f_equal; lia).
            replace (r + 1 + i)%nat with (r + (1 + i))%nat in E by lia.
            apply slot_inj in E; lia. }
        rewrite lookup_app_l by (rewrite length_drop, length_contents; simpl; lia).
        rewrite lookup_drop, lookup_contents; simpl.
        rewrite decide_True by lia. unfold slot, Size; simpl. rewrite <- HeqN.
        by replace (r + S i)%nat with (r + 1 + i)%nat by lia.
    + rewrite lookup_ge_None_2; [done |].
      rewrite length_app, length_drop, length_contents; simpl; lia.
  - (* room left: the slot written is past the last unprocessed entry *)
    case_decide as Hi.
    + destruct (decide (i = u)) as [-> | Hne].
      * rewrite list_lookup_insert_eq
          by (rewrite <- HeqN; apply Nat.mod_upper_bound; lia).
        rewrite lookup_app_r by (rewrite length_contents; simpl; lia).
        rewrite length_contents; simpl.
        replace (u - u)%nat with 0%nat by lia. done.
      * rewrite list_lookup_insert_ne
          by (intros E; apply slot_inj in E; lia).
        rewrite lookup_app_l by (rewrite length_contents; simpl; lia).
        rewrite lookup_contents; simpl. rewrite decide_True by lia.
        unfold slot, Size; simpl. by rewrite <- HeqN.
    + rewrite lookup_ge_None_2; [done |].
      rewrite length_app, length_contents; simpl; lia.
Qed.

Lemma batch_len_le b max : (batch_len b max <= unprocessed b)%nat.
Proof. unfold batch_len. lia. Qed.

Lemma vlen_NextBatch b max : vlen (NextBatch b max).2 = batch_len b max.
Proof. done. Qed.

Lemma Size_NextBatch b max : Size (NextBatch b max).1 = Size b.
Proof. done. Qed.

Lemma unprocessed_NextBatch b max :
  unprocessed (NextBatch b max).1 = (unprocessed b - batch_len b max)%nat.
Proof. done. Qed.

Lemma wf_NextBatch b max : wf b -> wf (NextBatch b max).1.
Proof.
  intros Hwf. pose proof Hwf as (HN & Hr & Hu). unfold wf, NextBatch; simpl.
  unfold Size; simpl. fold (Size b).
  split; [done |]. split; [by apply slot_lt | lia].
Qed.

(** With nothing to hand out, [NextBatch] leaves the buffer as it is. *)
Lemma NextBatch_empty b max :
  wf b -> batch_len b max = 0%nat -> (NextBatch b max).1 = b.
Proof.
  intros Hwf Hn. unfold NextBatch. rewrite Hn.
  rewrite slot_0 by done. rewrite Nat.sub_0_r. by destruct b.
Qed.

(** The batch is made of the oldest unprocessed entries, in order. *)
Lemma items_NextBatch b max :
  wf b ->
  view_items (NextBatch b max).1 (NextBatch b max).2 =
    take (batch_len b max) (contents b).
Proof.
  intros Hwf. unfold view_items, contents. rewrite <- fmap_take, take_seq.
  rewrite vlen_NextBatch, Nat.min_l by apply batch_len_le. done.
Qed.

(** What stays in the buffer is what the batch did not take. *)
Lemma contents_NextBatch b max :
  wf b -> contents (NextBatch b max).1 = drop (batch_len b max) (contents b).
Proof.
  intros (HN & Hr & Hu). apply list_eq. intros i.
  rewrite lookup_drop, !lookup_contents, unprocessed_NextBatch.
  pose proof (batch_len_le b max).
  destruct (decide (i < unprocessed b - batch_len b max)%nat).
  - rewrite decide_True by lia. do 3 f_equal.
    unfold slot, NextBatch; simpl. unfold slot, Size; simpl.
    rewrite Nat.Div0.add_mod_idemp_l.
    f_equal. lia.
  - by rewrite decide_False by lia.
Qed.

Lemma items_NextBatchItems b max :
  wf b -> (NextBatchItems b max).2 = take (batch_len b max) (contents b).
Proof.
  intros Hwf. unfold NextBatchItems.
  pose proof (items_NextBatch b max Hwf) as E.
  by destruct (NextBatch b max).
Qed.

Lemma fst_NextBatchItems b max : (NextBatchItems b max).1 = (NextBatch b max).1.
Proof. unfold NextBatchItems. by destruct (NextBatch b max). Qed.

(** Writes of nil through a view. *)
Lemma length_clear (g : nat -> nat) (l : list nat) (st : list (option Instance)) :
  length (foldr (fun i st => <[g i := None]> st) st l) = length st.
Proof. induction l as [| i l IH]; simpl; [done |]. by rewrite length_insert. Qed.

Lemma lookup_clear_ne (g : nat -> nat) (l : list nat)
    (st : list (option Instance)) (k : nat) :
  (forall i, i ∈ l -> g i <> k) ->
  foldr (fun i st => <[g i := None]> st) st l !! k = st !! k.
Proof.
  induction l as [| i l IH]; simpl; intros Hne; [done |].
  rewrite list_lookup_insert_ne by (apply Hne; left).
  apply IH. intros j Hj. apply Hne. by right.
Qed.

Lemma lookup_clear_eq (g : nat -> nat) (l : list nat)
    (st : list (option Instance)) (i : nat) :
  i ∈ l -> (g i < length st)%nat ->
  foldr (fun i st => <[g i := None]> st) st l !! g i = Some None.
Proof.
  induction l as [| j l IH]; simpl; intros Hin Hlt.
  - by apply elem_of_nil in Hin.
  - destruct (decide (g j = g i)) as [E | NE].
    + rewrite E. apply list_lookup_insert_eq. by rewrite length_clear.
    + rewrite list_lookup_insert_ne by done. apply IH; [| done].
      apply elem_of_cons in Hin as [-> | Hin]; done.
Qed.

Lemma Size_view_clear b v : Size (view_clear b v) = Size b.
Proof. unfold view_clear, Size; simpl. apply length_clear. Qed.

Lemma wf_view_clear b v : wf b -> wf (view_clear b v).
Proof. unfold wf. by rewrite Size_view_clear. Qed.

(** Clearing the slots of a batch just taken touches no unprocessed
    entry. *)
Lemma contents_view_clear b max :
  wf b ->
  contents (view_clear (NextBatch b max).1 (NextBatch b max).2) =
    contents (NextBatch b max).1.
Proof.
  intros Hwf. pose proof Hwf as (HN & Hr & Hu).
  pose proof (batch_len_le b max) as Hn.
  apply list_eq. intros i. rewrite !lookup_contents.
  change (unprocessed (view_clear ?b ?v)) with (unprocessed b).
  case_decide as Hi; [| done]. rewrite unprocessed_NextBatch in Hi.
  do 2 f_equal. unfold slot. rewrite Size_view_clear.
  unfold view_clear; simpl. apply lookup_clear_ne.
  intros j Hj E. apply elem_of_seq in Hj.
  unfold view_slot, slot in E; simpl in E. unfold slot, Size in E; simpl in E.
  fold (Size b) in E.
  rewrite Nat.Div0.add_mod_idemp_l in E.
  replace (readIdx b + batch_len b max + i)%nat
    with (readIdx b + (batch_len b max + i))%nat in E by lia.
  apply slot_inj in E; lia.
Qed.

(** The representation invariant holds along every run. *)
Lemma wf_run_ops b ops : wf b -> wf (run_ops b ops).1.1.
Proof.
  revert b. induction ops as [| [x | max] ops IH]; intros b Hwf;
    cbn [run_ops]; [done | |].
  - pose proof (wf_Add b x Hwf) as H1. destruct (Add b x) as [b1 o].
    specialize (IH b1 H1). by destruct (run_ops b1 ops) as [[b2 os] bs].
  - pose proof (wf_NextBatch b max Hwf) as H1.
    rewrite <- fst_NextBatchItems in H1.
    destruct (NextBatchItems b max) as [b1 items]. simpl in H1.
    specialize (IH b1 H1). by destruct (run_ops b1 ops) as [[b2 os] bs].
Qed.

Lemma Size_run_ops b ops : Size (run_ops b ops).1.1 = Size b.
Proof.
  revert b. induction ops as [| [x | max] ops IH]; intros b;
    cbn [run_ops]; [done | |].
  - pose proof (Size_Add b x) as H1. destruct (Add b x) as [b1 o].
    specialize (IH b1). destruct (run_ops b1 ops) as [[b2 os] bs].
    simpl in *. congruence.
  - pose proof (Size_NextBatch b max) as H1.
    rewrite <- fst_NextBatchItems in H1.
    destruct (NextBatchItems b max) as [b1 items].
    specialize (IH b1). destruct (run_ops b1 ops) as [[b2 os] bs].
    simpl in *. congruence.
Qed.

(** Batches come out in insertion order: what is handed out, followed by
    what is still buffered, is a subsequence of what was there followed
    by what was inserted. *)
Lemma run_ops_sublist b ops :
  wf b ->
  concat (run_ops b ops).2 ++ contents (run_ops b ops).1.1
    `sublist_of` contents b ++ added ops.
Proof.
  revert b. induction ops as [| [x | max] ops IH]; intros b Hwf;
    cbn [run_ops added omap].
  - simpl. by rewrite app_nil_r.
  - pose proof (wf_Add b x Hwf) as H1.
    pose proof (contents_Add b x Hwf) as Hc.
    destruct (Add b x) as [b1 o]. simpl in *.
    specialize (IH b1 H1). destruct (run_ops b1 ops) as [[b2 os] bs].
    simpl in *. etrans; [exact IH |]. rewrite Hc.
    rewrite <- app_assoc. simpl. apply sublist_app; [| done].
    destruct o; [apply sublist_drop | done].
  - pose proof (wf_NextBatch b max Hwf) as H1.
    pose proof (contents_NextBatch b max Hwf) as Hc.
    pose proof (items_NextBatchItems b max Hwf) as Hi.
    rewrite <- fst_NextBatchItems in H1, Hc.
    destruct (NextBatchItems b max) as [b1 items]. simpl in *.
    specialize (IH b1 H1). destruct (run_ops b1 ops) as [[b2 os] bs].
    simpl in *. rewrite Hc in IH. subst items.
    rewrite <- (take_drop (batch_len b max) (contents b)) at 2.
    rewrite <- !app_assoc. by apply sublist_app.
Qed.

Lemma add_all_cons b x items :
  add_all b (x :: items) = add_all (Add b x).1 items.
Proof. done. Qed.

Lemma wf_add_all b items : wf b -> wf (add_all b items).
Proof.
  revert b. induction items as [| x items IH]; intros b Hwf; [done |].
  rewrite add_all_cons. apply IH. by apply wf_Add.
Qed.

Lemma Size_add_all b items : Size (add_all b items) = Size b.
Proof.
  revert b. induction items as [| x items IH]; intros b; [done |].
  rewrite add_all_cons, IH. apply Size_Add.
Qed.

(** Inserting no more than the room left overwrites nothing. *)
Lemma contents_add_all b items :
  wf b -> (unprocessed b + length items <= Size b)%nat ->
  contents (add_all b items) = contents b ++ items.
Proof.
  revert b. induction items as [| x items IH]; intros b Hwf Hlen.
  - by rewrite app_nil_r.
  - simpl in Hlen. rewrite add_all_cons, IH.
    + rewrite contents_Add, Add_overwrote by done.
      rewrite bool_decide_eq_false_2 by lia. by rewrite <- app_assoc.
    + by apply wf_Add.
    + rewrite Size_Add, unprocessed_Add, Add_overwrote.
      rewrite bool_decide_eq_false_2 by lia. lia.
Qed.

(** Nothing is lost but by overwriting: what was handed out, what is still
    buffered and what was overwritten add up to what was inserted. *)
Lemma run_ops_count b ops :
  wf b ->
  (length (concat (run_ops b ops).2) + unprocessed (run_ops b ops).1.1 +
   overwrites (run_ops b ops).1.2 = unprocessed b + length (added ops))%nat.
Proof.
revert b. induction ops as [| [x | max] ops IH]; intros b Hwf;
  cbn [run_ops added omap].
- cbn. lia.
- pose proof (wf_Add b x Hwf) as H1.
  pose proof (unprocessed_Add b x) as Hu.
  destruct (Add b x) as [b1 o]. cbn [fst snd] in *.
  specialize (IH b1 H1). destruct (run_ops b1 ops) as [[b2 os] bs].
  cbn [fst snd length] in *. unfold overwrites in *. cbn [List.filter].
  change (added (OpAdd x :: ops)) with (x :: added ops).
  destruct o; cbn [length]; lia.
- pose proof (wf_NextBatch b max Hwf) as H1.
  pose proof (unprocessed_NextBatch b max) as Hu.
  pose proof (items_NextBatchItems b max Hwf) as Hi.
  pose proof (batch_len_le b max) as Hn.
  rewrite <- fst_NextBatchItems in H1, Hu.
  destruct (NextBatchItems b max) as [b1 items]. cbn [fst snd] in *.
  specialize (IH b1 H1). destruct (run_ops b1 ops) as [[b2 os] bs].
  change (added (OpNextBatch max :: ops)) with (added ops).
  cbn [fst snd concat] in *. rewrite length_app. subst items.
  rewrite length_take, length_contents. lia.
Qed.

Lemma elem_of_concat (o : option Instance) batch
    (bs : list (list (option Instance))) :
  o ∈ batch -> batch ∈ bs -> o ∈ concat bs.
Proof.
intros Ho Hb. induction bs as [| b' bs IH]; [by apply elem_of_nil in Hb |].
cbn [concat]. apply elem_of_app. apply elem_of_cons in Hb as [<- | Hb]; auto.
Qed.

(** ** The claims about the ring buffer *)

(** C2.  [Add] never changes the capacity and never leaves more than
    [Size] unprocessed entries.  On a buffer with room it returns false
    and appends the item; on a full buffer it returns true and drops the
    oldest unprocessed entry, the least recently inserted one, which no
    later [NextBatch] returns (told apart from the other entries, it is in
    no later batch).  [Add] is a total function: it neither blocks nor
    fails. *)
Theorem Add_overwrites_oldest b x :
  wf b ->
  Size (Add b x).1 = Size b /\
  (UnprocessedCount (Add b x).1 <= Size b)%nat /\
  ((UnprocessedCount b < Size b)%nat ->
   (Add b x).2 = false /\ contents (Add b x).1 = contents b ++ [x]) /\
  (UnprocessedCount b = Size b ->
   (Add b x).2 = true /\
   contents (Add b x).1 = drop 1 (contents b) ++ [x] /\
   forall o ops,
     head (contents b) = Some o ->
     o ∉ drop 1 (contents b) -> o <> x -> o ∉ added ops ->
     forall batch, batch ∈ (run_ops (Add b x).1 ops).2 -> o ∉ batch).
Proof.
intros Hwf. pose proof (wf_Add b x Hwf) as Hwf1.
pose proof (contents_Add b x Hwf) as Hc.
pose proof (Add_overwrote b x) as Ho. unfold UnprocessedCount.
split; [apply Size_Add |]. split.
{ destruct Hwf1 as (_ & _ & Hu). by rewrite Size_Add in Hu. }
split.
- intros Hroom. rewrite bool_decide_eq_false_2 in Ho by lia.
  rewrite Ho in Hc. done.
- intros Hfull. rewrite bool_decide_eq_true_2 in Ho by lia.
  rewrite Ho in Hc. split; [done |]. split; [done |].
  intros o ops Hhead Hrest Hx Hops batch Hbatch Hin.
  pose proof (run_ops_sublist (Add b x).1 ops Hwf1) as Hsub.
  apply sublist_subseteq in Hsub.
  assert (o ∈ concat (run_ops (Add b x).1 ops).2 ++
              contents (run_ops (Add b x).1 ops).1.1) as Ho'.
  { apply elem_of_app. left. by eapply elem_of_concat. }
  apply Hsub in Ho'. rewrite Hc in Ho'.
  rewrite !elem_of_app, list_elem_of_singleton in Ho'.
  destruct Ho' as [[? | ?] | ?]; done.
Qed.

(** C6.  Whatever insertions and batch extractions a buffer of capacity
    [C] has gone through, it holds at most [C] unprocessed entries, and so
    it does after one more insertion; its capacity is still [C]. *)
Theorem unprocessed_le_capacity (C : Z) b0 ops x :
  NewInstanceRingBuffer C = Some b0 ->
  let b := (run_ops b0 ops).1.1 in
  Z.of_nat (UnprocessedCount b) <= C /\
  Z.of_nat (UnprocessedCount (Add b x).1) <= C /\
  Z.of_nat (Size b) = C.
Proof.
intros (Hwf & HS & Hpos & _)%wf_New b.
pose proof (wf_run_ops b0 ops Hwf) as Hwf1. fold b in Hwf1.
pose proof (Size_run_ops b0 ops) as HS1. fold b in HS1.
pose proof (wf_Add b x Hwf1) as (_ & _ & Hu2). rewrite Size_Add in Hu2.
destruct Hwf1 as (_ & _ & Hu1). unfold UnprocessedCount. lia.
Qed.

(** C7.  Inserting [k <= C] items into a new buffer of capacity [C] and
    asking for a batch of [k] returns those items in insertion order and
    leaves no unprocessed entry.  Along any run, the batches handed out,
    one after the other and followed by what is still buffered, are a
    subsequence of the inserted items: the order of insertion is kept, and
    exactly as many items are missing as insertions overwrote one. *)
Theorem NextBatch_round_trip (C : Z) b0 (items : list (option Instance)) :
  NewInstanceRingBuffer C = Some b0 -> Z.of_nat (length items) <= C ->
  (NextBatchItems (add_all b0 items) (Z.of_nat (length items))).2 = items /\
  UnprocessedCount
    (NextBatchItems (add_all b0 items) (Z.of_nat (length items))).1 = 0%nat /\
  (forall ops,
     concat (run_ops b0 ops).2 ++ contents (run_ops b0 ops).1.1
       `sublist_of` added ops /\
     (length (concat (run_ops b0 ops).2) +
      UnprocessedCount (run_ops b0 ops).1.1 +
      overwrites (run_ops b0 ops).1.2 = length (added ops))%nat).
Proof.
intros (Hwf & HS & Hpos & Hempty)%wf_New Hlen.
assert (unprocessed b0 = 0%nat) as Hu0
  by (by rewrite <- length_contents, Hempty).
pose proof (wf_add_all b0 items Hwf) as Hwf1.
assert (contents (add_all b0 items) = items) as Hc.
{ rewrite contents_add_all, Hempty by (done || lia). done. }
assert (batch_len (add_all b0 items) (Z.of_nat (length items)) = length items)
  as Hn.
{ unfold batch_len. rewrite <- length_contents, Hc. lia. }
split; [| split].
- rewrite items_NextBatchItems, Hn, Hc by done. apply firstn_all.
- rewrite fst_NextBatchItems. unfold UnprocessedCount.
  rewrite unprocessed_NextBatch, Hn, <- length_contents, Hc. lia.
- intros ops. split.
  + pose proof (run_ops_sublist b0 ops Hwf) as Hsub. by rewrite Hempty in Hsub.
  + pose proof (run_ops_count b0 ops Hwf) as Hcount. unfold UnprocessedCount. lia.
Qed.

End Facts.

Lemma Add_overwrites_oldest_witness :
  wf Writer.fullRing /\
  Size (Add Writer.fullRing (Some 3%nat)).1 = 2%nat /\
  (Add Writer.fullRing (Some 3%nat)).2 = true /\
  contents (Add Writer.fullRing (Some 3%nat)).1 = [Some 2; Some 3]%nat.
Proof.
assert (wf Writer.fullRing) as Hwf by (vm_compute; repeat split; lia).
split; [exact Hwf |].
destruct (Add_overwrites_oldest Writer.fullRing (Some 3%nat) Hwf)
  as (HS & _ & _ & Hfull).
destruct (Hfull eq_refl) as (Ho & Hc & _).
split; [exact HS |]. split; [exact Ho | exact Hc].
Defined.

Lemma unprocessed_le_capacity_witness :
  NewInstanceRingBuffer 2 = Some (mkRing [@None nat; None] 0 0) /\
  Z.of_nat
    (UnprocessedCount
       (Add (run_ops (mkRing [None; None] 0 0)
                     [OpAdd (Some 1%nat); OpAdd (Some 2%nat);
                      OpNextBatch 1; OpAdd (Some 3%nat)]).1.1
            (Some 4%nat)).1) <= 2.
Proof.
split; [reflexivity |].
apply (unprocessed_le_capacity 2 (mkRing [None; None] 0 0)
         [OpAdd (Some 1%nat); OpAdd (Some 2%nat); OpNextBatch 1;
          OpAdd (Some 3%nat)] (Some 4%nat) eq_refl).
Defined.

Lemma NextBatch_round_trip_witness :
  NewInstanceRingBuffer 3 = Some (mkRing [@None nat; None; None] 0 0) /\
  Z.of_nat (length [Some 7%nat; Some 8%nat]) <= 3 /\
  (NextBatchItems (add_all (mkRing [None; None; None] 0 0)
                           [Some 7%nat; Some 8%nat]) 2).2 =
    [Some 7%nat; Some 8%nat].
Proof.
split; [reflexivity |].
assert (Z.of_nat (length [Some 7%nat; Some 8%nat]) <= 3) as Hlen
  by (vm_compute; discriminate).
split; [exact Hlen |].
apply (NextBatch_round_trip 3 (mkRing [None; None; None] 0 0)
         [Some 7%nat; Some 8%nat] eq_refl Hlen).
Defined.

End RingFacts.

Module WriterFacts.
Import Ring RingFacts Writer.

Lemma wrap64_id (z : Z) : in_int64 z -> wrap64 z = z.
Proof.
unfold in_int64, min_int64, max_int64, wrap64. intros H.
rewrite Z.mod_small; lia.
Qed.

Lemma wrap64_range (z : Z) : in_int64 (wrap64 z).
Proof.
unfold in_int64, min_int64, max_int64, wrap64.
pose proof (Z.mod_pos_bound (z + 2 ^ 63) (2 ^ 64)). lia.
Qed.

Lemma add64_id (x d : Z) : in_int64 (x + d) -> add64 x d = x + d.
Proof. apply wrap64_id. Qed.

Section Facts.
Context {Instance : Type}.
Local Abbreviation InstanceWriter := (InstanceWriter Instance).
Local Abbreviation slice := (slice Instance).
Local Abbreviation World := (@World Instance).
Local Abbreviation task := (@task Instance).
Local Abbreviation mode := (@mode Instance).
Local Abbreviation event := (@event Instance).
Implicit Types (w : InstanceWriter) (b : InstanceRingBuffer Instance)
  (s : slice) (ts : list task) (st : World).

Ltac msimpl :=
  cbv [bind get modify ret emit panic block theBuff setBuff];
  cbn [PreprocessFunc OverwriteFunc MaxBuffered MaxRequests MaxBatchSize
       shutdownFlag buff requestDoneCh chunkSliceCache requestsActive
       totalWaiting TotalReceived TotalFilteredOut TotalInFlight TotalSent
       TotalFailedToSend TotalOverwritten
       set_MaxBuffered set_MaxRequests set_MaxBatchSize set_shutdownFlag
       set_buff set_requestDoneCh set_chunkSliceCache set_requestsActive
       set_totalWaiting set_TotalReceived set_TotalFilteredOut
       set_TotalInFlight set_TotalSent set_TotalFailedToSend
       set_TotalOverwritten app fst snd].

(** *** [tryToSendChunk], case by case *)

Lemma tryToSendChunk_deferred w b :
  buff w = Some b -> MaxRequests w <= requestsActive w ->
  tryToSendChunk w = Ok tt (set_totalWaiting (Z.of_nat (unprocessed b)) w) [].
Proof.
intros Hb Hle. unfold tryToSendChunk. msimpl. rewrite Hb. msimpl.
destruct (Z.leb_spec (MaxRequests w) (requestsActive w)); [done | lia].
Qed.

Lemma tryToSendChunk_nothing w b :
  buff w = Some b -> requestsActive w < MaxRequests w ->
  batch_len b (MaxBatchSize w) = 0%nat ->
  tryToSendChunk w = Ok tt (set_buff (Some (NextBatch b (MaxBatchSize w)).1) w) [].
Proof.
intros Hb Hlt Hn. unfold tryToSendChunk. msimpl. rewrite Hb. msimpl.
destruct (Z.leb_spec (MaxRequests w) (requestsActive w)); [lia |].
pose proof (vlen_NextBatch b (MaxBatchSize w)) as Hv. rewrite Hn in Hv.
destruct (NextBatch b (MaxBatchSize w)) as [b1 chunk]. cbn [fst snd] in *.
rewrite Hv. done.
Qed.

Lemma tryToSendChunk_launch w b s (cache : list slice) :
  wf b ->
  buff w = Some b -> requestsActive w < MaxRequests w ->
  batch_len b (MaxBatchSize w) <> 0%nat ->
  chunkSliceCache w = s :: cache ->
  (batch_len b (MaxBatchSize w) <= cap s)%nat ->
  tryToSendChunk w =
    Ok tt (launched w b cache)
      [Spawn (Z.of_nat (batch_len b (MaxBatchSize w))) (chunkOf w b s)].
Proof.
intros Hwf Hb Hlt Hn Hc Hcap. unfold tryToSendChunk, launched, chunkOf.
msimpl. rewrite Hb. msimpl.
destruct (Z.leb_spec (MaxRequests w) (requestsActive w)); [lia |].
pose proof (vlen_NextBatch b (MaxBatchSize w)) as Hv.
pose proof (items_NextBatch b (MaxBatchSize w) Hwf) as Hi.
destruct (NextBatch b (MaxBatchSize w)) as [b1 chunk]. cbn [fst snd] in *.
rewrite Hv, Hi.
destruct (Z.eqb_spec (Z.of_nat (batch_len b (MaxBatchSize w))) 0); [lia |].
unfold getChunkSlice. msimpl. rewrite Hc. unfold reslice.
assert (cap (nilAbove (batch_len b (MaxBatchSize w)) s) = cap s) as Hcap'.
{ unfold cap, nilAbove; cbn [arr]. clear.
  generalize (seq (batch_len b (MaxBatchSize w))
                (slen s - batch_len b (MaxBatchSize w))).
  intros l. induction l as [| i l IH]; cbn [foldr]; [done |].
  by rewrite length_insert. }
rewrite Hcap'. destruct (Nat.leb_spec (batch_len b (MaxBatchSize w)) (cap s)); [| lia].
msimpl. done.
Qed.

(** *** Counting send goroutines *)

Lemma holding_app ts1 ts2 : holding (ts1 ++ ts2) = (holding ts1 + holding ts2)%nat.
Proof. unfold holding. by rewrite List.filter_app, length_app. Qed.

Lemma holding_le ts : (holding ts <= length ts)%nat.
Proof. apply List.filter_length_le. Qed.

Lemma executing_le ts : (executing ts <= length ts)%nat.
Proof. apply List.filter_length_le. Qed.

Lemma holding_alter ts i t (f : task -> task) :
  ts !! i = Some t -> holds_slice (f t) = holds_slice t ->
  holding (alter f i ts) = holding ts.
Proof.
revert i. induction ts as [| t' ts IH]; intros [| i] Hi Hf; try done.
- injection Hi as ->. unfold holding. cbn [alter list_alter List.filter].
  rewrite Hf. by destruct (holds_slice t).
- unfold holding in *. cbn [alter list_alter List.filter].
  specialize (IH i Hi Hf). destruct (holds_slice t'); cbn [length]; by rewrite IH.
Qed.

Lemma holding_alter_release ts i t (f : task -> task) :
  ts !! i = Some t -> holds_slice t = true -> holds_slice (f t) = false ->
  S (holding (alter f i ts)) = holding ts.
Proof.
revert i. induction ts as [| t' ts IH]; intros [| i] Hi Ht Hf; try done.
- injection Hi as ->. unfold holding. cbn [alter list_alter List.filter].
  by rewrite Hf, Ht.
- unfold holding in *. cbn [alter list_alter List.filter].
  specialize (IH i Hi Ht Hf). destruct (holds_slice t'); cbn [length]; by rewrite <- IH.
Qed.

Lemma holding_delete ts i t :
  ts !! i = Some t -> holds_slice t = false -> holding (delete i ts) = holding ts.
Proof.
revert i. induction ts as [| t' ts IH]; intros [| i] Hi Ht; try done.
- injection Hi as ->. unfold holding. change (delete 0%nat (t :: ts)) with ts.
  cbn [List.filter]. by rewrite Ht.
- unfold holding in *. change (delete (S i) (t' :: ts)) with (t' :: delete i ts).
  cbn [List.filter]. specialize (IH i Hi Ht).
  destruct (holds_slice t'); cbn [length]; by rewrite IH.
Qed.

Lemma spawned_app (out1 out2 : list (effect Instance)) :
  spawned (out1 ++ out2) = spawned out1 ++ spawned out2.
Proof. apply omap_app. Qed.

Lemma spawned_Spawn (count : Z) s :
  spawned [Spawn count s] = [mkTask count (Sending s)].
Proof. done. Qed.

(** *** Pooled slices *)

Lemma cap_nilAbove (n : nat) s : cap (nilAbove n s) = cap s.
Proof. unfold cap, nilAbove; cbn [arr]. apply (length_clear (fun i => i)). Qed.

Lemma lookup_nilAbove (n : nat) s (i : nat) :
  (slen s <= cap s)%nat ->
  arr (nilAbove n s) !! i =
    if decide (n <= i < slen s)%nat then Some None else arr s !! i.
Proof.
intros Hlen. unfold nilAbove; cbn [arr]. case_decide as Hi.
- apply (lookup_clear_eq (fun i => i)).
  + apply elem_of_seq. lia.
  + unfold cap in Hlen. lia.
- apply (lookup_clear_ne (fun i => i)).
  intros j Hj ->. apply elem_of_seq in Hj. lia.
Qed.

Lemma batch_len_le_max b (max : Z) : 0 <= max -> Z.of_nat (batch_len b max) <= max.
Proof. unfold batch_len. lia. Qed.

(** The slice handed to a send goroutine is again one of the pool: what
    lies beyond its length is nil. *)
Lemma pool_ok_chunkOf w b s :
  pool_ok (MaxBatchSize w) s -> 0 < MaxBatchSize w ->
  pool_ok (MaxBatchSize w) (chunkOf w b s) /\
  slen (chunkOf w b s) = batch_len b (MaxBatchSize w) /\
  elems (chunkOf w b s) = take (batch_len b (MaxBatchSize w)) (contents b).
Proof.
intros (Hcap & Hlen & Hnil) Hpos. unfold chunkOf.
set (n := batch_len b (MaxBatchSize w)).
assert (n <= unprocessed b)%nat as Hn1 by apply batch_len_le.
assert (n <= cap s)%nat as Hn2.
{ pose proof (batch_len_le_max b (MaxBatchSize w)). fold n in H. lia. }
unfold copy; cbn [slen arr].
rewrite length_take, length_contents.
replace (n `min` (n `min` unprocessed b))%nat with n by lia.
rewrite take_take. replace (n `min` n)%nat with n by lia.
assert (length (take n (contents b)) = n) as Htake
  by (rewrite length_take, length_contents; lia).
split; [| split].
- unfold pool_ok, cap; cbn [arr slen].
  rewrite length_app, Htake, length_drop.
  fold (cap (nilAbove n s)). rewrite cap_nilAbove.
  split; [lia |]. split; [lia |]. intros i Hi.
  rewrite lookup_app_r by lia. rewrite Htake, lookup_drop.
  replace (n + (i - n))%nat with i by lia.
  rewrite lookup_nilAbove by done. case_decide; [done |].
  apply Hnil. lia.
- done.
- unfold elems; cbn [arr slen]. rewrite take_app_le by lia.
  rewrite take_take. by replace (n `min` n)%nat with n by lia.
Qed.

(** *** The monad, equationally *)

Lemma bind_ret_l {A B} (a : A) (k : A -> M Instance B) w : (x <- ret a ;; k x) w = k a w.
Proof. unfold bind, ret. by destruct (k a w). Qed.

Lemma bind_get {B} (k : InstanceWriter -> M Instance B) w : (x <- get ;; k x) w = k w w.
Proof. unfold bind, get. by destruct (k w w). Qed.

Lemma bind_modify {B} (f : InstanceWriter -> InstanceWriter) (k : M Instance B) w :
  (modify f ;;; k) w = k (f w).
Proof. unfold bind, modify. by destruct (k (f w)). Qed.

Lemma bind_Ok {A B} (m : M Instance A) (k : A -> M Instance B) w a w1 out1 :
  m w = Ok a w1 out1 ->
  (x <- m ;; k x) w =
    match k a w1 with
    | Ok b w2 out2 => Ok b w2 (out1 ++ out2)
    | Panic msg => Panic msg
    | Blocks => Blocks
    end.
Proof. intros E. unfold bind. by rewrite E. Qed.

Lemma bind_Panic {A B} (m : M Instance A) (k : A -> M Instance B) w msg :
  m w = Panic msg -> (x <- m ;; k x) w = Panic msg.
Proof. intros E. unfold bind. by rewrite E. Qed.

Lemma theBuff_None w :
  buff w = None ->
  theBuff w = Panic "invalid memory address or nil pointer dereference".
Proof. intros Hb. unfold theBuff. rewrite bind_get, Hb. done. Qed.

Lemma theBuff_Some w b : buff w = Some b -> theBuff w = Ok b w [].
Proof. intros Hb. unfold theBuff. rewrite bind_get, Hb. done. Qed.

(** The writer once a completion of [count] records has been taken into
    account, before any new dispatch. *)
Lemma handleRequestDone_eq (count : Z) w :
  handleRequestDone count w =
    (if 0 <? totalWaiting w then tryToSendChunk else ret tt)
      (completed count w).
Proof.
unfold handleRequestDone, completed. rewrite !bind_modify, bind_get. done.
Qed.

(** *** Calls that keep the invariant *)

Ltac winv :=
  cbn [PreprocessFunc OverwriteFunc MaxBuffered MaxRequests MaxBatchSize
       shutdownFlag buff requestDoneCh chunkSliceCache requestsActive
       totalWaiting TotalReceived TotalFilteredOut TotalInFlight TotalSent
       TotalFailedToSend TotalOverwritten
       set_MaxBuffered set_MaxRequests set_MaxBatchSize set_shutdownFlag
       set_buff set_requestDoneCh set_chunkSliceCache set_requestsActive
       set_totalWaiting set_TotalReceived set_TotalFilteredOut
       set_TotalInFlight set_TotalSent set_TotalFailedToSend
       set_TotalOverwritten config completed NewWriter] in *.

Lemma keeps_ret : @keeps Instance (ret tt).
Proof.
intros w ts Hinv. exists w, []. rewrite app_nil_r. done.
Qed.

Lemma keeps_bind (m k : M Instance unit) : keeps m -> keeps k -> keeps (m ;;; k).
Proof.
intros Hm Hk w ts Hinv.
destruct (Hm w ts Hinv) as (w1 & out1 & E1 & Hinv1 & Hf1 & Hc1).
destruct (Hk w1 _ Hinv1) as (w2 & out2 & E2 & Hinv2 & Hf2 & Hc2).
exists w2, (out1 ++ out2). rewrite (bind_Ok _ _ _ _ _ _ E1), E2.
rewrite spawned_app, app_assoc.
split; [done |]. split; [done |]. split; congruence.
Qed.

(** Changes that touch neither the configuration nor what the invariant
    counts. *)
Lemma keeps_modify (f : InstanceWriter -> InstanceWriter) :
  (forall w, config (f w) = config w /\ shutdownFlag (f w) = shutdownFlag w /\
             buff (f w) = buff w /\ totalWaiting (f w) = totalWaiting w /\
             requestsActive (f w) = requestsActive w /\
             requestDoneCh (f w) = requestDoneCh w /\
             chunkSliceCache (f w) = chunkSliceCache w) ->
  keeps (modify f).
Proof.
intros Hf w ts [Hmb Hmr Hmbs Hbuff Hact Hbound Hpool Hcache Htasks].
destruct (Hf w) as (Hc & Hfl & Hb & Htw & Hra & Hch & Hcs).
unfold config in Hc. injection Hc as E1 E2 E3.
exists (f w), []. rewrite app_nil_r. unfold modify.
split; [done |]. split; [| split; [done | unfold config; congruence]].
constructor; rewrite ?E1, ?E2, ?E3, ?Hb, ?Htw, ?Hra, ?Hch, ?Hcs; done.
Qed.

Lemma keeps_countReceived (insts : list (option Instance)) :
  keeps (countReceived insts).
Proof. apply keeps_modify. intros w. by winv. Qed.

Lemma cache_nonempty w ts :
  WInv w ts -> requestsActive w < MaxRequests w ->
  exists s cache, chunkSliceCache w = s :: cache.
Proof.
intros [Hmb Hmr Hmbs Hbuff Hact Hbound Hpool Hcache Htasks] Hlt.
pose proof (holding_le ts).
destruct (chunkSliceCache w) as [| s cache]; [| by eauto].
cbn [length] in Hpool. lia.
Qed.

Lemma keeps_tryToSendChunk : @keeps Instance tryToSendChunk.
Proof.
intros w ts Hinv.
pose proof Hinv as [Hmb Hmr Hmbs Hbuff Hact Hbound Hpool Hcache Htasks].
destruct Hbuff as (b & Hb & Hwf & HS & Htw).
destruct (Z.le_gt_cases (MaxRequests w) (requestsActive w)) as [Hfull | Hfree].
{ (* every send slot is taken *)
  rewrite (tryToSendChunk_deferred w b) by done.
  eexists _, []. rewrite app_nil_r. split; [done |].
  split; [| by winv]. constructor; winv; try done.
  exists b. split; [done |]. split; [done |]. split; [done | lia]. }
destruct (decide (batch_len b (MaxBatchSize w) = 0%nat)) as [Hnone | Hsome].
{ (* nothing to send *)
  rewrite (tryToSendChunk_nothing w b) by done.
  rewrite NextBatch_empty by done.
  eexists _, []. rewrite app_nil_r. split; [done |].
  split; [| by winv]. constructor; winv; try done.
  exists b. done. }
(* a batch leaves *)
destruct (cache_nonempty w ts Hinv Hfree) as (s & cache & Hc).
rewrite Hc in Hcache, Hpool. apply Forall_cons in Hcache as [Hs Hcache].
destruct (pool_ok_chunkOf w b s Hs Hmbs) as (Hok & Hslen & _).
assert (batch_len b (MaxBatchSize w) <= cap s)%nat as Hcap.
{ destruct Hs as (Hs & _). pose proof (batch_len_le_max b (MaxBatchSize w)). lia. }
rewrite (tryToSendChunk_launch w b s cache) by done.
eexists _, _. split; [done |].
unfold launched.
pose proof (wf_NextBatch b (MaxBatchSize w) Hwf) as Hwf1.
pose proof (Size_NextBatch b (MaxBatchSize w)) as HS1.
destruct (NextBatch b (MaxBatchSize w)) as [b1 chunk]. cbn [fst snd] in *.
assert (add64 (requestsActive w) 1 = requestsActive w + 1) as Hadd.
{ apply add64_id. unfold in_int64, min_int64, max_int64 in *. lia. }
split; [| by winv]. constructor; winv; try done.
- exists (view_clear b1 chunk). split; [done |].
  split; [by apply wf_view_clear |].
  rewrite Size_view_clear. split; [congruence |].
  change (unprocessed (view_clear b1 chunk)) with (unprocessed b1).
  split; [apply Nat2Z.is_nonneg | reflexivity].
- rewrite Hadd, Hact, length_app, spawned_Spawn. cbn [length]. lia.
- lia.
- rewrite holding_app, spawned_Spawn. cbn [length] in Hpool.
  change (holding [_]) with 1%nat. lia.
- apply Forall_app. split; [done |].
  rewrite spawned_Spawn. apply Forall_singleton.
  unfold task_ok; cbn [tphase tcount]. by rewrite Hslen.
Qed.

Lemma WInv_completed w ts (count : Z) (ch : list Z) :
  WInv w ts -> requestDoneCh w = count :: ch ->
  WInv (completed count (set_requestDoneCh ch w)) ts.
Proof.
intros [Hmb Hmr Hmbs Hbuff Hact Hbound Hpool Hcache Htasks] Hch.
rewrite Hch in Hact. cbn [length] in Hact.
assert (add64 (requestsActive w) (-1) = requestsActive w - 1) as Hadd.
{ apply add64_id. unfold in_int64, min_int64, max_int64 in *. lia. }
constructor; winv; try done.
- rewrite Hadd, Hact. lia.
- lia.
Qed.

Lemma keeps_handle w ts (count : Z) (ch : list Z) :
  WInv w ts -> requestDoneCh w = count :: ch ->
  exists w' out,
    (modify (set_requestDoneCh ch) ;;; handleRequestDone count) w = Ok tt w' out /\
    WInv w' (ts ++ spawned out) /\
    shutdownFlag w' = shutdownFlag w /\ config w' = config w.
Proof.
intros Hinv Hch. pose proof (WInv_completed w ts count ch Hinv Hch) as Hinv1.
rewrite bind_modify, handleRequestDone_eq.
destruct (0 <? totalWaiting (set_requestDoneCh ch w)).
- destruct (keeps_tryToSendChunk _ _ Hinv1) as (w' & out & E & Hinv' & Hf & Hc).
  exists w', out. by winv.
- destruct (keeps_ret _ _ Hinv1) as (w' & out & E & Hinv' & Hf & Hc).
  exists w', out. by winv.
Qed.

Lemma keeps_pollRequestDone : @keeps Instance pollRequestDone.
Proof.
intros w ts Hinv. unfold pollRequestDone. rewrite bind_get.
destruct (requestDoneCh w) as [| count ch] eqn:Hch.
- by apply keeps_ret.
- by apply keeps_handle.
Qed.

(** Receiving from [requestDoneCh] when a completion is there. *)
Lemma keeps_recvRequestDone w ts :
  WInv w ts -> requestDoneCh w <> [] ->
  exists w' out,
    recvRequestDone w = Ok tt w' out /\ WInv w' (ts ++ spawned out) /\
    shutdownFlag w' = shutdownFlag w /\ config w' = config w.
Proof.
intros Hinv Hne. unfold recvRequestDone. rewrite bind_get.
destruct (requestDoneCh w) as [| count ch] eqn:Hch; [done |].
by apply keeps_handle.
Qed.

Lemma bind_theBuff {B} (k : InstanceRingBuffer Instance -> M Instance B) w b :
  buff w = Some b -> (x <- theBuff ;; k x) w = k b w.
Proof.
intros Hb. rewrite (bind_Ok _ _ _ _ _ _ (theBuff_Some w b Hb)).
by destruct (k b w).
Qed.

Lemma keeps_at_bind (m k : M Instance unit) w ts :
  keeps_at m w ts -> keeps k -> keeps_at (m ;;; k) w ts.
Proof.
intros (w1 & out1 & E1 & Hinv1 & Hf1 & Hc1) Hk.
destruct (Hk w1 _ Hinv1) as (w2 & out2 & E2 & Hinv2 & Hf2 & Hc2).
exists w2, (out1 ++ out2). rewrite (bind_Ok _ _ _ _ _ _ E1), E2.
rewrite spawned_app, app_assoc.
split; [done |]. split; [done |]. split; congruence.
Qed.

Lemma keeps_emit_overwrite : @keeps Instance (emit CallOverwrite).
Proof.
intros w ts Hinv. exists w, [CallOverwrite].
change (spawned [CallOverwrite]) with (@nil task). by rewrite app_nil_r.
Qed.

(** The end of an iteration of [processInput]: a batch is sent as soon as
    [MaxBatchSize] instances are buffered. *)
Lemma keeps_sendIfFull :
  @keeps Instance
    (b2 <- theBuff ;;
     w2 <- get ;;
     if MaxBatchSize w2 <=? Z.of_nat (UnprocessedCount b2)
     then tryToSendChunk else ret tt).
Proof.
intros w ts Hinv. destruct (inv_buff _ _ Hinv) as (b & Hb & _).
rewrite (bind_theBuff _ w b Hb), bind_get.
destruct (MaxBatchSize w <=? Z.of_nat (UnprocessedCount b)).
- by apply keeps_tryToSendChunk.
- by apply keeps_ret.
Qed.

Lemma keeps_processItem (inst : option Instance) : keeps (processItem inst).
Proof.
intros w ts Hinv. unfold processItem. rewrite bind_get.
destruct (match PreprocessFunc w with
          | Some f => negb (f inst)
          | None => false
          end).
{ apply keeps_modify; [| done]. intros w0. by winv. }
pose proof Hinv as [Hmb Hmr Hmbs Hbuff Hact Hbound Hpool Hcache Htasks].
destruct Hbuff as (b & Hb & Hwf & HS & Htw).
rewrite (bind_theBuff _ w b Hb).
pose proof (wf_Add b inst Hwf) as Hwf1.
pose proof (Size_Add b inst) as HS1.
pose proof (unprocessed_Add b inst) as Hu1.
destruct (Add b inst) as [b1 overwrote]. cbn [fst snd] in *.
change (keeps_at
          (setBuff b1 ;;;
           (if overwrote
            then modify (fun w => set_TotalOverwritten
                                    (add64 (TotalOverwritten w) 1) w) ;;;
                 (if OverwriteFunc w then emit CallOverwrite else ret tt)
            else ret tt) ;;;
           pollRequestDone ;;;
           (b2 <- theBuff ;;
            w2 <- get ;;
            if MaxBatchSize w2 <=? Z.of_nat (UnprocessedCount b2)
            then tryToSendChunk else ret tt)) w ts).
apply keeps_at_bind.
{ exists (set_buff (Some b1) w), []. rewrite app_nil_r.
  split; [done |]. split; [| by winv].
  constructor; winv; try done.
  exists b1. split; [done |]. split; [done |]. split; [congruence |].
  destruct overwrote; lia. }
apply keeps_bind.
{ destruct overwrote; [| apply keeps_ret].
  apply keeps_bind.
  - apply keeps_modify. intros w0. by winv.
  - destruct (OverwriteFunc w); [apply keeps_emit_overwrite | apply keeps_ret]. }
apply keeps_bind; [apply keeps_pollRequestDone | apply keeps_sendIfFull].
Qed.

(** *** [run] before its loop *)

Lemma applyDefaults_config w :
  config (applyDefaults w) =
    (if MaxBuffered w =? 0 then DefaultInstanceMaxBuffered else MaxBuffered w,
     if MaxRequests w =? 0 then DefaultInstanceMaxRequests else MaxRequests w,
     if MaxBatchSize w =? 0 then DefaultInstanceMaxBatchSize else MaxBatchSize w).
Proof.
unfold applyDefaults, config. cbv zeta.
destruct (MaxBuffered w =? 0); winv;
  destruct (MaxRequests w =? 0); winv;
  destruct (MaxBatchSize w =? 0); winv; reflexivity.
Qed.

Lemma applyDefaults_rest w :
  shutdownFlag (applyDefaults w) = shutdownFlag w /\
  requestsActive (applyDefaults w) = requestsActive w /\
  totalWaiting (applyDefaults w) = totalWaiting w /\
  PreprocessFunc (applyDefaults w) = PreprocessFunc w /\
  OverwriteFunc (applyDefaults w) = OverwriteFunc w.
Proof.
unfold applyDefaults. cbv zeta.
destruct (MaxBuffered w =? 0); winv;
  destruct (MaxRequests w =? 0); winv;
  destruct (MaxBatchSize w =? 0); winv; done.
Qed.

Lemma pool_ok_new (maxBatchSize : Z) :
  0 < maxBatchSize ->
  pool_ok maxBatchSize
    (mkSlice (replicate (Z.to_nat maxBatchSize) (@None Instance)) 0).
Proof.
intros Hpos. unfold pool_ok, cap; cbn [arr slen]. rewrite length_replicate.
split; [lia |]. split; [lia |]. intros i Hi. apply lookup_replicate_2. lia.
Qed.

(** [run] reaches its loop with the invariant, or panics on a negative
    setting. *)
Lemma runInit_spec w0 :
  fresh w0 ->
  let w := set_shutdownFlag (Some ChanOpen) w0 in
  (bad_config w0 /\ exists msg, runInit w = Panic msg) \/
  (~ bad_config w0 /\
   exists w', runInit w = Ok tt w' [] /\ WInv w' [] /\
              shutdownFlag w' = Some ChanOpen /\
              config w' = config (applyDefaults w0)).
Proof.
intros (pre & ovw & mb & mr & mbs & -> & Hmb & Hmr & Hmbs) w.
rewrite applyDefaults_config.
unfold runInit. rewrite bind_modify, bind_get.
pose proof (applyDefaults_config w) as Hc.
pose proof (applyDefaults_rest w) as (Hfl & Hra & Htw & _).
unfold config in Hc. injection Hc as E1 E2 E3.
subst w. winv.
set (w1 := applyDefaults _) in *.
unfold bad_config, DefaultInstanceMaxBuffered, DefaultInstanceMaxRequests,
  DefaultInstanceMaxBatchSize in *. winv.
destruct (NewInstanceRingBuffer (MaxBuffered w1)) as [b |] eqn:Hnew.
2:{ left. unfold NewInstanceRingBuffer in Hnew. rewrite E1 in Hnew.
    destruct (Z.eqb_spec mb 0); [done |].
    destruct (Z.leb_spec mb 0); [| done].
    split; [lia | by eexists]. }
apply wf_New in Hnew as (Hwf & HS & Hpos & Hempty).
unfold setBuff. rewrite bind_modify.
rewrite E1 in HS, Hpos. rewrite E2, E3.
destruct (Z.eqb_spec mb 0) as [-> | Hmb0];
  destruct (Z.eqb_spec mr 0) as [-> | Hmr0];
  destruct (Z.eqb_spec mbs 0) as [-> | Hmbs0]; cbn [Z.ltb Z.compare andb].
all: try (destruct (Z.ltb_spec mr 0); [left; split; [lia | by eexists] |]).
all: try (destruct (Z.ltb_spec 0 mr); [| lia]; cbn [andb]).
all: try (destruct (Z.ltb_spec mbs 0); [left; split; [lia | by eexists] |]).
all: right; (split; [lia |]); rewrite !bind_modify; unfold modify;
  eexists; (split; [reflexivity |]);
  (split; [| split; [by winv | unfold config; winv; rewrite E1, E2, E3;
                                 rewrite ?Z.eqb_refl;
                                 repeat (case_match; try lia); reflexivity]]);
  constructor; winv; rewrite ?E1, ?E2, ?E3, ?Hra, ?Htw;
  unfold in_int64, min_int64, max_int64 in *; try lia.
all: try (exists b; split; [done |]; split; [done |];
          rewrite <- length_contents, Hempty; cbn [length]; split; lia).
all: try (rewrite length_replicate; change (holding []) with 0%nat; lia).
all: try (apply Forall_replicate, pool_ok_new; lia).
all: try by apply Forall_nil.
all: reflexivity.
Qed.

(** *** The invariant along every run *)

Lemma GInv_running st :
  running (pc st) = true ->
  GInv st <-> WInv (wr st) (tasks st) /\ shutdownFlag (wr st) = Some ChanOpen.
Proof. unfold GInv. by destruct (pc st). Qed.

Lemma running_afterBatch (rest : list (option Instance)) back :
  running (afterBatch rest back) = true.
Proof. by destruct rest. Qed.

Lemma GInv_has_tasks st : GInv st -> tasks st <> [] -> running (pc st) = true.
Proof.
unfold GInv. destruct (pc st); try done.
- by intros [_ ->].
- by intros [_ ->].
- by intros (_ & _ & ->).
- by intros (_ & _ & ->).
- by intros [_ ->].
Qed.

Lemma commit_Ok st next (m : M Instance unit) w' out :
  m (wr st) = Ok tt w' out ->
  commit st next m =
    mkWorld w' (tasks st ++ spawned out) next (ctxDone st)
      (overwriteCalls st + callbacks out).
Proof. intros E. unfold commit. by rewrite E. Qed.

Lemma commit_keeps st next (m : M Instance unit) :
  running (pc st) = true -> running next = true -> GInv st ->
  keeps_at m (wr st) (tasks st) ->
  GInv (commit st next m) /\ pc (commit st next m) = next /\
  config (wr (commit st next m)) = config (wr st).
Proof.
intros Hrun Hnext Hinv (w' & out & E & Hinv' & Hf & Hc).
apply GInv_running in Hinv as [_ Hflag]; [| done].
rewrite (commit_Ok _ _ _ _ _ E). split; [| done].
apply GInv_running; [done |]. cbn [wr tasks]. split; [done | congruence].
Qed.

Lemma WInv_sendReturns w ts (i : nat) (count : Z) (c : slice) (w' : InstanceWriter) :
  WInv w ts -> ts !! i = Some (mkTask count (Sending c)) ->
  w' = set_TotalFailedToSend (add64 (TotalFailedToSend w) count) w \/
  w' = set_TotalSent (add64 (TotalSent w) count) w ->
  WInv w' (alter (fun t => mkTask (tcount t) (Returning c)) i ts).
Proof.
intros [Hmb Hmr Hmbs Hbuff Hact Hbound Hpool Hcache Htasks] Hi Hw'.
pose proof (proj1 (Forall_lookup _ _) Htasks i _ Hi) as Hti.
assert (holding (alter (fun t => mkTask (tcount t) (Returning c)) i ts) = holding ts)
  as Hhold by (by eapply holding_alter).
destruct Hw' as [-> | ->]; constructor; winv; try done.
all: try by rewrite length_alter.
all: try by rewrite Hhold.
all: apply Forall_alter; [done |]; intros t Ht; rewrite Hi in Ht;
  by injection Ht as <-.
Qed.

Lemma WInv_sliceBack w ts (i : nat) (count : Z) (c : slice) :
  WInv w ts -> ts !! i = Some (mkTask count (Returning c)) ->
  WInv (set_chunkSliceCache (chunkSliceCache w ++ [c]) w)
       (alter (fun t => mkTask (tcount t) Signalling) i ts) /\
  Z.of_nat (length (chunkSliceCache w)) < MaxRequests w.
Proof.
intros [Hmb Hmr Hmbs Hbuff Hact Hbound Hpool Hcache Htasks] Hi.
pose proof (proj1 (Forall_lookup _ _) Htasks i _ Hi) as Hti.
pose proof (holding_alter_release ts i _
              (fun t => mkTask (tcount t) Signalling) Hi eq_refl eq_refl) as Hhold.
split; [| lia].
constructor; winv; try done.
- by rewrite length_alter.
- rewrite length_app. cbn [length]. lia.
- apply Forall_app. split; [done |]. apply Forall_singleton. apply Hti.
- apply Forall_alter; [done |]. intros t Ht. done.
Qed.

Lemma WInv_signal w ts (i : nat) (count : Z) :
  WInv w ts -> ts !! i = Some (mkTask count Signalling) ->
  WInv (set_requestDoneCh (requestDoneCh w ++ [count]) w) (delete i ts) /\
  Z.of_nat (length (requestDoneCh w)) < MaxRequests w.
Proof.
intros [Hmb Hmr Hmbs Hbuff Hact Hbound Hpool Hcache Htasks] Hi.
pose proof (holding_delete ts i _ Hi eq_refl) as Hhold.
pose proof (lookup_lt_Some _ _ _ Hi) as Hlt.
assert (length (delete i ts) = (length ts - 1)%nat) as Hlen
  by (apply length_delete; eauto).
split; [| lia].
constructor; winv; try done.
- rewrite Hlen, length_app. cbn [length]. lia.
- by rewrite Hhold.
- by apply Forall_delete.
Qed.

Lemma GInv_boot w0 : fresh w0 -> GInv (boot w0).
Proof. done. Qed.

Lemma WInv_no_tasks w ts : WInv w ts -> requestsActive w <= 0 -> ts = [].
Proof.
intros Hinv Hle. rewrite (inv_active _ _ Hinv) in Hle.
destruct ts; [done |]. cbn [length] in Hle. lia.
Qed.

Lemma WInv_flag w ts (f : option chanState) :
  WInv w ts -> WInv (set_shutdownFlag f w) ts.
Proof. intros []. by constructor. Qed.

Lemma running_started (m : mode) : running m = true -> started m = true.
Proof. by destruct m. Qed.

Lemma commit_step st next (m : M Instance unit) :
  running (pc st) = true -> running next = true -> GInv st ->
  keeps_at m (wr st) (tasks st) ->
  step_ok st (commit st next m).
Proof.
intros Hrun Hnext Hinv Hm.
destruct (commit_keeps st next m Hrun Hnext Hinv Hm) as (H1 & H2 & H3).
split; [done |]. intros _. rewrite H2. split; [by apply running_started | done].
Qed.

(** A step of a send goroutine: the coordinating goroutine stays where it
    is. *)
Lemma task_step st w' ts' :
  tasks st <> [] -> GInv st ->
  WInv w' ts' -> shutdownFlag w' = shutdownFlag (wr st) ->
  config w' = config (wr st) ->
  step_ok st (set_tasks ts' (set_wr w' st)).
Proof.
intros Hne Hinv Hw Hf Hc.
assert (running (pc st) = true) as Hrun by by apply GInv_has_tasks.
apply GInv_running in Hinv as [_ Hf0]; [| done].
split.
- apply GInv_running; [done |]. cbn [wr tasks set_tasks set_wr].
  split; [done | congruence].
- done.
Qed.

Lemma GInv_step_ok st ev st' : GInv st -> step st ev = Some st' -> step_ok st st'.
Proof.
intros Hinv Hstep. unfold step in Hstep.
destruct (halted (pc st)) eqn:Hhalt; [done |].
destruct ev.
- (* Start *)
  destruct (pc st) eqn:Hpc; try done. injection Hstep as <-.
  split; [| by rewrite Hpc].
  unfold GInv in *. rewrite Hpc in Hinv. cbn [pc set_pc wr set_wr tasks].
  destruct Hinv as [Hfresh Hts]. split; [| done]. by exists (wr st).
- (* run, up to its loop *)
  destruct (pc st) eqn:Hpc; try done. injection Hstep as <-.
  split; [| by rewrite Hpc].
  unfold GInv in Hinv. rewrite Hpc in Hinv.
  destruct Hinv as [(w0 & Hfresh & Hw) Hts].
  destruct (runInit_spec w0 Hfresh) as [(Hbad & msg & E) | (Hok & w' & E & Hinv' & Hf & _)];
    cbv zeta in E; rewrite <- Hw in E; unfold commit; rewrite E.
  + unfold GInv. cbn [pc set_pc wr tasks]. split; [| done]. by exists w0.
  + unfold GInv. cbn [pc wr tasks]. rewrite Hts. done.
- (* cancellation of the context *)
  assert (st' = set_ctxDone true st) as -> by (destruct (pc st); congruence).
  split; [exact Hinv | done].
- (* a select takes ctx.Done() *)
  destruct (pc st) as [| | [] | | | | |] eqn:Hpc; try done;
    destruct (ctxDone st); try done; injection Hstep as <-;
    (split; [| done]);
    unfold GInv in *; rewrite Hpc in Hinv; exact Hinv.
- (* a select takes a batch from the input channel *)
  destruct (pc st) as [| | [] | | | | |] eqn:Hpc; try done; injection Hstep as <-.
  all: apply commit_step;
    [by rewrite Hpc | apply running_afterBatch | done |].
  all: apply keeps_countReceived; apply GInv_running in Hinv as [? _];
    [done | by rewrite Hpc].
- (* processInput handles one instance *)
  destruct (pc st) as [| | | [| inst rest] back | | | |] eqn:Hpc; try done.
  injection Hstep as <-.
  apply commit_step; [by rewrite Hpc | apply running_afterBatch | done |].
  apply keeps_processItem. apply GInv_running in Hinv as [? _];
    [done | by rewrite Hpc].
- (* a completion is received *)
  destruct (pc st) as [| | [] | | | | |] eqn:Hpc; try done.
  all: try (destruct (0 <? requestsActive (wr st)); [| done]).
  all: destruct (requestDoneCh (wr st)) eqn:Hch; try done; injection Hstep as <-.
  all: apply commit_step; [by rewrite Hpc | done | done |].
  all: apply keeps_recvRequestDone; [| by rewrite Hch].
  all: apply GInv_running in Hinv as [? _]; [done | by rewrite Hpc].
- (* a default case *)
  destruct (pc st) as [| | [] | | | | |] eqn:Hpc; try done.
  1: destruct (requestDoneCh (wr st)); [| done]; destruct (ctxDone st); [done |].
  all: injection Hstep as <-.
  all: apply commit_step; [by rewrite Hpc | done | done |].
  all: apply keeps_tryToSendChunk.
  all: apply GInv_running in Hinv as [? _]; [done | by rewrite Hpc].
- (* run returns *)
  destruct (pc st) as [| | [] | | | | |] eqn:Hpc; try done.
  destruct (Z.ltb_spec 0 (requestsActive (wr st))); [done |].
  injection Hstep as <-. split; [| done].
  unfold GInv in *. rewrite Hpc in Hinv. cbn [pc set_pc wr tasks].
  destruct Hinv as [Hw Hf]. split; [done |]. split; [done |].
  by eapply WInv_no_tasks.
- (* shutdownFlag is closed *)
  destruct (pc st) eqn:Hpc; try done.
  unfold GInv in Hinv. rewrite Hpc in Hinv. destruct Hinv as (Hw & Hf & Hts).
  rewrite Hf in Hstep. injection Hstep as <-. split; [| done].
  unfold GInv. cbn [pc set_pc wr set_wr tasks].
  split; [by apply WInv_flag |]. done.
- (* a SendFunc returns *)
  assert (match tasks st !! i with
          | Some (mkTask count (Sending c)) =>
              Some (set_phase i (Returning c)
                      (set_wr (if failed
                               then set_TotalFailedToSend
                                      (add64 (TotalFailedToSend (wr st)) count) (wr st)
                               else set_TotalSent
                                      (add64 (TotalSent (wr st)) count) (wr st)) st))
          | _ => None
          end = Some st') as Hstep' by (destruct (pc st); done).
  clear Hstep. destruct (tasks st !! i) as [[count [c | c |]] |] eqn:Hi; try done.
  injection Hstep' as <-.
  assert (tasks st <> []) as Hne by (by intros E; rewrite E in Hi).
  pose proof (GInv_has_tasks st Hinv Hne) as Hrun.
  pose proof (proj1 (GInv_running st Hrun) Hinv) as [Hw Hf].
  apply task_step; [done | done | | by destruct failed | by destruct failed].
  eapply WInv_sendReturns; [done | done |]. destruct failed; eauto.
- (* a slice goes back to the cache *)
  assert (match tasks st !! i with
          | Some (mkTask count (Returning c)) =>
              if Z.of_nat (length (chunkSliceCache (wr st))) <? MaxRequests (wr st)
              then Some (set_phase i Signalling
                           (set_wr (set_chunkSliceCache
                                      (chunkSliceCache (wr st) ++ [c]) (wr st)) st))
              else None
          | _ => None
          end = Some st') as Hstep' by (destruct (pc st); done).
  clear Hstep. destruct (tasks st !! i) as [[count [c | c |]] |] eqn:Hi; try done.
  destruct (_ <? _); [| done]. injection Hstep' as <-.
  assert (tasks st <> []) as Hne by (by intros E; rewrite E in Hi).
  pose proof (GInv_has_tasks st Hinv Hne) as Hrun.
  pose proof (proj1 (GInv_running st Hrun) Hinv) as [Hw Hf].
  apply task_step; [done | done | | done | done].
  by eapply WInv_sliceBack.
- (* a completion is signalled *)
  assert (match tasks st !! i with
          | Some (mkTask count Signalling) =>
              if Z.of_nat (length (requestDoneCh (wr st))) <? MaxRequests (wr st)
              then Some (set_tasks (delete i (tasks st))
                           (set_wr (set_requestDoneCh
                                      (requestDoneCh (wr st) ++ [count]) (wr st)) st))
              else None
          | _ => None
          end = Some st') as Hstep' by (destruct (pc st); done).
  clear Hstep. destruct (tasks st !! i) as [[count [c | c |]] |] eqn:Hi; try done.
  destruct (_ <? _); [| done]. injection Hstep' as <-.
  assert (tasks st <> []) as Hne by (by intros E; rewrite E in Hi).
  pose proof (GInv_has_tasks st Hinv Hne) as Hrun.
  pose proof (proj1 (GInv_running st Hrun) Hinv) as [Hw Hf].
  apply task_step; [done | done | | done | done].
  by eapply WInv_signal.
Qed.

Lemma GInv_step st ev st' : GInv st -> step st ev = Some st' -> GInv st'.
Proof. intros Hinv Hstep. by apply (GInv_step_ok st ev st'). Qed.

Lemma GInv_steps evs st st' : GInv st -> steps st evs = Some st' -> GInv st'.
Proof.
revert st. induction evs as [| ev evs IH]; intros st Hinv Hsteps; cbn [steps] in Hsteps.
- by injection Hsteps as <-.
- destruct (step st ev) as [st1 |] eqn:Hstep; [| done].
  eapply IH; [| done]. by eapply GInv_step.
Qed.

Lemma reachable_GInv st : reachable st -> GInv st.
Proof.
intros (w0 & evs & Hfresh & Hsteps).
eapply GInv_steps; [| done]. by apply GInv_boot.
Qed.

(** *** What holds in every reachable state *)

Lemma reachable_WInv st :
  reachable st -> started (pc st) = true -> WInv (wr st) (tasks st).
Proof.
intros Hreach%reachable_GInv Hst. unfold GInv in Hreach.
by destruct (pc st); try done; destruct Hreach.
Qed.

Lemma reachable_step st ev st' : reachable st -> step st ev = Some st' -> reachable st'.
Proof.
intros (w0 & evs & Hfresh & Hsteps) Hstep. exists w0, (evs ++ [ev]).
split; [done |]. revert Hsteps. generalize (boot w0).
induction evs as [| e evs IH]; intros st0 Hsteps; cbn [steps app] in *.
- injection Hsteps as ->. by rewrite Hstep.
- destruct (step st0 e); [by apply IH | done].
Qed.

(** The coordinating goroutine never blocks on the slice cache, and never
    panics once its loop is reached. *)
Lemma reachable_not_stuck st : reachable st -> pc st <> Stuck.
Proof.
intros Hreach%reachable_GInv Hpc. unfold GInv in Hreach. by rewrite Hpc in Hreach.
Qed.

Lemma set_totalWaiting_same w : set_totalWaiting (totalWaiting w) w = w.
Proof. by destruct w. Qed.

Lemma set_buff_same w : set_buff (buff w) w = w.
Proof. by destruct w. Qed.

(** [tryToSendChunk] on a writer that satisfies the invariant. *)
Lemma tryToSendChunk_spec w ts b :
  WInv w ts -> buff w = Some b ->
  tryToSendChunk w =
    if decide (MaxRequests w <= requestsActive w)
    then Ok tt (set_totalWaiting (Z.of_nat (unprocessed b)) w) []
    else if decide (batch_len b (MaxBatchSize w) = 0%nat)
    then Ok tt w []
    else match chunkSliceCache w with
         | s :: cache =>
             Ok tt (launched w b cache)
               [Spawn (Z.of_nat (batch_len b (MaxBatchSize w))) (chunkOf w b s)]
         | [] => Blocks
         end.
Proof.
intros Hinv Hb.
pose proof Hinv as [Hmb Hmr Hmbs Hbuff Hact Hbound Hpool Hcache Htasks].
destruct Hbuff as (b' & Hb' & Hwf & HS & Htw).
assert (b' = b) as -> by congruence.
case_decide as Hfull; [by apply tryToSendChunk_deferred |].
case_decide as Hnone.
{ rewrite (tryToSendChunk_nothing w b) by (done || lia).
  rewrite NextBatch_empty by done. by rewrite <- Hb, set_buff_same. }
destruct (cache_nonempty w ts Hinv) as (s & cache & Hc); [lia |].
rewrite Hc. rewrite Hc in Hcache. apply Forall_cons in Hcache as [Hs _].
apply tryToSendChunk_launch; try done; [lia |].
destruct Hs as (Hs & _). pose proof (batch_len_le_max b (MaxBatchSize w)). lia.
Qed.

Lemma launched_fields w b (cache : list slice) :
  wf b ->
  requestsActive (launched w b cache) = add64 (requestsActive w) 1 /\
  TotalInFlight (launched w b cache) =
    add64 (TotalInFlight w) (Z.of_nat (batch_len b (MaxBatchSize w))) /\
  chunkSliceCache (launched w b cache) = cache /\
  contents_of (launched w b cache) =
    Some (contents (NextBatch b (MaxBatchSize w)).1).
Proof.
intros Hwf. unfold launched, contents_of.
pose proof (contents_view_clear b (MaxBatchSize w) Hwf) as Hc.
destruct (NextBatch b (MaxBatchSize w)) as [b1 chunk] eqn:E. winv.
cbn [fst snd fmap option_fmap option_map] in *. by rewrite Hc.
Qed.

(** A send goroutine is started only below the limit. *)
Lemma tryToSendChunk_guard w w' (out : list (effect Instance)) :
  tryToSendChunk w = Ok tt w' out -> spawned out <> [] ->
  requestsActive w < MaxRequests w.
Proof.
intros E Hout. destruct (buff w) as [b |] eqn:Hb.
- destruct (Z.le_gt_cases (MaxRequests w) (requestsActive w)) as [Hle | Hgt]; [| done].
  rewrite (tryToSendChunk_deferred w b Hb Hle) in E. by injection E as <- <-.
- unfold tryToSendChunk in E.
  by rewrite (bind_Panic _ _ _ _ (theBuff_None w Hb)) in E.
Qed.


Lemma step_sendReturns st (i : nat) (count : Z) c (failed : bool) :
  halted (pc st) = false ->
  tasks st !! i = Some (mkTask count (Sending c)) ->
  step st (EvSendReturns i failed) =
    Some (set_phase i (Returning c)
            (set_wr (if failed
                     then set_TotalFailedToSend
                            (add64 (TotalFailedToSend (wr st)) count) (wr st)
                     else set_TotalSent
                            (add64 (TotalSent (wr st)) count) (wr st)) st)).
Proof. intros Hh Hi. unfold step. rewrite Hh, Hi. by destruct (pc st). Qed.

(** *** [processInput] and its steps

    Taken one instance at a time with no send goroutine moving in between,
    the steps of [processInput] do what the function does. *)

Lemma bind_Ok_inv {A B} (m : M Instance A) (k : A -> M Instance B) w (r : B) w'
    (out : list (effect Instance)) :
  (x <- m ;; k x) w = Ok r w' out ->
  exists a w1 out1 out2,
    m w = Ok a w1 out1 /\ k a w1 = Ok r w' out2 /\ out = out1 ++ out2.
Proof.
unfold bind. destruct (m w) as [a w1 out1 | |]; [| done | done].
destruct (k a w1) as [r' w2 out2 | |] eqn:E; [| done | done].
intros [= -> -> <-]. by exists a, w1, out1, out2.
Qed.

Lemma callbacks_app (out1 out2 : list (effect Instance)) :
  callbacks (out1 ++ out2) = (callbacks out1 + callbacks out2)%nat.
Proof. unfold callbacks. by rewrite List.filter_app, length_app. Qed.



(** *** Send goroutines never block on their channels *)

Lemma send_goroutine_moves st (i : nat) (t : task) :
  reachable st -> tasks st !! i = Some t ->
  match tphase t with
  | Sending _ => forall failed, is_Some (step st (EvSendReturns i failed))
  | Returning _ => is_Some (step st (EvSliceBack i))
  | Signalling => is_Some (step st (EvSignal i))
  end.
Proof.
intros HG%reachable_GInv Hi.
assert (tasks st <> []) as Hne by (by intros E; rewrite E in Hi).
pose proof (GInv_has_tasks st HG Hne) as Hrun.
pose proof (proj1 (GInv_running st Hrun) HG) as [Hinv _].
assert (halted (pc st) = false) as Hh by (by destruct (pc st)).
destruct t as [count [c | c |]]; cbn [tphase].
- intros failed. rewrite (step_sendReturns st i count c failed Hh Hi). eauto.
- destruct (WInv_sliceBack _ _ i count c Hinv Hi) as [_ Hlt].
  unfold step. rewrite Hh, Hi.
  destruct (Z.ltb_spec (Z.of_nat (length (chunkSliceCache (wr st))))
              (MaxRequests (wr st))); [| lia].
  destruct (pc st); eauto.
- destruct (WInv_signal _ _ i count Hinv Hi) as [_ Hlt].
  unfold step. rewrite Hh, Hi.
  destruct (Z.ltb_spec (Z.of_nat (length (requestDoneCh (wr st))))
              (MaxRequests (wr st))); [| lia].
  destruct (pc st); eauto.
Qed.

(** ** The claims about the writer *)

Lemma executing_alter_done ts i t (f : task -> task) :
  ts !! i = Some t -> is_sending t = true -> is_sending (f t) = false ->
  S (executing (alter f i ts)) = executing ts.
Proof.
revert i. induction ts as [| t' ts IH]; intros [| i] Hi Ht Hf; try done.
- injection Hi as ->. unfold executing. cbn [alter list_alter List.filter].
  by rewrite Hf, Ht.
- unfold executing in *. cbn [alter list_alter List.filter].
  specialize (IH i Hi Ht Hf). destruct (is_sending t'); cbn [length]; by rewrite <- IH.
Qed.

Lemma add64_wrap (x d : Z) : add64 x (wrap64 d) = add64 x d.
Proof.
unfold add64, wrap64.
replace (x + ((d + 2 ^ 63) mod 2 ^ 64 - 2 ^ 63) + 2 ^ 63)
  with (x + (d + 2 ^ 63) mod 2 ^ 64) by lia.
rewrite Z.add_mod_idemp_r by lia. do 2 f_equal. lia.
Qed.

(** C1.  In every reachable state in which [run] has reached its loop, the
    sends whose [SendFunc] is executing are at most [requestsActive], and
    [requestsActive] is at most [MaxRequests]: [requestsActive] counts the
    send goroutines plus the completions not yet received, [tryToSendChunk]
    starts a goroutine only when [requestsActive < MaxRequests] (and then
    adds one), and a received completion takes one off. *)
Theorem requestsActive_bounded st :
  reachable st -> started (pc st) = true ->
  Z.of_nat (executing (tasks st)) <= requestsActive (wr st) /\
  requestsActive (wr st) <= MaxRequests (wr st) /\
  requestsActive (wr st) =
    Z.of_nat (length (tasks st) + length (requestDoneCh (wr st))) /\
  (forall w' out,
     tryToSendChunk (wr st) = Ok tt w' out -> spawned out <> [] ->
     requestsActive (wr st) < MaxRequests (wr st) /\
     requestsActive w' = requestsActive (wr st) + 1 /\
     length (spawned out) = 1%nat) /\
  (forall count ch,
     requestDoneCh (wr st) = count :: ch ->
     requestsActive (completed count (set_requestDoneCh ch (wr st))) =
       requestsActive (wr st) - 1).
Proof.
intros Hreach Hst. pose proof (reachable_WInv st Hreach Hst) as Hinv.
pose proof Hinv as [Hmb Hmr Hmbs Hbuff Hact Hbound Hpool Hcache Htasks].
pose proof (executing_le (tasks st)) as Hex.
split; [lia |]. split; [done |]. split; [done |]. split.
- intros w' out E Hout. pose proof (tryToSendChunk_guard _ _ _ E Hout) as Hlt.
  split; [done |].
  destruct Hbuff as (b & Hb & Hwf & _).
  rewrite (tryToSendChunk_spec _ _ b Hinv Hb) in E.
  rewrite decide_False in E by lia.
  case_decide; [by injection E as <- <- |].
  destruct (chunkSliceCache (wr st)) as [| s cache]; [done |].
  injection E as <- <-. split; [| done].
  destruct (launched_fields (wr st) b cache Hwf) as (-> & _).
  apply add64_id. unfold in_int64, min_int64, max_int64 in *. lia.
- intros count ch Hch. winv. rewrite Hch in Hact. cbn [length] in Hact.
  apply add64_id. unfold in_int64, min_int64, max_int64 in *. lia.
Qed.

(** Before [run] has made the buffer there is none. *)
Lemma reachable_buff_started st b :
  reachable st -> buff (wr st) = Some b -> started (pc st) = true.
Proof.
intros HG%reachable_GInv Hb. unfold GInv in HG.
destruct (pc st); try done.
- destruct HG as [(pre & ovw & mb & mr & mbs & E & _) _]. by rewrite E in Hb.
- destruct HG as [(w0 & (pre & ovw & mb & mr & mbs & E & _) & E') _].
  by rewrite E', E in Hb.
- destruct HG as [(w0 & (pre & ovw & mb & mr & mbs & E & _) & _ & E') _].
  by rewrite E', E in Hb.
Qed.

(** Outside the reachable states the call can change a counter: a stale
    [totalWaiting] is reset when every send slot is taken. *)
Remark tryToSendChunk_resets_stale_waiting :
  let w := set_totalWaiting 3
             (set_buff (Some (Ring.mkRing [@None Instance] 0 0))
                (NewWriter None false 1 0 1)) in
  tryToSendChunk w = Ok tt (set_totalWaiting 0 w) [].
Proof. reflexivity. Qed.

(** C8.  In a reachable state whose ring buffer holds no unprocessed entry,
    [tryToSendChunk] returns the writer as it found it and starts no send:
    no counter changes. *)
Theorem tryToSendChunk_empty_noop st b :
  reachable st -> buff (wr st) = Some b -> UnprocessedCount b = 0%nat ->
  tryToSendChunk (wr st) = Ok tt (wr st) [].
Proof.
intros Hreach Hb Hu.
pose proof (reachable_WInv st Hreach (reachable_buff_started st b Hreach Hb))
  as Hinv.
pose proof Hinv as [Hmb Hmr Hmbs Hbuff Hact Hbound Hpool Hcache Htasks].
destruct Hbuff as (b' & Hb' & Hwf & HS & Htw).
assert (b' = b) as -> by congruence. unfold UnprocessedCount in Hu.
rewrite (tryToSendChunk_spec _ _ b Hinv Hb), Hu.
case_decide.
- replace (Z.of_nat 0) with (totalWaiting (wr st)) by lia.
  by rewrite set_totalWaiting_same.
- rewrite decide_True; [done |]. unfold batch_len. rewrite Hu. lia.
Qed.

(** C10.  In a reachable state, [getChunkSlice] called with a size within
    the capacity of the slice at the head of the cache returns that backing
    array with length [size], and every element of it from [size] on is
    nil; the elements below [size] and the other pooled slices are
    untouched.  So is the slice of every send goroutine: nil from its
    length on. *)
Theorem getChunkSlice_clears_tail st s (cache : list slice) (size : nat) :
  reachable st -> chunkSliceCache (wr st) = s :: cache -> (size <= cap s)%nat ->
  (exists s',
     getChunkSlice size (wr st) = Ok s' (set_chunkSliceCache cache (wr st)) [] /\
     slen s' = size /\ cap s' = cap s /\
     (forall i, (size <= i < cap s)%nat -> arr s' !! i = Some None) /\
     (forall i, (i < size)%nat -> arr s' !! i = arr s !! i)) /\
  (forall t c, t ∈ tasks st ->
     tphase t = Sending c \/ tphase t = Returning c ->
     forall i, (slen c <= i < cap c)%nat -> arr c !! i = Some None).
Proof.
intros Hreach Hc Hsize.
assert (started (pc st) = true) as Hst.
{ pose proof (reachable_GInv st Hreach) as HG. unfold GInv in HG.
  destruct (pc st); try done.
  - destruct HG as [(pre & ovw & mb & mr & mbs & E & _) _]. by rewrite E in Hc.
  - destruct HG as [(w0 & (pre & ovw & mb & mr & mbs & E & _) & E') _].
    by rewrite E', E in Hc.
  - destruct HG as [(w0 & (pre & ovw & mb & mr & mbs & E & _) & _ & E') _].
    by rewrite E', E in Hc. }
pose proof (reachable_WInv st Hreach Hst) as
  [Hmb Hmr Hmbs Hbuff Hact Hbound Hpool Hcache Htasks].
split.
- rewrite Hc in Hcache. apply Forall_cons in Hcache as [(Hcap & Hlen & Hnil) _].
  exists (mkSlice (arr (nilAbove size s)) size).
  split; [| split; [done | split; [apply cap_nilAbove | split]]].
  + unfold getChunkSlice. rewrite bind_get, Hc, bind_modify.
    unfold reslice. rewrite cap_nilAbove.
    by destruct (Nat.leb_spec size (cap s)); [| lia].
  + intros i Hi. cbn [arr]. rewrite lookup_nilAbove by done.
    case_decide; [done |]. apply Hnil. lia.
  + intros i Hi. cbn [arr]. rewrite lookup_nilAbove by done.
    by rewrite decide_False by lia.
- intros t c Ht Hph i Hi.
  pose proof (proj1 (Forall_forall _ _) Htasks t Ht) as Hok.
  unfold task_ok in Hok.
  destruct Hph as [E | E]; rewrite E in Hok;
    destruct Hok as [(_ & _ & Hnil) _]; by apply Hnil.
Qed.

Lemma pc_commit st next (m : M Instance unit) :
  pc (commit st next m) = next \/ halted (pc (commit st next m)) = true.
Proof. unfold commit. destruct (m (wr st)); cbn [pc set_pc halted]; auto. Qed.

(** The goroutine of [run] ends after [run] has returned, and only then. *)
Lemma step_Exited st ev st' :
  step st ev = Some st' -> pc st' = Exited ->
  pc st = Returned \/ pc st = Exited.
Proof.
intros Hstep Hpc. unfold step in Hstep.
destruct (halted (pc st)) eqn:Hhalt; [done |].
assert (forall next (m : M Instance unit),
          next <> Exited -> st' = commit st next m -> False) as Hcommit.
{ intros next m Hnext ->. destruct (pc_commit st next m) as [E | E].
  - congruence.
  - by rewrite Hpc in E. }
destruct ev, (pc st) as [| | [] | [| inst rest] back | | | |] eqn:Hst;
  try done; try (by right); try (by left); exfalso.
all: repeat match type of Hstep with
       | context [match ?x with _ => _ end] => destruct x eqn:?; try done
       | context [if ?x then _ else _] => destruct x eqn:?; try done
       end.
all: injection Hstep as <-; try done.
all: try (by eapply Hcommit; [| reflexivity]; try destruct l; try destruct insts).
all: cbn [pc set_ctxDone set_pc set_wr set_tasks set_phase] in Hpc; try congruence.
eapply Hcommit; [| reflexivity]. by destruct rest.
Qed.

(** C5.  [WaitForShutdown] panics when [Start] has not been called.  Once
    [Start] has been called it blocks as long as the goroutine of [run]
    has not closed [shutdownFlag], which it does after [run] has returned,
    and returns from then on. *)
Theorem WaitForShutdown_spec st :
  reachable st ->
  WaitForShutdown (wr st) =
    match pc st with
    | NotStarted =>
        WaitPanics "should not wait for writer shutdown when not running"
    | Exited => WaitReturns
    | _ => WaitBlocks
    end /\
  (forall ev st',
     step st ev = Some st' -> pc st' = Exited ->
     pc st = Returned \/ pc st = Exited).
Proof.
intros HG%reachable_GInv. split; [| by apply step_Exited].
unfold GInv in HG. unfold WaitForShutdown.
destruct (pc st).
- destruct HG as [(pre & ovw & mb & mr & mbs & -> & _) _]. done.
- destruct HG as [(w0 & _ & ->) _]. done.
- destruct HG as [_ ->]. done.
- destruct HG as [_ ->]. done.
- destruct HG as (_ & -> & _). done.
- destruct HG as (_ & -> & _). done.
- destruct HG as [(w0 & _ & _ & ->) _]. done.
- done.
Qed.

(** C9.  [run] replaces a zero [MaxBuffered], [MaxRequests] or
    [MaxBatchSize] by 10000, 10 and 1000 and leaves a setting that is not
    zero as it is; its loop starts with that configuration, and no step
    taken afterwards changes it. *)
Theorem defaults_then_immutable :
  (forall w : InstanceWriter,
     config (applyDefaults w) =
       (if MaxBuffered w =? 0 then 10000 else MaxBuffered w,
        if MaxRequests w =? 0 then 10 else MaxRequests w,
        if MaxBatchSize w =? 0 then 1000 else MaxBatchSize w)) /\
  (forall st st',
     reachable st -> step st EvRun = Some st' -> started (pc st') = true ->
     config (wr st') = config (applyDefaults (wr st))) /\
  (forall st ev st',
     reachable st -> started (pc st) = true -> step st ev = Some st' ->
     started (pc st') = true /\ config (wr st') = config (wr st)).
Proof.
split; [exact applyDefaults_config |]. split.
- intros st st' HG%reachable_GInv Hstep Hst'. unfold step in Hstep.
  destruct (halted (pc st)); [done |].
  destruct (pc st) eqn:Hpc; try done. injection Hstep as <-.
  unfold GInv in HG. rewrite Hpc in HG. destruct HG as [(w0 & Hfresh & Hw) _].
  destruct (runInit_spec w0 Hfresh) as [(_ & msg & E) | (_ & w' & E & _ & _ & Hc)];
    cbv zeta in E; rewrite <- Hw in E; unfold commit in *; rewrite E in *.
  + done.
  + cbn [wr]. rewrite Hc, Hw, !applyDefaults_config. by winv.
- intros st ev st' HG%reachable_GInv Hst Hstep.
  by apply (GInv_step_ok st ev st' HG Hstep).
Qed.

Lemma step_input_enabled st st' (insts : list (option Instance)) :
  pc st' = pc st ->
  is_Some (step st (EvInput insts)) -> is_Some (step st' (EvInput insts)).
Proof.
intros Hpc. unfold step. rewrite Hpc.
destruct (halted (pc st)); [done |].
destruct (pc st) as [| | [] | | | | |]; try done; intros _; eauto.
Qed.

Lemma failing_sink_scenario (x1 x2 x3 x4 x5 x6 : option Instance) :
  exists st,
    steps (boot demoWriter) (failingRun x1 x2 x3 x4 x5 x6) = Some st /\
    TotalFailedToSend (wr st) = 5 /\ TotalSent (wr st) = 0 /\
    TotalReceived (wr st) = 6 /\
    pc st = Loop AtSelect /\ tasks st = [] /\
    contents_of (wr st) = Some [x6].
Proof. eexists. split; [vm_compute; reflexivity |]. by vm_compute. Qed.

(** C3.  When the [SendFunc] of a send goroutine carrying [n] records
    returns an error, [TotalFailedToSend] grows by [n] (as
    [atomic.AddInt64] adds) and nothing else changes but the place of that
    goroutine in its code: [TotalSent], the ring buffer, the channels and
    the other goroutines are as they were, no send is started, and the
    coordinating goroutine stays where it was, taking input as before.  In
    the run [failingRun], five records leave in one batch whose send fails:
    [TotalFailedToSend] is 5, [TotalSent] is 0, and a sixth record is
    accepted afterwards. *)
Theorem sink_failure_only_counts st (i : nat) (n : Z) c :
  reachable st -> tasks st !! i = Some (mkTask n (Sending c)) ->
  n = Z.of_nat (slen c) /\
  (exists st',
     step st (EvSendReturns i true) = Some st' /\
     TotalFailedToSend (wr st') = add64 (TotalFailedToSend (wr st)) n /\
     TotalSent (wr st') = TotalSent (wr st) /\
     st' = set_phase i (Returning c)
             (set_wr (set_TotalFailedToSend
                        (add64 (TotalFailedToSend (wr st)) n) (wr st)) st) /\
     buff (wr st') = buff (wr st) /\
     requestDoneCh (wr st') = requestDoneCh (wr st) /\
     length (tasks st') = length (tasks st) /\
     S (executing (tasks st')) = executing (tasks st) /\
     pc st' = pc st /\ running (pc st') = true /\
     (forall insts,
        is_Some (step st (EvInput insts)) -> is_Some (step st' (EvInput insts)))) /\
  (forall x1 x2 x3 x4 x5 x6 : option Instance,
     exists st,
       steps (boot demoWriter) (failingRun x1 x2 x3 x4 x5 x6) = Some st /\
       TotalFailedToSend (wr st) = 5 /\ TotalSent (wr st) = 0 /\
       TotalReceived (wr st) = 6 /\
       pc st = Loop AtSelect /\ tasks st = [] /\
       contents_of (wr st) = Some [x6]).
Proof.
intros Hreach Hi. pose proof (reachable_GInv st Hreach) as HG.
assert (tasks st <> []) as Hne by (by intros E; rewrite E in Hi).
pose proof (GInv_has_tasks st HG Hne) as Hrun.
pose proof (proj1 (GInv_running st Hrun) HG) as [Hinv _].
pose proof (proj1 (Forall_lookup _ _) (inv_tasks _ _ Hinv) i _ Hi) as [_ Hn].
split; [exact Hn |]. split; [| exact failing_sink_scenario].
eexists. split.
{ apply step_sendReturns; [by destruct (pc st) | done]. }
cbn [wr tasks pc set_phase set_tasks set_wr]. winv.
repeat split; try done.
- by rewrite length_alter.
- by eapply executing_alter_done.
- intros insts. by apply step_input_enabled.
Qed.

(** C4.  When a completion of [count] records is received,
    [handleRequestDone] takes one off [requestsActive] and [count] off
    [TotalInFlight]; if [totalWaiting] is positive it calls
    [tryToSendChunk] at once, which then hands the oldest buffered records,
    up to [MaxBatchSize] of them, to a new send goroutine.  The three
    places that receive a completion all go through it. *)
Theorem completion_dispatches_backlog st (count : Z) (ch : list Z) :
  reachable st -> started (pc st) = true ->
  requestDoneCh (wr st) = count :: ch ->
  let w := set_requestDoneCh ch (wr st) in
  let w1 := completed count w in
  recvRequestDone (wr st) = handleRequestDone count w /\
  pollRequestDone (wr st) = handleRequestDone count w /\
  requestsActive w1 = requestsActive (wr st) - 1 /\
  TotalInFlight w1 = add64 (TotalInFlight (wr st)) (- count) /\
  handleRequestDone count w =
    (if 0 <? totalWaiting (wr st) then tryToSendChunk else ret tt) w1 /\
  (0 < totalWaiting (wr st) ->
   exists b s cache,
     buff (wr st) = Some b /\ chunkSliceCache (wr st) = s :: cache /\
     let n := batch_len b (MaxBatchSize (wr st)) in
     (0 < n)%nat /\
     n = Z.to_nat (Z.min (MaxBatchSize (wr st)) (Z.of_nat (UnprocessedCount b))) /\
     handleRequestDone count w =
       Ok tt (launched w1 b cache) [Spawn (Z.of_nat n) (chunkOf w1 b s)] /\
     elems (chunkOf w1 b s) = take n (contents b) /\
     contents_of (launched w1 b cache) = Some (drop n (contents b))).
Proof.
intros Hreach Hst Hch w w1.
pose proof (reachable_WInv st Hreach Hst) as Hinv.
pose proof (WInv_completed _ _ count ch Hinv Hch) as Hinv1. fold w w1 in Hinv1.
pose proof Hinv as [Hmb Hmr Hmbs Hbuff Hact Hbound Hpool Hcache Htasks].
split; [| split; [| split; [| split; [| split]]]].
- unfold recvRequestDone. by rewrite bind_get, Hch, bind_modify.
- unfold pollRequestDone. by rewrite bind_get, Hch, bind_modify.
- subst w w1. winv. rewrite Hch in Hact. cbn [length] in Hact.
  apply add64_id. unfold in_int64, min_int64, max_int64 in *. lia.
- subst w w1. winv. apply add64_wrap.
- by rewrite handleRequestDone_eq.
- intros Hwait. destruct Hbuff as (b & Hb & Hwf & HS & Htw).
  destruct (cache_nonempty w1 (tasks st) Hinv1) as (s & cache & Hc).
  { subst w w1. winv. rewrite Hch in Hact. cbn [length] in Hact.
    rewrite add64_id; unfold in_int64, min_int64, max_int64 in *; lia. }
  exists b, s, cache. split; [done |]. split; [done |].
  assert (0 < batch_len b (MaxBatchSize (wr st)))%nat as Hn
    by (unfold batch_len; lia).
  cbv zeta. split; [done |]. split; [done |].
  rewrite handleRequestDone_eq. fold w1.
  change (totalWaiting w) with (totalWaiting (wr st)).
  destruct (Z.ltb_spec 0 (totalWaiting (wr st))); [| lia].
  rewrite (tryToSendChunk_spec w1 _ b Hinv1 Hb).
  change (MaxBatchSize w1) with (MaxBatchSize (wr st)).
  change (MaxRequests w1) with (MaxRequests (wr st)).
  rewrite decide_False.
  2:{ subst w w1. winv. rewrite Hch in Hact. cbn [length] in Hact.
      rewrite add64_id; unfold in_int64, min_int64, max_int64 in *; lia. }
  rewrite decide_False by lia. rewrite Hc.
  split; [done |].
  destruct (pool_ok_chunkOf w1 b s) as (_ & _ & He).
  { pose proof (inv_cache _ _ Hinv1) as Hcc. rewrite Hc in Hcc.
    by apply Forall_cons in Hcc as [Hs _]. }
  { done. }
  split; [exact He |].
  destruct (launched_fields w1 b cache Hwf) as (_ & _ & _ & ->).
  by rewrite contents_NextBatch.
Qed.

(** ** More about the writer *)

Lemma steps_snoc (evs : list event) ev st :
  steps st (evs ++ [ev]) =
    match steps st evs with
    | Some st1 => step st1 ev
    | None => None
    end.
Proof.
revert st. induction evs as [| e evs IH]; intros st; cbn [steps app].
- by destruct (step st ev).
- destruct (step st e); [apply IH | done].
Qed.

Lemma step_transition st ev st' :
  GInv st -> step st ev = Some st' -> transition st ev st'.
Proof.
intros Hinv Hstep. unfold step in Hstep.
destruct (halted (pc st)) eqn:Hhalt; [done |].
assert (forall next m,
          called st ev next m -> keeps_at m (wr st) (tasks st) ->
          running (pc st) = true ->
          st' = commit st next m -> transition st ev st') as Hcall.
{ intros next m Hc (w' & out & E & Hinv' & _) Hrun ->.
  rewrite (commit_Ok _ _ _ _ _ E).
  apply GInv_running in Hinv as [Hw _]; [| done]. by eapply T_call. }
destruct ev.
- destruct (pc st) eqn:Hpc; try done. injection Hstep as <-. by apply T_start.
- destruct (pc st) eqn:Hpc; try done. injection Hstep as <-.
  unfold GInv in Hinv. rewrite Hpc in Hinv.
  destruct Hinv as [(w0 & Hfresh & Hw) Hts].
  destruct (runInit_spec w0 Hfresh) as [(Hbad & msg & E) | (Hok & w' & E & Hinv' & Hf & _)];
    cbv zeta in E; rewrite <- Hw in E; unfold commit; rewrite E.
  + by apply T_run_panic.
  + rewrite Hts. cbn [spawned omap app callbacks List.filter length].
    by apply T_run.
- assert (st' = set_ctxDone true st) as -> by (destruct (pc st); congruence).
  by apply T_cancel.
- destruct (pc st) as [| | [] | | | | |] eqn:Hpc; try done;
    destruct (ctxDone st) eqn:Hctx; try done; injection Hstep as <-;
    apply T_ctx; auto.
- destruct (pc st) as [| | [] | | | | |] eqn:Hpc; try done; injection Hstep as <-.
  all: eapply Hcall; [| | done | reflexivity].
  all: try (apply C_input; rewrite Hpc; constructor).
  all: apply keeps_countReceived; apply GInv_running in Hinv as [? _];
    [done | by rewrite Hpc].
- destruct (pc st) as [| | | [| inst rest] back | | | |] eqn:Hpc; try done.
  injection Hstep as <-.
  eapply Hcall; [by apply C_item | | done | reflexivity].
  apply keeps_processItem. apply GInv_running in Hinv as [? _];
    [done | by rewrite Hpc].
- destruct (pc st) as [| | [] | | | | |] eqn:Hpc; try done.
  all: try (destruct (Z.ltb_spec 0 (requestsActive (wr st))); [| done]).
  all: destruct (requestDoneCh (wr st)) eqn:Hch; try done; injection Hstep as <-.
  all: eapply Hcall; [| | done | reflexivity].
  all: try (apply C_done; [auto | by rewrite Hch]).
  all: try (apply C_done_wait; [done | done | by rewrite Hch]).
  all: apply keeps_recvRequestDone; [| by rewrite Hch].
  all: apply GInv_running in Hinv as [? _]; [done | by rewrite Hpc].
- destruct (pc st) as [| | [] | | | | |] eqn:Hpc; try done.
  1: destruct (requestDoneCh (wr st)) eqn:Hch; [| done];
     destruct (ctxDone st) eqn:Hctx; [done |].
  all: injection Hstep as <-.
  all: eapply Hcall; [| | done | reflexivity].
  all: try (by apply C_default).
  all: try (by apply C_flush).
  all: apply keeps_tryToSendChunk.
  all: apply GInv_running in Hinv as [? _]; [done | by rewrite Hpc].
- destruct (pc st) as [| | [] | | | | |] eqn:Hpc; try done.
  destruct (Z.ltb_spec 0 (requestsActive (wr st))); [done |].
  injection Hstep as <-.
  unfold GInv in Hinv. rewrite Hpc in Hinv. destruct Hinv as [Hw Hf].
  pose proof (WInv_no_tasks _ _ Hw H) as Hts.
  apply T_return; try done.
  pose proof (inv_active _ _ Hw) as Hact. rewrite Hts in Hact.
  destruct (requestDoneCh (wr st)); [done |]. cbn [length] in Hact. lia.
- destruct (pc st) eqn:Hpc; try done.
  unfold GInv in Hinv. rewrite Hpc in Hinv. destruct Hinv as (Hw & Hf & Hts).
  rewrite Hf in Hstep. injection Hstep as <-. by apply T_close.
- assert (match tasks st !! i with
          | Some (mkTask count (Sending c)) =>
              Some (set_phase i (Returning c)
                      (set_wr (if failed
                               then set_TotalFailedToSend
                                      (add64 (TotalFailedToSend (wr st)) count) (wr st)
                               else set_TotalSent
                                      (add64 (TotalSent (wr st)) count) (wr st)) st))
          | _ => None
          end = Some st') as Hstep' by (destruct (pc st); done).
  clear Hstep. destruct (tasks st !! i) as [[count [c | c |]] |] eqn:Hi; try done.
  injection Hstep' as <-.
  assert (tasks st <> []) as Hne by (by intros E; rewrite E in Hi).
  pose proof (GInv_has_tasks st Hinv Hne) as Hrun.
  pose proof (proj1 (GInv_running st Hrun) Hinv) as [Hw Hf].
  by apply T_send.
- assert (match tasks st !! i with
          | Some (mkTask count (Returning c)) =>
              if Z.of_nat (length (chunkSliceCache (wr st))) <? MaxRequests (wr st)
              then Some (set_phase i Signalling
                           (set_wr (set_chunkSliceCache
                                      (chunkSliceCache (wr st) ++ [c]) (wr st)) st))
              else None
          | _ => None
          end = Some st') as Hstep' by (destruct (pc st); done).
  clear Hstep. destruct (tasks st !! i) as [[count [c | c |]] |] eqn:Hi; try done.
  destruct (_ <? _); [| done]. injection Hstep' as <-.
  assert (tasks st <> []) as Hne by (by intros E; rewrite E in Hi).
  pose proof (GInv_has_tasks st Hinv Hne) as Hrun.
  pose proof (proj1 (GInv_running st Hrun) Hinv) as [Hw Hf].
  by eapply T_back.
- assert (match tasks st !! i with
          | Some (mkTask count Signalling) =>
              if Z.of_nat (length (requestDoneCh (wr st))) <? MaxRequests (wr st)
              then Some (set_tasks (delete i (tasks st))
                           (set_wr (set_requestDoneCh
                                      (requestDoneCh (wr st) ++ [count]) (wr st)) st))
              else None
          | _ => None
          end = Some st') as Hstep' by (destruct (pc st); done).
  clear Hstep. destruct (tasks st !! i) as [[count [c | c |]] |] eqn:Hi; try done.
  destruct (_ <? _); [| done]. injection Hstep' as <-.
  assert (tasks st <> []) as Hne by (by intros E; rewrite E in Hi).
  pose proof (GInv_has_tasks st Hinv Hne) as Hrun.
  pose proof (proj1 (GInv_running st Hrun) Hinv) as [Hw Hf].
  by apply T_signal.
Qed.

(** Induction on the steps that lead to a reachable state. *)
Lemma reachable_ind (P : World -> Prop) :
  (forall w0, fresh w0 -> P (boot w0)) ->
  (forall st ev st', reachable st -> P st -> transition st ev st' -> P st') ->
  forall st, reachable st -> P st.
Proof.
intros Hboot Hstep st (w0 & evs & Hfresh & Hsteps).
revert st Hsteps. induction evs as [| ev evs IH] using rev_ind; intros st Hsteps.
- injection Hsteps as <-. by apply Hboot.
- rewrite steps_snoc in Hsteps.
  destruct (steps (boot w0) evs) as [st1 |] eqn:E; [| done].
  assert (reachable st1) as Hreach by (by exists w0, evs).
  eapply Hstep; [done | by apply IH |].
  apply step_transition; [by apply reachable_GInv | done].
Qed.

(** *** Sums *)

Ltac cong :=
  unfold cong64, add64, wrap64, in_int64, min_int64, max_int64 in *;
  Z.div_mod_to_equations; lia.

Lemma sumZ_app (l1 l2 : list Z) : sumZ (l1 ++ l2) = sumZ l1 + sumZ l2.
Proof. unfold sumZ. induction l1 as [| x l1 IH]; cbn [foldr app] in *; lia. Qed.

Lemma sumCounts_app ts1 ts2 : sumCounts (ts1 ++ ts2) = sumCounts ts1 + sumCounts ts2.
Proof. unfold sumCounts. by rewrite fmap_app, sumZ_app. Qed.

Lemma sumSending_app ts1 ts2 :
  sumSending (ts1 ++ ts2) = sumSending ts1 + sumSending ts2.
Proof. unfold sumSending. by rewrite List.filter_app, fmap_app, sumZ_app. Qed.

Lemma sumCounts_cons (t : task) ts : sumCounts (t :: ts) = tcount t + sumCounts ts.
Proof. done. Qed.

Lemma sumSending_cons (t : task) ts :
  sumSending (t :: ts) = (if is_sending t then tcount t else 0) + sumSending ts.
Proof. unfold sumSending. cbn [List.filter]. by destruct (is_sending t). Qed.

Lemma sumCounts_alter ts (i : nat) (f : task -> task) :
  (forall t, tcount (f t) = tcount t) -> sumCounts (alter f i ts) = sumCounts ts.
Proof.
intros Hf. revert i. induction ts as [| t ts IH]; intros [| i]; try done.
- change (alter f 0%nat (t :: ts)) with (f t :: ts).
  by rewrite !sumCounts_cons, Hf.
- change (alter f (S i) (t :: ts)) with (t :: alter f i ts).
  by rewrite !sumCounts_cons, IH.
Qed.

Lemma sumCounts_delete ts (i : nat) (t : task) :
  ts !! i = Some t -> sumCounts (delete i ts) = sumCounts ts - tcount t.
Proof.
revert i. induction ts as [| t' ts IH]; intros [| i] Hi; try done.
- injection Hi as ->. change (delete 0%nat (t :: ts)) with ts.
  rewrite sumCounts_cons. lia.
- change (delete (S i) (t' :: ts)) with (t' :: delete i ts).
  rewrite !sumCounts_cons, (IH i Hi). lia.
Qed.

Lemma sumSending_alter ts (i : nat) (t : task) (f : task -> task) :
  ts !! i = Some t ->
  sumSending (alter f i ts) =
    sumSending ts - (if is_sending t then tcount t else 0) +
    (if is_sending (f t) then tcount (f t) else 0).
Proof.
revert i. induction ts as [| t' ts IH]; intros [| i] Hi; try done.
- injection Hi as ->. change (alter f 0%nat (t :: ts)) with (f t :: ts).
  rewrite !sumSending_cons. lia.
- change (alter f (S i) (t' :: ts)) with (t' :: alter f i ts).
  rewrite !sumSending_cons, (IH i Hi). lia.
Qed.

Lemma sumSending_delete ts (i : nat) (t : task) :
  ts !! i = Some t ->
  sumSending (delete i ts) = sumSending ts - (if is_sending t then tcount t else 0).
Proof.
revert i. induction ts as [| t' ts IH]; intros [| i] Hi; try done.
- injection Hi as ->. change (delete 0%nat (t :: ts)) with ts.
  rewrite sumSending_cons. lia.
- change (delete (S i) (t' :: ts)) with (t' :: delete i ts).
  rewrite !sumSending_cons, (IH i Hi). lia.
Qed.

(** New send goroutines are all inside [SendFunc]. *)
Lemma sumSending_new ts :
  Forall (fun t : task => is_sending t = true) ts -> sumSending ts = sumCounts ts.
Proof.
induction 1 as [| t ts Ht _ IH]; [done |].
by rewrite sumSending_cons, sumCounts_cons, Ht, IH.
Qed.

Lemma sumZ_drop_le (k : nat) (l : list Z) :
  Forall (fun c => 0 < c) l -> sumZ (drop k l) <= sumZ l.
Proof.
intros Hl. revert k. induction Hl as [| c l Hc _ IH]; intros [| k]; try done.
cbn [drop sumZ foldr]. specialize (IH k). unfold sumZ in IH. lia.
Qed.

(** *** What the calls do to the counters *)

Lemma Summary_trans (d1 d2 : Z) w w1 w2 (out1 out2 : list (effect Instance)) :
  Summary d1 w w1 out1 -> Summary d2 w1 w2 out2 ->
  Summary (d1 + d2) w w2 (out1 ++ out2).
Proof.
intros [S1 F1 [O1 C1] Fl1 R1 Rc1 Ov1 N1 [k1 Ch1]]
       [S2 F2 [O2 C2] Fl2 R2 Rc2 Ov2 N2 [k2 Ch2]].
unfold config in *. injection C1 as ? ? HM1. injection C2 as ? ? HM2.
constructor.
- congruence.
- congruence.
- split; [congruence | unfold config; congruence].
- rewrite spawned_app, sumCounts_app. cong.
- auto.
- rewrite spawned_app, sumCounts_app. cong.
- rewrite callbacks_app. rewrite O1 in Ov2.
  destruct (OverwriteFunc w); [cong | lia].
- rewrite spawned_app. apply Forall_app. split; [done |].
  by rewrite HM1 in N2.
- exists (k1 + k2)%nat. by rewrite Ch2, Ch1, drop_drop.
Qed.

Lemma sumCounts_nil : sumCounts (spawned (@nil (effect Instance))) = 0.
Proof. done. Qed.

Lemma callbacks_nil : callbacks (@nil (effect Instance)) = 0%nat.
Proof. done. Qed.

Lemma Summary_same w : Summary 0 w w [].
Proof.
constructor; rewrite ?sumCounts_nil, ?callbacks_nil; try done.
- cong.
- cong.
- destruct (OverwriteFunc w); [cong | done].
- by exists 0%nat.
Qed.

Lemma tallies_ret : @tallies Instance (ret tt) 0.
Proof. intros w ts w' out _ [= <- <-]. apply Summary_same. Qed.

Lemma keeps_unique (m : M Instance unit) w ts w' (out : list (effect Instance)) :
  keeps m -> WInv w ts -> m w = Ok tt w' out -> WInv w' (ts ++ spawned out).
Proof.
intros Hm Hinv E. destruct (Hm w ts Hinv) as (w1 & out1 & E1 & Hinv1 & _).
rewrite E in E1. by injection E1 as -> ->.
Qed.

Lemma tallies_bind (m k : M Instance unit) (d1 d2 : Z) :
  keeps m -> tallies m d1 -> tallies k d2 -> tallies (m ;;; k) (d1 + d2).
Proof.
intros Hm Tm Tk w ts w' out Hinv E.
apply bind_Ok_inv in E as ([] & w1 & out1 & out2 & E1 & E2 & ->).
eapply Summary_trans; [by eapply Tm |].
eapply Tk; [| done]. by eapply keeps_unique.
Qed.

(** A counter of records goes up by [d]. *)
Lemma tallies_countReceived (insts : list (option Instance)) :
  tallies (countReceived insts) (- Z.of_nat (length insts)).
Proof.
intros w ts w' out _ [= <- <-].
constructor; rewrite ?sumCounts_nil, ?callbacks_nil; winv; try done.
- cong.
- unfold buffered; winv. cong.
- destruct (OverwriteFunc w); [cong | done].
- by exists 0%nat.
Qed.

Lemma tallies_filtered :
  @tallies Instance
    (modify (fun w => set_TotalFilteredOut (add64 (TotalFilteredOut w) 1) w)) 1.
Proof.
intros w ts w' out _ [= <- <-].
constructor; rewrite ?sumCounts_nil, ?callbacks_nil; winv; try done.
- cong.
- unfold buffered; winv. cong.
- destruct (OverwriteFunc w); [cong | done].
- by exists 0%nat.
Qed.

Lemma sumCounts_Spawn (n : Z) s : sumCounts (spawned [Spawn n s]) = n.
Proof. rewrite spawned_Spawn. unfold sumCounts. cbn. lia. Qed.

Lemma tallies_tryToSendChunk : @tallies Instance tryToSendChunk 0.
Proof.
intros w ts w' out Hinv E.
pose proof Hinv as [Hmb Hmr Hmbs Hbuff Hact Hbound Hpool Hcache Htasks].
destruct Hbuff as (b & Hb & Hwf & HS & Htw).
rewrite (tryToSendChunk_spec w ts b Hinv Hb) in E.
case_decide as Hfull.
{ injection E as <- <-. constructor; rewrite ?sumCounts_nil, ?callbacks_nil; winv; try done.
  - cong.
  - unfold buffered; winv. cong.
  - destruct (OverwriteFunc w); [cong | done].
  - by exists 0%nat. }
case_decide as Hnone; [injection E as <- <-; apply Summary_same |].
destruct (chunkSliceCache w) as [| s cache]; [done |].
injection E as <- <-.
pose proof (batch_len_le b (MaxBatchSize w)) as Hn.
pose proof (batch_len_le_max b (MaxBatchSize w)) as Hn'.
pose proof (unprocessed_NextBatch b (MaxBatchSize w)) as Hu.
unfold launched. destruct (NextBatch b (MaxBatchSize w)) as [b1 chunk].
cbn [fst snd] in Hu.
constructor; winv; try done.
- rewrite sumCounts_Spawn. cong.
- intros _. apply wrap64_range.
- rewrite sumCounts_Spawn. unfold buffered; winv. rewrite Hb.
  unfold UnprocessedCount.
  change (unprocessed (view_clear b1 chunk)) with (unprocessed b1).
  rewrite Hu. cong.
- destruct (OverwriteFunc w); [| done].
  change (callbacks [Spawn _ _]) with 0%nat. cong.
- rewrite spawned_Spawn. apply Forall_singleton. cbn [tcount]. split; [lia | done].
- by exists 0%nat.
Qed.

Lemma tallies_handle w (count : Z) (ch : list Z) ts w' (out : list (effect Instance)) :
  WInv w ts -> requestDoneCh w = count :: ch ->
  (modify (set_requestDoneCh ch) ;;; handleRequestDone count) w = Ok tt w' out ->
  Summary 0 w w' out.
Proof.
intros Hinv Hch E.
pose proof (WInv_completed w ts count ch Hinv Hch) as Hinv1.
rewrite bind_modify, handleRequestDone_eq in E.
assert (Summary 0 w (completed count (set_requestDoneCh ch w)) []) as S1.
{ constructor; rewrite ?sumCounts_nil, ?callbacks_nil; winv; try done.
  - rewrite Hch. change (sumZ (count :: ch)) with (count + sumZ ch). cong.
  - intros _. apply wrap64_range.
  - unfold buffered; winv. cong.
  - destruct (OverwriteFunc w); [cong | done].
  - exists 1%nat. by rewrite Hch. }
change 0 with (0 + 0). change out with ([] ++ out).
eapply Summary_trans; [exact S1 |].
destruct (0 <? totalWaiting (set_requestDoneCh ch w)).
- by eapply tallies_tryToSendChunk.
- by eapply tallies_ret.
Qed.

Lemma tallies_pollRequestDone : @tallies Instance pollRequestDone 0.
Proof.
intros w ts w' out Hinv E. unfold pollRequestDone in E. rewrite bind_get in E.
destruct (requestDoneCh w) as [| count ch] eqn:Hch.
- by eapply tallies_ret.
- by eapply tallies_handle.
Qed.

Lemma tallies_recvRequestDone : @tallies Instance recvRequestDone 0.
Proof.
intros w ts w' out Hinv E. unfold recvRequestDone in E. rewrite bind_get in E.
destruct (requestDoneCh w) as [| count ch] eqn:Hch; [done |].
by eapply tallies_handle.
Qed.

Lemma tallies_sendIfFull :
  @tallies Instance
    (b2 <- theBuff ;;
     w2 <- get ;;
     if MaxBatchSize w2 <=? Z.of_nat (UnprocessedCount b2)
     then tryToSendChunk else ret tt) 0.
Proof.
intros w ts w' out Hinv E. destruct (inv_buff _ _ Hinv) as (b & Hb & _).
rewrite (bind_theBuff _ w b Hb), bind_get in E.
destruct (MaxBatchSize w <=? Z.of_nat (UnprocessedCount b)).
- by eapply tallies_tryToSendChunk.
- by eapply tallies_ret.
Qed.

Lemma tallies_processItem (inst : option Instance) : tallies (processItem inst) 1.
Proof.
intros w ts w' out Hinv E. unfold processItem in E. rewrite bind_get in E.
destruct (match PreprocessFunc w with
          | Some f => negb (f inst)
          | None => false
          end); [by eapply tallies_filtered |].
pose proof Hinv as [Hmb Hmr Hmbs Hbuff Hact Hbound Hpool Hcache Htasks].
destruct Hbuff as (b & Hb & Hwf & HS & Htw).
rewrite (bind_theBuff _ w b Hb) in E.
pose proof (wf_Add b inst Hwf) as Hwf1.
pose proof (Size_Add b inst) as HS1.
pose proof (unprocessed_Add b inst) as Hu1.
destruct (Add b inst) as [b1 overwrote]. cbn [fst snd] in *.
unfold setBuff in E. rewrite bind_modify in E.
assert (WInv (set_buff (Some b1) w) ts) as Hinv1.
{ constructor; winv; try done.
  exists b1. split; [done |]. split; [done |]. split; [congruence |].
  destruct overwrote; lia. }
assert (exists w2 out2 out3,
          Summary 1 w w2 out2 /\ WInv w2 (ts ++ spawned out2) /\
          (pollRequestDone ;;;
           (b2 <- theBuff ;;
            w2 <- get ;;
            if MaxBatchSize w2 <=? Z.of_nat (UnprocessedCount b2)
            then tryToSendChunk else ret tt)) w2 = Ok tt w' out3 /\
          out = out2 ++ out3) as (w2 & out2 & out3 & S2 & Hinv2 & E3 & ->).
{ destruct overwrote.
  - apply bind_Ok_inv in E as ([] & w2 & out2 & out3 & E2 & E3 & ->).
    rewrite bind_modify in E2.
    assert (WInv w2 (ts ++ spawned out2) /\
            w2 = set_TotalOverwritten
                   (add64 (TotalOverwritten w) 1) (set_buff (Some b1) w) /\
            out2 = if OverwriteFunc w then [CallOverwrite] else [])
      as (Hinv2 & -> & ->).
    { destruct (OverwriteFunc w); injection E2 as <- <-.
      all: split; [| done].
      all: change (spawned _) with (@nil task); rewrite app_nil_r.
      all: destruct Hinv1; by constructor. }
    eexists _, _, out3. split; [| done].
    destruct (OverwriteFunc w) eqn:Hof.
    all: constructor; winv; rewrite ?Hof; try done.
    all: try change (sumCounts (spawned _)) with 0.
    all: try change (callbacks [CallOverwrite]) with 1%nat.
    all: unfold buffered, UnprocessedCount; winv; rewrite ?Hb, ?Hu1; try cong.
    all: try by exists 0%nat.
  - rewrite bind_ret_l in E. exists (set_buff (Some b1) w), [], out.
    split; [| by rewrite app_nil_r].
    constructor; rewrite ?sumCounts_nil, ?callbacks_nil; winv; try done.
    + cong.
    + unfold buffered, UnprocessedCount; winv. rewrite Hb, Hu1. cong.
    + destruct (OverwriteFunc w); [cong | done].
    + by exists 0%nat. }
change 1 with (1 + (0 + 0)).
eapply Summary_trans; [exact S2 |].
eapply (tallies_bind _ _ 0 0);
  [apply keeps_pollRequestDone | apply tallies_pollRequestDone
  | apply tallies_sendIfFull | exact Hinv2 | exact E3].
Qed.

(** *** [run] before its loop, exactly *)

Lemma applyDefaults_eq w :
  applyDefaults w =
    set_MaxBatchSize
      (if MaxBatchSize w =? 0 then DefaultInstanceMaxBatchSize else MaxBatchSize w)
      (set_MaxRequests
         (if MaxRequests w =? 0 then DefaultInstanceMaxRequests else MaxRequests w)
         (set_MaxBuffered
            (if MaxBuffered w =? 0 then DefaultInstanceMaxBuffered else MaxBuffered w)
            w)).
Proof.
unfold applyDefaults. cbv zeta. destruct w as [? ? mb mr mbs ? ? ? ? ? ? ? ? ? ? ? ?].
winv. destruct (mb =? 0); winv; destruct (mr =? 0); winv; by destruct (mbs =? 0).
Qed.

(** The writer [run] enters its loop with. *)
Lemma runInit_Ok w w' (out : list (effect Instance)) :
  runInit w = Ok tt w' out ->
  out = [] /\
  exists b,
    NewInstanceRingBuffer (MaxBuffered (applyDefaults w)) = Some b /\
    w' = set_requestDoneCh []
           (set_chunkSliceCache
              (replicate (Z.to_nat (MaxRequests (applyDefaults w)))
                 (mkSlice
                    (replicate (Z.to_nat (MaxBatchSize (applyDefaults w))) None) 0))
              (set_buff (Some b) (applyDefaults w))).
Proof.
unfold runInit. rewrite bind_modify, bind_get.
destruct (NewInstanceRingBuffer (MaxBuffered (applyDefaults w))) as [b |]; [| done].
unfold setBuff. rewrite bind_modify.
destruct (MaxRequests (applyDefaults w) <? 0); [done |].
destruct ((0 <? MaxRequests (applyDefaults w)) &&
          (MaxBatchSize (applyDefaults w) <? 0)); [done |].
rewrite bind_modify. unfold modify. intros [= <- <-]. split; [done |].
by exists b.
Qed.

(** *** The accounts along every run *)

Lemma pending_afterBatch (rest : list (option Instance)) back :
  pending (afterBatch rest back) = Z.of_nat (length rest).
Proof. by destruct rest. Qed.

Lemma called_tallies st ev next (m : M Instance unit) w'
    (out : list (effect Instance)) :
  called st ev next m -> WInv (wr st) (tasks st) -> m (wr st) = Ok tt w' out ->
  Summary (pending (pc st) - pending next) (wr st) w' out.
Proof.
intros Hc Hinv E. destruct Hc as
  [st insts back Hsel | st inst rest back Hpc | st Hpc Hch | st Hpc Hra Hch
  | st Hpc Hch Hctx | st Hpc].
- rewrite pending_afterBatch.
  replace (pending (pc st)) with 0 by (by destruct Hsel).
  by eapply tallies_countReceived.
- rewrite pending_afterBatch, Hpc. cbn [pending length].
  replace (Z.of_nat (S (length rest)) - Z.of_nat (length rest)) with 1 by lia.
  by eapply tallies_processItem.
- replace (pending (pc st)) with 0 by (by destruct Hpc as [-> | ->]).
  by eapply tallies_recvRequestDone.
- rewrite Hpc. by eapply tallies_recvRequestDone.
- rewrite Hpc. by eapply tallies_tryToSendChunk.
- rewrite Hpc. by eapply tallies_tryToSendChunk.
Qed.

Lemma AInv_boot w0 : fresh w0 -> AInv (boot w0).
Proof.
intros (pre & ovw & mb & mr & mbs & -> & _).
constructor; cbn [boot wr tasks pc overwriteCalls]; winv; try done.
by destruct ovw.
Qed.

Lemma AInv_transition st ev st' :
  GInv st -> AInv st -> transition st ev st' -> AInv st'.
Proof.
intros HG [Hfl Hrg Hrc Hov [Hct Hcc]] Htr.
destruct Htr as
  [st Hpc | st w' Hpc E Hinv' Hts | st msg Hpc E | st Hh | st Hpc Hctx
  | st ev next m w' out Hcall Hinv E Hinv' | st Hpc Hra Hts Hch | st Hpc
  | st i count c failed Hrun Hinv Hi | st i count c Hrun Hinv Hi
  | st i count Hrun Hinv Hi].
- (* Start *)
  constructor; cbn [wr tasks pc overwriteCalls set_pc set_wr]; winv; try done.
  by rewrite Hpc in Hrc.
- (* run reaches its loop *)
  apply runInit_Ok in E as (_ & b & Hnew & ->).
  apply wf_New in Hnew as (_ & _ & _ & Hempty).
  assert (unprocessed b = 0%nat) as Hu by (by rewrite <- length_contents, Hempty).
  unfold GInv in HG. rewrite Hpc in HG.
  destruct HG as [(w0 & (pre & ovw & mb & mr & mbs & -> & _) & Hw) _].
  rewrite Hts, Hpc in *. rewrite applyDefaults_eq. rewrite Hw in *.
  constructor; cbn [wr tasks pc overwriteCalls]; unfold buffered in *; winv;
    try done.
  + unfold UnprocessedCount. rewrite Hu. cbn [pending] in *. cong.
  + rewrite Nat.add_0_r. done.
- (* run panics *)
  constructor; cbn [wr tasks pc overwriteCalls set_pc]; try done.
  by rewrite Hpc in Hrc.
- (* cancellation *)
  by constructor.
- (* a select takes ctx.Done() *)
  constructor; cbn [wr tasks pc overwriteCalls set_pc]; try done.
  by destruct Hpc as [E | E]; rewrite E in Hrc.
- (* a call of the coordinating goroutine *)
  pose proof (called_tallies _ _ _ _ _ _ Hcall Hinv E) as
    [S1 F1 [O1 C1] Fl1 R1 Rc1 Ov1 N1 [k Ch1]].
  unfold config in C1. injection C1 as _ _ HM.
  assert (Forall (fun t : task => is_sending t = true) (spawned out)) as Hnew
    by (eapply Forall_impl; [exact N1 | by intros t [_ ?]]).
  constructor; cbn [wr tasks pc overwriteCalls].
  + rewrite sumCounts_app. cong.
  + auto.
  + rewrite sumSending_app, (sumSending_new _ Hnew). cong.
  + rewrite O1. destruct (OverwriteFunc (wr st)); [cong | lia].
  + rewrite HM. split.
    * apply Forall_app. split; [done |].
      eapply Forall_impl; [exact N1 | by intros t [? _]].
    * rewrite Ch1. by apply Forall_drop.
- (* run returns *)
  constructor; cbn [wr tasks pc overwriteCalls set_pc]; try done.
  by rewrite Hpc in Hrc.
- (* shutdownFlag is closed *)
  constructor; cbn [wr tasks pc overwriteCalls set_pc set_wr]; winv; try done.
  by rewrite Hpc in Hrc.
- (* a SendFunc returns *)
  pose proof (sumSending_alter (tasks st) i _
                (fun t => mkTask (tcount t) (Returning c)) Hi) as Hs.
  cbn [is_sending tphase tcount] in Hs.
  constructor; cbn [wr tasks pc overwriteCalls set_phase set_tasks set_wr].
  + rewrite sumCounts_alter by done. by destruct failed.
  + by destruct failed.
  + rewrite Hs. destruct failed; unfold buffered in *; winv; cong.
  + by destruct failed.
  + split; [| by destruct failed].
    apply Forall_alter; [by destruct failed |].
    intros t Ht. rewrite Hi in Ht. injection Ht as <-. cbn [tcount].
    pose proof (proj1 (Forall_lookup _ _) Hct i _ Hi) as Hb. cbn [tcount] in Hb.
    by destruct failed.
- (* a slice goes back to the cache *)
  pose proof (sumSending_alter (tasks st) i _
                (fun t => mkTask (tcount t) Signalling) Hi) as Hs.
  cbn [is_sending tphase tcount] in Hs.
  constructor; cbn [wr tasks pc overwriteCalls set_phase set_tasks set_wr]; winv;
    try done.
  + by rewrite sumCounts_alter.
  + rewrite Hs. unfold buffered in *; winv. cong.
  + split; [| done]. apply Forall_alter; [done |].
    intros t Ht. rewrite Hi in Ht. injection Ht as <-. cbn [tcount].
    by pose proof (proj1 (Forall_lookup _ _) Hct i _ Hi) as Hb.
- (* a completion is signalled *)
  pose proof (sumSending_delete (tasks st) i _ Hi) as Hs.
  pose proof (sumCounts_delete (tasks st) i _ Hi) as Hc.
  pose proof (proj1 (Forall_lookup _ _) Hct i _ Hi) as Hb.
  cbn [is_sending tphase tcount] in Hs, Hc, Hb.
  constructor; cbn [wr tasks pc overwriteCalls set_phase set_tasks set_wr]; winv;
    try done.
  + rewrite Hc, sumZ_app. change (sumZ [count]) with (count + 0). cong.
  + rewrite Hs. unfold buffered in *; winv. cong.
  + split; [by apply Forall_delete |].
    apply Forall_app. split; [done |]. by apply Forall_singleton.
Qed.

Lemma reachable_AInv st : reachable st -> AInv st.
Proof.
revert st. apply reachable_ind.
- apply AInv_boot.
- intros st ev st' Hreach IH Htr.
  eapply AInv_transition; [by apply reachable_GInv | done | done].
Qed.

(** *** Outcomes of the calls *)

Lemma sentTo_app (out1 out2 : list (effect Instance)) :
  sentTo (out1 ++ out2) = sentTo out1 ++ sentTo out2.
Proof. apply List.flat_map_app. Qed.

Lemma tryToSendChunk_outcome w ts w' (out : list (effect Instance)) :
  WInv w ts -> tryToSendChunk w = Ok tt w' out ->
  exists b b',
    buff w = Some b /\ buff w' = Some b' /\
    sentTo out ++ contents b' = contents b /\
    tryRel (MaxRequests w) (MaxBatchSize w)
      (requestsActive w) (totalWaiting w) (Z.of_nat (unprocessed b))
      (requestsActive w') (totalWaiting w') (Z.of_nat (unprocessed b')).
Proof.
intros Hinv E.
pose proof Hinv as [Hmb Hmr Hmbs Hbuff Hact Hbound Hpool Hcache Htasks].
destruct Hbuff as (b & Hb & Hwf & HS & Htw).
rewrite (tryToSendChunk_spec w ts b Hinv Hb) in E.
case_decide as Hfull.
{ injection E as <- <-. exists b, b. winv. unfold tryRel. auto 10. }
case_decide as Hnone.
{ injection E as <- <-. exists b, b. unfold tryRel, batch_len in *.
  split; [done |]. split; [done |]. split; [done |]. right. left. lia. }
destruct (chunkSliceCache w) as [| s cache] eqn:Hc; [done |].
injection E as <- <-.
apply Forall_cons in Hcache as [Hs _].
destruct (pool_ok_chunkOf w b s Hs Hmbs) as (_ & _ & He).
destruct (launched_fields w b cache Hwf) as (Hra & _ & _ & Hcont).
pose proof (contents_NextBatch b (MaxBatchSize w) Hwf) as Hdrop.
unfold contents_of in Hcont. rewrite Hdrop in Hcont.
destruct (buff (launched w b cache)) as [b' |] eqn:Hb'; [| done].
cbn [fmap option_fmap option_map] in Hcont. injection Hcont as Hcont.
exists b, b'. split; [done |]. split; [done |]. split.
{ cbn [sentTo flat_map]. rewrite app_nil_r, He, Hcont. apply take_drop. }
assert (unprocessed b' = (unprocessed b - batch_len b (MaxBatchSize w))%nat) as Hu.
{ rewrite <- !length_contents, Hcont. by rewrite length_drop. }
assert (totalWaiting (launched w b cache) = Z.of_nat (unprocessed b')) as Htw'.
{ revert Hb'. unfold launched.
  destruct (NextBatch b (MaxBatchSize w)) as [b1 chunk]. winv. by intros [= <-]. }
assert (add64 (requestsActive w) 1 = requestsActive w + 1) as Hadd.
{ apply add64_id. unfold in_int64, min_int64, max_int64 in *. lia. }
unfold tryRel, batch_len in *. right. right.
assert (MaxRequests (launched w b cache) = MaxRequests w) as HMR.
{ unfold launched. by destruct (NextBatch b (MaxBatchSize w)). }
lia.
Qed.

(** Receiving a completion: one request less, then a dispatch if a
    backlog is recorded. *)
Lemma handle_outcome w ts (count : Z) (ch : list Z) w'
    (out : list (effect Instance)) :
  WInv w ts -> requestDoneCh w = count :: ch ->
  (modify (set_requestDoneCh ch) ;;; handleRequestDone count) w = Ok tt w' out ->
  exists b b',
    buff w = Some b /\ buff w' = Some b' /\
    sentTo out ++ contents b' = contents b /\
    MaxRequests w' = MaxRequests w /\ MaxBatchSize w' = MaxBatchSize w /\
    if 0 <? totalWaiting w
    then tryRel (MaxRequests w) (MaxBatchSize w)
           (requestsActive w - 1) (totalWaiting w) (Z.of_nat (unprocessed b))
           (requestsActive w') (totalWaiting w') (Z.of_nat (unprocessed b'))
    else requestsActive w' = requestsActive w - 1 /\
         totalWaiting w' = totalWaiting w /\ b' = b.
Proof.
intros Hinv Hch E.
pose proof (WInv_completed w ts count ch Hinv Hch) as Hinv1.
pose proof (keeps_handle w ts count ch Hinv Hch) as (w1 & out1 & E1 & _ & _ & Hc).
rewrite E in E1. injection E1 as <- <-.
unfold config in Hc. injection Hc as _ HMR HMBS.
rewrite bind_modify, handleRequestDone_eq in E.
assert (requestsActive (completed count (set_requestDoneCh ch w)) =
          requestsActive w - 1) as Hra.
{ winv. pose proof (inv_active _ _ Hinv) as Hact. pose proof (inv_mr _ _ Hinv).
  pose proof (inv_bound _ _ Hinv).
  rewrite Hch in Hact. cbn [length] in Hact.
  apply add64_id. unfold in_int64, min_int64, max_int64 in *. lia. }
change (totalWaiting (set_requestDoneCh ch w)) with (totalWaiting w) in E.
destruct (0 <? totalWaiting w).
- destruct (tryToSendChunk_outcome _ _ _ _ Hinv1 E) as (b & b' & Hb & Hb' & Hs & Hrel).
  rewrite Hra in Hrel. exists b, b'. by winv.
- injection E as <- <-. destruct (inv_buff _ _ Hinv) as (b & Hb & _).
  exists b, b. by winv.
Qed.

Lemma pollRequestDone_outcome w ts w' (out : list (effect Instance)) :
  WInv w ts -> pollRequestDone w = Ok tt w' out ->
  (requestDoneCh w = [] /\ w' = w /\ out = []) \/
  (exists count ch,
     requestDoneCh w = count :: ch /\
     (modify (set_requestDoneCh ch) ;;; handleRequestDone count) w = Ok tt w' out).
Proof.
intros Hinv E. unfold pollRequestDone in E. rewrite bind_get in E.
destruct (requestDoneCh w) as [| count ch] eqn:Hch.
- left. by injection E as <- <-.
- right. by exists count, ch.
Qed.

Lemma recvRequestDone_outcome w w' (out : list (effect Instance)) :
  recvRequestDone w = Ok tt w' out ->
  exists count ch,
    requestDoneCh w = count :: ch /\
    (modify (set_requestDoneCh ch) ;;; handleRequestDone count) w = Ok tt w' out.
Proof.
intros E. unfold recvRequestDone in E. rewrite bind_get in E.
destruct (requestDoneCh w) as [| count ch] eqn:Hch; [done |].
by exists count, ch.
Qed.

Lemma WInv_added w ts b (inst : option Instance) :
  WInv w ts -> buff w = Some b -> WInv (added inst b w) ts.
Proof.
intros [Hmb Hmr Hmbs Hbuff Hact Hbound Hpool Hcache Htasks] Hb.
destruct Hbuff as (b0 & Hb0 & Hwf & HS & Htw).
assert (b0 = b) as -> by congruence.
pose proof (wf_Add b inst Hwf) as Hwf1.
pose proof (Size_Add b inst) as HS1.
pose proof (unprocessed_Add b inst) as Hu1.
unfold added. destruct (Add b inst) as [b1 overwrote]. cbn [fst snd] in *.
destruct overwrote; constructor; winv; try done.
all: exists b1; split; [done |]; split; [done |]; split; [congruence | lia].
Qed.

(** An iteration of [processInput], piece by piece. *)
Lemma processItem_pieces (inst : option Instance) w ts w'
    (out : list (effect Instance)) :
  WInv w ts -> processItem inst w = Ok tt w' out ->
  (rejected w inst = true /\ out = [] /\
   w' = set_TotalFilteredOut (add64 (TotalFilteredOut w) 1) w) \/
  (rejected w inst = false /\
   exists b w2 out1 out2 out3,
     buff w = Some b /\
     out1 = (if (Add b inst).2 && OverwriteFunc w then [CallOverwrite] else []) /\
     pollRequestDone (added inst b w) = Ok tt w2 out2 /\
     WInv w2 (ts ++ spawned out2) /\
     sendIfFull w2 = Ok tt w' out3 /\
     out = out1 ++ out2 ++ out3).
Proof.
intros Hinv E. unfold processItem in E. rewrite bind_get in E.
fold (rejected w inst) in E. destruct (rejected w inst); [left | right].
{ by injection E as <- <-. }
split; [done |].
destruct (inv_buff _ _ Hinv) as (b & Hb & _).
pose proof (WInv_added w ts b inst Hinv Hb) as Hinv1.
rewrite (bind_theBuff _ w b Hb) in E. exists b. unfold added in *.
destruct (Add b inst) as [b1 overwrote]. cbn [fst snd] in *.
unfold setBuff in E. rewrite bind_modify in E.
fold (@sendIfFull Instance) in E.
destruct overwrote; cbn [andb].
- apply bind_Ok_inv in E as ([] & w1 & out1 & out23 & E1 & E23 & ->).
  rewrite bind_modify in E1.
  assert (w1 = set_TotalOverwritten (add64 (TotalOverwritten w) 1)
                 (set_buff (Some b1) w) /\
          out1 = if OverwriteFunc w then [CallOverwrite] else []) as [-> ->]
    by (destruct (OverwriteFunc w); by injection E1 as <- <-).
  apply bind_Ok_inv in E23 as ([] & w2 & out2 & out3 & E2 & E3 & ->).
  exists w2, (if OverwriteFunc w then [CallOverwrite] else []), out2, out3.
  split; [done |]. split; [done |]. split; [done |].
  split; [| done]. by eapply keeps_unique; [apply keeps_pollRequestDone | |].
- rewrite bind_ret_l in E.
  apply bind_Ok_inv in E as ([] & w2 & out2 & out3 & E2 & E3 & ->).
  exists w2, [], out2, out3.
  split; [done |]. split; [done |]. split; [done |].
  split; [| done]. by eapply keeps_unique; [apply keeps_pollRequestDone | |].
Qed.

Lemma sendIfFull_outcome w ts w' (out : list (effect Instance)) :
  WInv w ts -> sendIfFull w = Ok tt w' out ->
  exists b,
    buff w = Some b /\
    if MaxBatchSize w <=? Z.of_nat (unprocessed b)
    then tryToSendChunk w = Ok tt w' out
    else w' = w /\ out = [].
Proof.
intros Hinv E. destruct (inv_buff _ _ Hinv) as (b & Hb & _).
unfold sendIfFull in E. rewrite (bind_theBuff _ w b Hb), bind_get in E.
exists b. split; [done |]. unfold UnprocessedCount in E.
destruct (MaxBatchSize w <=? Z.of_nat (unprocessed b)); [done |].
by injection E as <- <-.
Qed.

(** *** The drain, and work conservation *)

Lemma config_eq w w' :
  config w' = config w ->
  MaxBuffered w' = MaxBuffered w /\ MaxRequests w' = MaxRequests w /\
  MaxBatchSize w' = MaxBatchSize w.
Proof. unfold config. by intros [= -> -> ->]. Qed.

Lemma keeps_config (m : M Instance unit) w ts w' (out : list (effect Instance)) :
  keeps m -> WInv w ts -> m w = Ok tt w' out -> config w' = config w.
Proof.
intros Hm Hinv E. destruct (Hm w ts Hinv) as (w1 & out1 & E1 & _ & _ & Hc).
rewrite E in E1. by injection E1 as -> ->.
Qed.

Lemma WInv_active_nonneg w ts : WInv w ts -> 0 <= requestsActive w.
Proof. intros H. rewrite (inv_active _ _ H). lia. Qed.

Lemma tryToSendChunk_settles w ts w' (out : list (effect Instance)) :
  WInv w ts -> tryToSendChunk w = Ok tt w' out -> settled w'.
Proof.
intros Hinv E.
destruct (tryToSendChunk_outcome _ _ _ _ Hinv E) as (b & b' & Hb & Hb' & _ & Hrel).
pose proof (WInv_active_nonneg _ _ Hinv) as Hra.
pose proof (inv_mr _ _ Hinv) as Hmr.
destruct (inv_buff _ _ Hinv) as (b0 & Hb0 & _ & _ & Htw).
assert (b0 = b) as -> by congruence.
exists b'. split; [done |]. unfold tryRel in Hrel. lia.
Qed.

Lemma handle_settled w ts (count : Z) (ch : list Z) w'
    (out : list (effect Instance)) :
  WInv w ts -> settled w -> requestDoneCh w = count :: ch ->
  (modify (set_requestDoneCh ch) ;;; handleRequestDone count) w = Ok tt w' out ->
  settled w'.
Proof.
intros Hinv (b0 & Hb0 & Htw & Hwake) Hch E.
destruct (handle_outcome _ _ _ _ _ _ Hinv Hch E)
  as (b & b' & Hb & Hb' & _ & _ & _ & Hrel).
assert (b0 = b) as -> by congruence.
pose proof (inv_mr _ _ Hinv) as Hmr.
pose proof (inv_active _ _ Hinv) as Hact. rewrite Hch in Hact.
cbn [length] in Hact.
exists b'. split; [done |].
destruct (Z.ltb_spec 0 (totalWaiting w)).
- unfold tryRel in Hrel. lia.
- destruct Hrel as (Hra & Htw' & ->). lia.
Qed.

Lemma tryToSendChunk_busy (k : Z) w ts w' (out : list (effect Instance)) :
  WInv w ts -> busyFrom k w -> k <= 2 * MaxBatchSize w ->
  tryToSendChunk w = Ok tt w' out -> busyFrom (MaxBatchSize w') w'.
Proof.
intros Hinv (b0 & Hb0 & Hbusy) Hk E.
destruct (tryToSendChunk_outcome _ _ _ _ Hinv E) as (b & b' & Hb & Hb' & _ & Hrel).
assert (b0 = b) as -> by congruence.
destruct (config_eq _ _ (keeps_config _ _ _ _ _ keeps_tryToSendChunk Hinv E))
  as (_ & HMR & HMBS).
pose proof (inv_mbs _ _ Hinv) as Hmbs.
pose proof (inv_bound _ _ Hinv) as Hbound.
exists b'. split; [done |]. rewrite HMR, HMBS. unfold tryRel in Hrel. lia.
Qed.

Lemma handle_busy (k : Z) w ts (count : Z) (ch : list Z) w'
    (out : list (effect Instance)) :
  WInv w ts -> busyFrom k w -> 1 <= k -> requestDoneCh w = count :: ch ->
  (modify (set_requestDoneCh ch) ;;; handleRequestDone count) w = Ok tt w' out ->
  busyFrom k w'.
Proof.
intros Hinv (b0 & Hb0 & Hbusy) Hk Hch E.
destruct (handle_outcome _ _ _ _ _ _ Hinv Hch E)
  as (b & b' & Hb & Hb' & _ & HMR & _ & Hrel).
assert (b0 = b) as -> by congruence.
pose proof (inv_bound _ _ Hinv) as Hbound.
pose proof (inv_mbs _ _ Hinv) as Hmbs.
exists b'. split; [done |]. rewrite HMR.
destruct (Z.ltb_spec 0 (totalWaiting w)).
- unfold tryRel in Hrel. lia.
- destruct Hrel as (Hra & Htw' & ->). lia.
Qed.

Lemma processItem_busy (inst : option Instance) w ts w'
    (out : list (effect Instance)) :
  WInv w ts -> busyFrom (MaxBatchSize w) w ->
  processItem inst w = Ok tt w' out -> busyFrom (MaxBatchSize w') w'.
Proof.
intros Hinv (b0 & Hb0 & Hbusy) E.
destruct (processItem_pieces _ _ _ _ _ Hinv E)
  as [(_ & _ & ->) | (_ & b & w2 & out1 & out2 & out3 & Hb & _ & E2 & Hinv2 & E3 & _)].
{ exists b0. by winv. }
assert (b0 = b) as -> by congruence.
pose proof (WInv_added w ts b inst Hinv Hb) as Hinv1.
pose proof (inv_mbs _ _ Hinv) as Hmbs.
assert (MaxBatchSize (added inst b w) = MaxBatchSize w /\
        busyFrom (MaxBatchSize w + 1) (added inst b w)) as [HM1 Hbusy1].
{ pose proof (unprocessed_Add b inst) as Hu. unfold added.
  destruct (Add b inst) as [b1 overwrote]. cbn [fst snd] in *.
  destruct overwrote; winv; (split; [done |]); exists b1; winv;
    (split; [done |]); lia. }
assert (MaxBatchSize w2 = MaxBatchSize w /\ busyFrom (MaxBatchSize w + 1) w2)
  as [HM2 Hbusy2].
{ destruct (pollRequestDone_outcome _ _ _ _ Hinv1 E2)
    as [(_ & -> & _) | (count & ch & Hch & Eh)]; [done |].
  split.
  - destruct (handle_outcome _ _ _ _ _ _ Hinv1 Hch Eh)
      as (_ & _ & _ & _ & _ & _ & -> & _). done.
  - eapply handle_busy; [exact Hinv1 | done | lia | exact Hch | exact Eh]. }
destruct (sendIfFull_outcome _ _ _ _ Hinv2 E3) as (b2 & Hb2 & Hsend).
rewrite HM2 in Hsend.
destruct (Z.leb_spec (MaxBatchSize w) (Z.of_nat (unprocessed b2))).
- eapply tryToSendChunk_busy; [exact Hinv2 | exact Hbusy2 | lia | exact Hsend].
- destruct Hsend as [-> _]. exists b2. split; [done |]. lia.
Qed.

Lemma DInv_afterBatch w ts (rest : list (option Instance)) back d n :
  back = AtSelect \/ back = InDrain ->
  DInv (mkWorld w ts (afterBatch rest back) d n).
Proof.
intros Hb. unfold DInv. cbn [pc].
destruct rest; cbn [afterBatch]; [by destruct Hb as [-> | ->] | done].
Qed.

Lemma DInv_transition st ev st' :
  GInv st -> DInv st -> transition st ev st' -> DInv st'.
Proof.
intros HG HD Htr.
destruct Htr as
  [st Hpc | st w' Hpc E Hinv' Hts | st msg Hpc E | st Hh | st Hpc Hctx
  | st ev next m w' out Hcall Hinv E Hinv' | st Hpc Hra Hts Hch | st Hpc
  | st i count c failed Hrun Hinv Hi | st i count c Hrun Hinv Hi
  | st i count Hrun Hinv Hi]; try done.
- (* a call of the coordinating goroutine *)
  destruct Hcall as
    [st insts back Hsel | st inst rest back Hpc | st Hpc Hch | st Hpc Hra Hch
    | st Hpc Hch Hctx | st Hpc].
  + apply DInv_afterBatch. destruct Hsel; auto.
  + apply DInv_afterBatch. unfold DInv in HD. rewrite Hpc in HD. by destruct HD.
  + done.
  + unfold DInv in *. rewrite Hpc in HD. cbn [pc wr].
    apply recvRequestDone_outcome in E as (count & ch & Hch' & E).
    exact (handle_settled _ _ _ _ _ _ Hinv HD Hch' E).
  + unfold DInv. cbn [pc wr]. exact (tryToSendChunk_settles _ _ _ _ Hinv E).
  + unfold DInv. cbn [pc wr]. exact (tryToSendChunk_settles _ _ _ _ Hinv E).
- (* run returns *)
  unfold GInv in HG. unfold DInv in *. rewrite Hpc in HD, HG.
  cbn [pc wr set_pc].
  destruct HD as (b & Hb & Htw & Hwake). destruct HG as [Hinv _].
  pose proof (WInv_active_nonneg _ _ Hinv).
  unfold buffered, UnprocessedCount. rewrite Hb.
  split; [lia |]. split; [lia | done].
- (* shutdownFlag is closed *)
  unfold DInv in *. rewrite Hpc in HD. by cbn [pc wr set_pc set_wr].
- (* a SendFunc returns *)
  unfold DInv, settled, buffered in *.
  cbn [pc wr set_phase set_tasks set_wr]. by destruct failed.
- (* a completion is signalled *)
  assert (running (pc st) = true) as Hr by done.
  revert HD. unfold DInv, settled, buffered.
  cbn [pc wr set_phase set_tasks set_wr]. by destruct (pc st) as [| | [] | | | | |].
Qed.

Lemma reachable_DInv st : reachable st -> DInv st.
Proof.
revert st. apply reachable_ind; [done |].
intros st ev st' Hreach IH Htr. eapply DInv_transition; [| done | done].
by apply reachable_GInv.
Qed.

Lemma busy_transition st ev st' :
  GInv st ->
  (started (pc st) = true -> busyFrom (MaxBatchSize (wr st)) (wr st)) ->
  transition st ev st' ->
  started (pc st') = true -> busyFrom (MaxBatchSize (wr st')) (wr st').
Proof.
intros HG IH Htr.
destruct Htr as
  [st Hpc | st w' Hpc E Hinv' Hts | st msg Hpc E | st Hh | st Hpc Hctx
  | st ev next m w' out Hcall Hinv E Hinv' | st Hpc Hra Hts Hch | st Hpc
  | st i count c failed Hrun Hinv Hi | st i count c Hrun Hinv Hi
  | st i count Hrun Hinv Hi].
- done.
- (* run reaches its loop *)
  intros _. cbn [wr]. pose proof (inv_mbs _ _ Hinv') as Hmbs.
  apply runInit_Ok in E as (_ & b & Hnew & ->).
  apply wf_New in Hnew as (_ & _ & _ & Hempty).
  assert (unprocessed b = 0%nat) as Hu by (by rewrite <- length_contents, Hempty).
  exists b. winv. split; [done |]. lia.
- done.
- exact IH.
- (* a select takes ctx.Done() *)
  intros _. apply IH. by destruct Hpc as [-> | ->].
- (* a call of the coordinating goroutine *)
  intros _. cbn [wr].
  assert (started (pc st) = true) as Hst.
  { destruct Hcall as
      [st insts back Hsel | st inst rest back Hpc | st Hpc Hch | st Hpc Hra Hch
      | st Hpc Hch Hctx | st Hpc]; try (by rewrite Hpc); try (by destruct Hsel).
    by destruct Hpc as [-> | ->]. }
  specialize (IH Hst).
  destruct Hcall as
    [st insts back Hsel | st inst rest back Hpc | st Hpc Hch | st Hpc Hra Hch
    | st Hpc Hch Hctx | st Hpc].
  + unfold countReceived, modify in E. injection E as <- <-.
    destruct IH as (b & Hb & Hbusy). by exists b.
  + exact (processItem_busy _ _ _ _ _ Hinv IH E).
  + apply recvRequestDone_outcome in E as (count & ch & Hch' & E).
    destruct (handle_outcome _ _ _ _ _ _ Hinv Hch' E)
      as (_ & _ & _ & _ & _ & _ & -> & _).
    pose proof (inv_mbs _ _ Hinv).
    eapply handle_busy; [exact Hinv | exact IH | lia | exact Hch' | exact E].
  + apply recvRequestDone_outcome in E as (count & ch & Hch' & E).
    destruct (handle_outcome _ _ _ _ _ _ Hinv Hch' E)
      as (_ & _ & _ & _ & _ & _ & -> & _).
    pose proof (inv_mbs _ _ Hinv).
    eapply handle_busy; [exact Hinv | exact IH | lia | exact Hch' | exact E].
  + pose proof (inv_mbs _ _ Hinv).
    eapply tryToSendChunk_busy; [exact Hinv | exact IH | lia | exact E].
  + pose proof (inv_mbs _ _ Hinv).
    eapply tryToSendChunk_busy; [exact Hinv | exact IH | lia | exact E].
- (* run returns *)
  intros _. apply IH. by rewrite Hpc.
- (* shutdownFlag is closed *)
  intros _. destruct IH as (b & Hb & Hbusy); [by rewrite Hpc |]. by exists b.
- (* a SendFunc returns *)
  cbn [pc wr set_phase set_tasks set_wr]. intros Hst.
  destruct (IH Hst) as (b & Hb & Hbusy). exists b. by destruct failed.
- (* a slice goes back to the cache *)
  cbn [pc wr set_phase set_tasks set_wr]. intros Hst.
  destruct (IH Hst) as (b & Hb & Hbusy). by exists b.
- (* a completion is signalled *)
  cbn [pc wr set_phase set_tasks set_wr]. intros Hst.
  destruct (IH Hst) as (b & Hb & Hbusy). by exists b.
Qed.

Lemma reachable_busy st :
  reachable st -> started (pc st) = true ->
  busyFrom (MaxBatchSize (wr st)) (wr st).
Proof.
revert st.
apply (reachable_ind
         (fun st => started (pc st) = true ->
                    busyFrom (MaxBatchSize (wr st)) (wr st))); [done |].
intros st ev st' Hreach IH Htr.
eapply busy_transition; [by apply reachable_GInv | done | done].
Qed.
(** *** The order of the records *)

Lemma trace_snoc (evs : list event) ev st st1 st' :
  steps st evs = Some st1 -> step st1 ev = Some st' ->
  trace st (evs ++ [ev]) = trace st evs ++ [(st1, ev, st')].
Proof.
revert st. induction evs as [| e evs IH]; intros st Hsteps Hstep;
  cbn [steps trace app] in *.
- injection Hsteps as ->. by rewrite Hstep.
- destruct (step st e) as [st2 |]; [| done]. by rewrite (IH st2).
Qed.

Lemma sentBy_nil st st' :
  (length (tasks st') <= length (tasks st))%nat -> sentBy st st' = [].
Proof. intros Hle. unfold sentBy. by rewrite drop_ge. Qed.

Lemma sentBy_call st w (out : list (effect Instance)) next d n :
  sentBy st (mkWorld w (tasks st ++ spawned out) next d n) = sentTo out.
Proof.
unfold sentBy. cbn [tasks]. rewrite drop_app_length.
induction out as [| [count c |] out IH]; [done | |].
- change (spawned (Spawn count c :: out))
    with (mkTask count (Sending c) :: spawned out).
  cbn [flat_map sentTo tphase]. by rewrite IH.
- exact IH.
Qed.

Lemma tryToSendChunk_held w ts w' (out : list (effect Instance)) :
  WInv w ts -> tryToSendChunk w = Ok tt w' out -> sentTo out ++ held w' = held w.
Proof.
intros Hinv E.
destruct (tryToSendChunk_outcome _ _ _ _ Hinv E) as (b & b' & Hb & Hb' & Hs & _).
unfold held. by rewrite Hb, Hb'.
Qed.

Lemma handle_held w ts (count : Z) (ch : list Z) w' (out : list (effect Instance)) :
  WInv w ts -> requestDoneCh w = count :: ch ->
  (modify (set_requestDoneCh ch) ;;; handleRequestDone count) w = Ok tt w' out ->
  sentTo out ++ held w' = held w.
Proof.
intros Hinv Hch E.
destruct (handle_outcome _ _ _ _ _ _ Hinv Hch E) as (b & b' & Hb & Hb' & Hs & _).
unfold held. by rewrite Hb, Hb'.
Qed.

Lemma added_held w ts b (inst : option Instance) :
  WInv w ts -> buff w = Some b ->
  held (added inst b w) `sublist_of` held w ++ [inst].
Proof.
intros Hinv Hb. destruct (inv_buff _ _ Hinv) as (b0 & Hb0 & Hwf & _).
assert (b0 = b) as -> by congruence.
pose proof (contents_Add b inst Hwf) as Hc.
unfold held, added. rewrite Hb.
destruct (Add b inst) as [b1 overwrote]. cbn [fst snd] in *.
destruct overwrote; winv; rewrite Hc; (apply sublist_app; [| done]).
- apply sublist_drop.
- done.
Qed.

Lemma processItem_order (inst : option Instance) w ts w'
    (out : list (effect Instance)) :
  WInv w ts -> processItem inst w = Ok tt w' out ->
  sentTo out ++ held w' `sublist_of`
    held w ++ (if rejected w inst then [] else [inst]).
Proof.
intros Hinv E.
destruct (processItem_pieces _ _ _ _ _ Hinv E)
  as [(-> & -> & ->) | (-> & b & w2 & out1 & out2 & out3 & Hb & Ho1 & E2 & Hinv2 & E3 & ->)].
{ by rewrite app_nil_r. }
pose proof (WInv_added w ts b inst Hinv Hb) as Hinv1.
assert (sentTo out1 = []) as H1.
{ rewrite Ho1. by destruct ((Add b inst).2 && OverwriteFunc w). }
assert (sentTo out2 ++ held w2 = held (added inst b w)) as H2.
{ destruct (pollRequestDone_outcome _ _ _ _ Hinv1 E2)
    as [(_ & -> & ->) | (count & ch & Hch & Eh)]; [done |].
  by eapply handle_held. }
assert (sentTo out3 ++ held w' = held w2) as H3.
{ destruct (sendIfFull_outcome _ _ _ _ Hinv2 E3) as (b2 & Hb2 & Hsend).
  destruct (MaxBatchSize w2 <=? Z.of_nat (unprocessed b2)).
  - by eapply tryToSendChunk_held.
  - by destruct Hsend as [-> ->]. }
rewrite !sentTo_app, H1, <- !app_assoc, H3, H2. cbn [app].
by eapply added_held.
Qed.

(** A step hands out the oldest entries of the buffer, and puts an
    accepted instance behind the others. *)
Lemma transition_order st ev st' :
  transition st ev st' ->
  sentBy st st' ++ held (wr st') `sublist_of` held (wr st) ++ acceptedAt st ev.
Proof.
intros Htr.
assert (forall st1, (length (tasks st1) <= length (tasks st))%nat ->
          held (wr st1) = held (wr st) ->
          sentBy st st1 ++ held (wr st1) `sublist_of` held (wr st) ++ acceptedAt st ev)
  as Hsame.
{ intros st1 Hle ->. rewrite sentBy_nil by done. by apply sublist_inserts_r. }
destruct Htr as
  [st Hpc | st w' Hpc E Hinv' Hts | st msg Hpc E | st Hh | st Hpc Hctx
  | st ev next m w' out Hcall Hinv E Hinv' | st Hpc Hra Hts Hch | st Hpc
  | st i count c failed Hrun Hinv Hi | st i count c Hrun Hinv Hi
  | st i count Hrun Hinv Hi].
- by apply Hsame.
- (* run reaches its loop *)
  apply runInit_Ok in E as (_ & b & Hnew & ->).
  apply wf_New in Hnew as (_ & _ & _ & Hempty).
  rewrite sentBy_nil by (cbn [tasks length]; lia).
  unfold held at 1. winv. cbn [wr]. winv. rewrite Hempty. apply sublist_nil_l.
- by apply Hsame.
- by apply Hsame.
- by apply Hsame.
- (* a call of the coordinating goroutine *)
  rewrite sentBy_call. cbn [wr].
  destruct Hcall as
    [st insts back Hsel | st inst rest back Hpc | st Hpc Hch | st Hpc Hra Hch
    | st Hpc Hch Hctx | st Hpc].
  + unfold countReceived, modify in E. injection E as <- <-.
    by apply sublist_inserts_r.
  + unfold acceptedAt. rewrite Hpc. by eapply processItem_order.
  + apply recvRequestDone_outcome in E as (count & ch & Hch' & E).
    rewrite (handle_held _ _ _ _ _ _ Hinv Hch' E). by apply sublist_inserts_r.
  + apply recvRequestDone_outcome in E as (count & ch & Hch' & E).
    rewrite (handle_held _ _ _ _ _ _ Hinv Hch' E). by apply sublist_inserts_r.
  + rewrite (tryToSendChunk_held _ _ _ _ Hinv E). by apply sublist_inserts_r.
  + rewrite (tryToSendChunk_held _ _ _ _ Hinv E). by apply sublist_inserts_r.
- by apply Hsame.
- by apply Hsame.
- apply Hsame; [| by destruct failed].
  cbn [tasks set_phase set_tasks set_wr]. by rewrite length_alter.
- apply Hsame; [| done].
  cbn [tasks set_phase set_tasks set_wr]. by rewrite length_alter.
- apply Hsame; [| done].
  cbn [tasks set_phase set_tasks set_wr]. rewrite length_delete; [lia | by eauto].
Qed.
(** *** Shutdown can always complete *)

Lemma steps_app (evs1 evs2 : list event) st :
  steps st (evs1 ++ evs2) =
    match steps st evs1 with
    | Some st1 => steps st1 evs2
    | None => None
    end.
Proof.
revert st. induction evs1 as [| e evs1 IH]; intros st; cbn [steps app]; [done |].
destruct (step st e); [apply IH | done].
Qed.

Lemma GInv_WInv st :
  GInv st -> running (pc st) = true ->
  WInv (wr st) (tasks st) /\ shutdownFlag (wr st) = Some ChanOpen.
Proof. intros HG Hrun. by apply GInv_running. Qed.

Lemma work_eq st :
  WInv (wr st) (tasks st) ->
  exists b, buff (wr st) = Some b /\
    Z.of_nat (work st) = Z.of_nat (unprocessed b) + requestsActive (wr st).
Proof.
intros Hinv. destruct (inv_buff _ _ Hinv) as (b & Hb & _).
exists b. split; [done |]. unfold work, held.
rewrite Hb, length_contents, (inv_active _ _ Hinv). lia.
Qed.

(** A completion is received by [waitForRequests]. *)
Lemma wait_recv st :
  GInv st -> pc st = Loop InWaitForRequests -> requestDoneCh (wr st) <> [] ->
  exists st',
    step st EvRequestDone = Some st' /\ GInv st' /\
    pc st' = Loop InWaitForRequests /\ (work st' < work st)%nat.
Proof.
intros HG Hpc Hch.
assert (running (pc st) = true) as Hrun by (by rewrite Hpc).
destruct (GInv_WInv _ HG Hrun) as [Hinv Hflag].
destruct (keeps_recvRequestDone _ _ Hinv Hch) as (w' & out & E & Hinv' & Hf & Hc).
assert (keeps_at recvRequestDone (wr st) (tasks st)) as Hk
  by (by exists w', out).
destruct (commit_keeps st (Loop InWaitForRequests) recvRequestDone Hrun eq_refl HG Hk)
  as (HG' & Hpc' & _).
exists (commit st (Loop InWaitForRequests) recvRequestDone).
split; [| split; [done | split; [done |]]].
{ unfold step. rewrite Hpc. cbn [halted].
  pose proof (inv_active _ _ Hinv) as Hact.
  destruct (requestDoneCh (wr st)) as [| count ch] eqn:Ech; [done |].
  cbn [length] in Hact.
  destruct (Z.ltb_spec 0 (requestsActive (wr st))); [done | lia]. }
rewrite (commit_Ok _ _ _ _ _ E) in *.
destruct (work_eq _ Hinv) as (b & Hb & Hw).
destruct (work_eq (mkWorld w' (tasks st ++ spawned out) (Loop InWaitForRequests)
                    (ctxDone st) (overwriteCalls st + callbacks out)) Hinv')
  as (b' & Hb' & Hw'). cbn [wr] in Hb', Hw'.
apply recvRequestDone_outcome in E as (count & ch & Hch' & E).
destruct (handle_outcome _ _ _ _ _ _ Hinv Hch' E)
  as (b0 & b0' & Hb0 & Hb0' & _ & _ & _ & Hrel).
assert (b0 = b) as -> by congruence. assert (b0' = b') as -> by congruence.
pose proof (inv_bound _ _ Hinv). pose proof (inv_mbs _ _ Hinv).
destruct (Z.ltb_spec 0 (totalWaiting (wr st))).
- unfold tryRel in Hrel. lia.
- destruct Hrel as (Hra & _ & ->). lia.
Qed.

Lemma step_sliceBack st (i : nat) (count : Z) c :
  GInv st -> tasks st !! i = Some (mkTask count (Returning c)) ->
  step st (EvSliceBack i) =
    Some (set_phase i Signalling
            (set_wr (set_chunkSliceCache (chunkSliceCache (wr st) ++ [c]) (wr st))
               st)).
Proof.
intros HG Hi.
assert (tasks st <> []) as Hne by (by intros E; rewrite E in Hi).
pose proof (GInv_has_tasks st HG Hne) as Hrun.
destruct (GInv_WInv _ HG Hrun) as [Hinv _].
assert (halted (pc st) = false) as Hh by (by destruct (pc st)).
destruct (WInv_sliceBack _ _ i count c Hinv Hi) as [_ Hlt].
unfold step. rewrite Hh, Hi.
destruct (Z.ltb_spec (Z.of_nat (length (chunkSliceCache (wr st))))
            (MaxRequests (wr st))); [| lia].
by destruct (pc st).
Qed.

Lemma step_signal st (i : nat) (count : Z) :
  GInv st -> tasks st !! i = Some (mkTask count Signalling) ->
  step st (EvSignal i) =
    Some (set_tasks (delete i (tasks st))
            (set_wr (set_requestDoneCh (requestDoneCh (wr st) ++ [count]) (wr st))
               st)).
Proof.
intros HG Hi.
assert (tasks st <> []) as Hne by (by intros E; rewrite E in Hi).
pose proof (GInv_has_tasks st HG Hne) as Hrun.
destruct (GInv_WInv _ HG Hrun) as [Hinv _].
assert (halted (pc st) = false) as Hh by (by destruct (pc st)).
destruct (WInv_signal _ _ i count Hinv Hi) as [_ Hlt].
unfold step. rewrite Hh, Hi.
destruct (Z.ltb_spec (Z.of_nat (length (requestDoneCh (wr st))))
            (MaxRequests (wr st))); [| lia].
by destruct (pc st).
Qed.

(** The oldest send goroutine runs to its end. *)
Lemma task_finishes st (t : task) :
  GInv st -> tasks st !! 0%nat = Some t ->
  exists evs st',
    steps st evs = Some st' /\ GInv st' /\ pc st' = pc st /\
    requestDoneCh (wr st') <> [] /\ work st' = work st.
Proof.
intros HG Hi.
assert (tasks st <> []) as Hne by (by intros E; rewrite E in Hi).
pose proof (GInv_has_tasks st HG Hne) as Hrun.
assert (halted (pc st) = false) as Hh by (by destruct (pc st)).
assert (forall st1 count,
          GInv st1 -> tasks st1 !! 0%nat = Some (mkTask count Signalling) ->
          exists st',
            step st1 (EvSignal 0) = Some st' /\ GInv st' /\ pc st' = pc st1 /\
            requestDoneCh (wr st') <> [] /\ work st' = work st1) as Hsig.
{ intros st1 count HG1 H1. pose proof (step_signal _ _ _ HG1 H1) as E.
  eexists. split; [exact E |].
  split; [by eapply GInv_step |]. split; [done |].
  cbn [wr set_tasks set_wr]. winv. split; [by destruct (requestDoneCh (wr st1)) |].
  unfold work, held. cbn [wr tasks set_tasks set_wr]. winv.
  rewrite length_app, length_delete by eauto. cbn [length].
  destruct (tasks st1); [done |]. cbn [length]. lia. }
assert (forall st1 count c,
          GInv st1 -> tasks st1 !! 0%nat = Some (mkTask count (Returning c)) ->
          exists evs st',
            steps st1 evs = Some st' /\ GInv st' /\ pc st' = pc st1 /\
            requestDoneCh (wr st') <> [] /\ work st' = work st1) as Hback.
{ intros st1 count c HG1 H1. pose proof (step_sliceBack _ _ _ _ HG1 H1) as E.
  pose proof (GInv_step _ _ _ HG1 E) as HG2.
  destruct (Hsig _ count HG2) as (st' & E' & HG' & Hpc' & Hch' & Hw').
  { cbn [tasks set_phase set_tasks set_wr]. rewrite list_lookup_alter, H1. done. }
  exists [EvSliceBack 0; EvSignal 0], st'. cbn [steps]. rewrite E, E'.
  split; [done |]. split; [done |]. split; [by rewrite Hpc' |].
  split; [done |]. rewrite Hw'. unfold work, held.
  cbn [wr tasks set_phase set_tasks set_wr]. winv. by rewrite length_alter. }
destruct t as [count [c | c |]].
- pose proof (step_sendReturns st 0 count c false Hh Hi) as E.
  pose proof (GInv_step _ _ _ HG E) as HG2.
  destruct (Hback _ count c HG2) as (evs & st' & E' & HG' & Hpc' & Hch' & Hw').
  { cbn [tasks set_phase set_tasks set_wr]. rewrite list_lookup_alter, Hi. done. }
  exists (EvSendReturns 0 false :: evs), st'. cbn [steps]. rewrite E.
  split; [done |]. split; [done |]. split; [by rewrite Hpc' |].
  split; [done |]. rewrite Hw'. unfold work, held.
  cbn [wr tasks set_phase set_tasks set_wr]. winv. by rewrite length_alter.
- by apply (Hback st count c).
- destruct (Hsig st count HG Hi) as (st' & E & H). exists [EvSignal 0], st'.
  cbn [steps]. by rewrite E.
Qed.

(** [waitForRequests] comes to its end, [run] returns and the goroutine
    closes [shutdownFlag]. *)
Lemma wait_finishes (n : nat) st :
  GInv st -> pc st = Loop InWaitForRequests -> (work st <= n)%nat ->
  exists evs st', steps st evs = Some st' /\ pc st' = Exited.
Proof.
revert st. induction n as [| n IH]; intros st HG Hpc Hn.
- (* nothing is left *)
  assert (running (pc st) = true) as Hrun by (by rewrite Hpc).
  destruct (GInv_WInv _ HG Hrun) as [Hinv Hflag].
  pose proof (inv_active _ _ Hinv) as Hact. unfold work in Hn.
  exists [EvReturn; EvClose]. eexists. cbn [steps]. unfold step at 1.
  rewrite Hpc. cbn [halted].
  destruct (Z.ltb_spec 0 (requestsActive (wr st))); [lia |].
  unfold step. cbn [pc set_pc halted wr]. rewrite Hflag. done.
- assert (running (pc st) = true) as Hrun by (by rewrite Hpc).
  destruct (GInv_WInv _ HG Hrun) as [Hinv Hflag].
  pose proof (inv_active _ _ Hinv) as Hact.
  destruct (requestDoneCh (wr st)) as [| count ch] eqn:Hch.
  + destruct (tasks st) as [| t ts] eqn:Hts.
    * exists [EvReturn; EvClose]. eexists. cbn [steps]. unfold step at 1.
      rewrite Hpc. cbn [halted]. cbn [length] in Hact.
      destruct (Z.ltb_spec 0 (requestsActive (wr st))); [lia |].
      unfold step. cbn [pc set_pc halted wr]. rewrite Hflag. done.
    * destruct (task_finishes st t HG) as (evs1 & st1 & E1 & HG1 & Hpc1 & Hch1 & Hw1);
        [by rewrite Hts |].
      rewrite Hpc in Hpc1.
      destruct (wait_recv st1 HG1 Hpc1 Hch1) as (st2 & E2 & HG2 & Hpc2 & Hw2).
      destruct (IH st2 HG2 Hpc2) as (evs3 & st3 & E3 & Hpc3); [lia |].
      exists (evs1 ++ EvRequestDone :: evs3), st3.
      rewrite steps_app, E1. cbn [steps]. by rewrite E2.
  + destruct (wait_recv st HG Hpc) as (st2 & E2 & HG2 & Hpc2 & Hw2);
      [by rewrite Hch |].
    destruct (IH st2 HG2 Hpc2) as (evs3 & st3 & E3 & Hpc3); [lia |].
    exists (EvRequestDone :: evs3), st3. cbn [steps]. by rewrite E2.
Qed.

(** [processInput] comes to the end of its batch. *)
Lemma batch_finishes (rest : list (option Instance)) :
  forall (inst : option Instance) back st,
    GInv st -> pc st = InBatch (inst :: rest) back ->
    exists evs st', steps st evs = Some st' /\ GInv st' /\ pc st' = Loop back.
Proof.
induction rest as [| x rest IH]; intros inst back st HG Hpc.
all: assert (running (pc st) = true) as Hrun by (by rewrite Hpc).
all: destruct (GInv_WInv _ HG Hrun) as [Hinv Hflag].
all: pose proof (keeps_processItem inst _ _ Hinv) as Hk.
- destruct (commit_keeps st (Loop back) (processItem inst) Hrun eq_refl HG Hk)
    as (HG' & Hpc' & _).
  exists [EvItem], (commit st (Loop back) (processItem inst)).
  cbn [steps]. unfold step. rewrite Hpc. cbn [halted afterBatch]. done.
- destruct (commit_keeps st (InBatch (x :: rest) back) (processItem inst)
              Hrun eq_refl HG Hk) as (HG' & Hpc' & _).
  destruct (IH x back _ HG' Hpc') as (evs & st' & E & HG'' & Hpc'').
  exists (EvItem :: evs), st'. cbn [steps]. unfold step at 1.
  rewrite Hpc. cbn [halted afterBatch]. done.
Qed.

(** From the select of [drainInput] on. *)
Lemma drain_finishes st :
  GInv st -> pc st = Loop InDrain ->
  exists evs st', steps st evs = Some st' /\ pc st' = Exited.
Proof.
intros HG Hpc.
assert (running (pc st) = true) as Hrun by (by rewrite Hpc).
destruct (GInv_WInv _ HG Hrun) as [Hinv Hflag].
pose proof (keeps_tryToSendChunk _ _ Hinv) as Hk.
destruct (commit_keeps st (Loop InWaitForRequests) tryToSendChunk Hrun eq_refl HG Hk)
  as (HG' & Hpc' & _).
destruct (wait_finishes _ _ HG' Hpc' (Nat.le_refl _)) as (evs & st' & E & Hpc'').
exists (EvDefault :: evs), st'. cbn [steps]. unfold step at 1.
rewrite Hpc. cbn [halted]. done.
Qed.

(** From a select of the main loop on. *)
Lemma select_finishes st :
  GInv st -> pc st = Loop AtSelect \/ pc st = Loop AtBlockingSelect ->
  exists evs st', steps st evs = Some st' /\ pc st' = Exited.
Proof.
intros HG Hpc.
assert (step st EvCancel = Some (set_ctxDone true st)) as E1.
{ unfold step. by destruct Hpc as [-> | ->]. }
assert (step (set_ctxDone true st) EvCtxDone =
          Some (set_pc (Loop InDrain) (set_ctxDone true st))) as E2.
{ unfold step. cbn [pc set_ctxDone ctxDone]. by destruct Hpc as [-> | ->]. }
pose proof (GInv_step _ _ _ (GInv_step _ _ _ HG E1) E2) as HG2.
destruct (drain_finishes _ HG2 eq_refl) as (evs & st' & E & Hpc').
exists (EvCancel :: EvCtxDone :: evs), st'. cbn [steps]. by rewrite E1, E2.
Qed.
(** ** Further properties of the writer *)

Lemma sumZ_bound (M : Z) (l : list Z) :
  Forall (fun c => 0 < c <= M) l -> 0 <= sumZ l <= Z.of_nat (length l) * M.
Proof.
induction 1 as [| c l Hc _ IH]; cbn [sumZ foldr length]; [lia |].
fold (sumZ l). nia.
Qed.

Lemma sumCounts_bound (M : Z) ts :
  Forall (fun t : task => 0 < tcount t <= M) ts ->
  0 <= sumCounts ts <= Z.of_nat (length ts) * M.
Proof.
intros H. unfold sumCounts.
rewrite <- (length_fmap tcount ts). apply sumZ_bound. by apply Forall_fmap.
Qed.

Lemma cong64_eq (a b : Z) : cong64 a b -> in_int64 a -> in_int64 b -> a = b.
Proof. cong. Qed.


(** X1.  [getChunkSlice] never waits where [tryToSendChunk] calls it: in
    every reachable state in which fewer than [MaxRequests] requests are
    active the cache holds a slice, and for a size up to [MaxBatchSize]
    [getChunkSlice] returns it at once, with that length and the capacity
    [MaxBatchSize]. *)
Theorem getChunkSlice_never_waits st (size : nat) :
  reachable st -> started (pc st) = true ->
  requestsActive (wr st) < MaxRequests (wr st) ->
  Z.of_nat size <= MaxBatchSize (wr st) ->
  exists s cache s',
    chunkSliceCache (wr st) = s :: cache /\
    getChunkSlice size (wr st) = Ok s' (set_chunkSliceCache cache (wr st)) [] /\
    slen s' = size /\ Z.of_nat (cap s') = MaxBatchSize (wr st).
Proof.
intros Hreach Hst Hlt Hsize.
pose proof (reachable_WInv st Hreach Hst) as Hinv.
destruct (cache_nonempty _ _ Hinv Hlt) as (s & cache & Hc).
pose proof (inv_cache _ _ Hinv) as Hcache. rewrite Hc in Hcache.
apply Forall_cons in Hcache as [(Hcap & _) _].
exists s, cache, (mkSlice (arr (nilAbove size s)) size).
split; [done |]. split; [| split; [done |]].
- unfold getChunkSlice. rewrite bind_get, Hc, bind_modify.
  unfold reslice. rewrite cap_nilAbove.
  by destruct (Nat.leb_spec size (cap s)); [| lia].
- change (cap (mkSlice (arr (nilAbove size s)) size)) with (cap (nilAbove size s)).
  by rewrite cap_nilAbove.
Qed.



(** X4.  [TotalInFlight] is the number of records held by the send
    goroutines and by the completions not yet received: as an [int64]
    always, and exactly as long as [MaxRequests * MaxBatchSize] fits an
    [int64]. *)
Theorem TotalInFlight_counts st :
  reachable st -> started (pc st) = true ->
  cong64 (TotalInFlight (wr st))
         (sumCounts (tasks st) + sumZ (requestDoneCh (wr st))) /\
  (MaxRequests (wr st) * MaxBatchSize (wr st) <= max_int64 ->
   TotalInFlight (wr st) = sumCounts (tasks st) + sumZ (requestDoneCh (wr st))).
Proof.
intros Hreach Hst.
pose proof (reachable_AInv st Hreach) as [Hfl Hrg _ _ [Hct Hcc]].
pose proof (reachable_WInv st Hreach Hst) as Hinv.
split; [done |]. intros Hfit.
apply cong64_eq; [done | done |].
pose proof (sumCounts_bound _ _ Hct). pose proof (sumZ_bound _ _ Hcc).
pose proof (inv_active _ _ Hinv). pose proof (inv_bound _ _ Hinv).
pose proof (inv_mbs _ _ Hinv).
unfold in_int64, min_int64, max_int64 in *. nia.
Qed.

(** X5.  No record is lost from the books: [TotalReceived] is, as an
    [int64], the sum of the records filtered out, overwritten, still in
    the buffer, still to come in the batch [processInput] is handling, in
    a [SendFunc] that has not returned, sent, and failed. *)
Theorem received_accounted st :
  reachable st ->
  cong64 (TotalReceived (wr st))
         (TotalFilteredOut (wr st) + TotalOverwritten (wr st) +
          buffered (wr st) + pending (pc st) + sumSending (tasks st) +
          TotalSent (wr st) + TotalFailedToSend (wr st)).
Proof. intros Hreach. by destruct (reachable_AInv st Hreach). Qed.



(** X8.  A full batch never waits while a send slot is free: whenever
    the coordinating goroutine is between two of its calls and the buffer
    holds [MaxBatchSize] unprocessed entries or more, [MaxRequests]
    requests are active and [totalWaiting] is positive, so that the next
    completion received sends a batch. *)
Theorem full_batch_never_idles st b :
  reachable st -> started (pc st) = true -> buff (wr st) = Some b ->
  MaxBatchSize (wr st) <= Z.of_nat (UnprocessedCount b) ->
  requestsActive (wr st) = MaxRequests (wr st) /\ 0 < totalWaiting (wr st).
Proof.
intros Hreach Hst Hb Hfull.
destruct (reachable_busy st Hreach Hst) as (b0 & Hb0 & Hbusy).
assert (b0 = b) as -> by congruence. by apply Hbusy.
Qed.

(** X9.  Every send carries between one and [MaxBatchSize] records:
    [SendFunc] is never called with an empty batch, and the counts that
    travel on [requestDoneCh] are in the same range. *)
Theorem batches_within_MaxBatchSize st :
  reachable st ->
  (forall t, t ∈ tasks st -> 0 < tcount t <= MaxBatchSize (wr st)) /\
  (forall c, c ∈ requestDoneCh (wr st) -> 0 < c <= MaxBatchSize (wr st)).
Proof.
intros Hreach. destruct (reachable_AInv st Hreach) as [_ _ _ _ [Hct Hcc]].
split; by apply Forall_forall.
Qed.

(** X10.  Records leave in the order they came in: along every run, what
    was given to [SendFunc] so far, followed by what the buffer holds, is
    what was put in the buffer with some records left out (those
    overwritten); none is sent twice, none is made up and none overtakes
    another. *)
Theorem records_leave_in_order w0 (evs : list event) st :
  fresh w0 -> steps (boot w0) evs = Some st ->
  dispatched (boot w0) evs ++ held (wr st) `sublist_of` accepted (boot w0) evs.
Proof.
intros Hfresh. revert st.
induction evs as [| ev evs IH] using rev_ind; intros st Hsteps.
- injection Hsteps as <-. destruct Hfresh as (pre & ovw & mb & mr & mbs & -> & _).
  done.
- rewrite steps_snoc in Hsteps.
  destruct (steps (boot w0) evs) as [st1 |] eqn:E; [| done].
  assert (reachable st1) as Hreach by (by exists w0, evs).
  pose proof (step_transition _ _ _ (reachable_GInv _ Hreach) Hsteps) as Htr.
  unfold dispatched, accepted. rewrite (trace_snoc _ _ _ _ _ E Hsteps).
  rewrite !flat_map_app. cbn [flat_map fst snd]. rewrite !app_nil_r.
  rewrite <- app_assoc.
  etransitivity.
  + apply sublist_app; [reflexivity | by apply transition_order].
  + rewrite app_assoc. apply sublist_app; [| done]. by apply IH.
Qed.

(** X11.  [totalWaiting] never exceeds the number of unprocessed entries
    of the buffer, which never exceeds [MaxBuffered]. *)
Theorem totalWaiting_within_buffer st :
  reachable st -> started (pc st) = true ->
  0 <= totalWaiting (wr st) <= buffered (wr st) /\
  buffered (wr st) <= MaxBuffered (wr st).
Proof.
intros Hreach Hst.
destruct (inv_buff _ _ (reachable_WInv st Hreach Hst))
  as (b & Hb & (_ & _ & Hu) & HS & Htw).
unfold buffered, UnprocessedCount. rewrite Hb. lia.
Qed.

(** X12.  The slices of the writer are the [MaxRequests] ones [run]
    made: at any time each is in the cache or with a send goroutine that
    has not given it back, and each has capacity [MaxBatchSize]. *)
Theorem slices_are_pooled st :
  reachable st -> started (pc st) = true ->
  Z.of_nat (length (chunkSliceCache (wr st)) + holding (tasks st)) =
    MaxRequests (wr st) /\
  (forall s, s ∈ chunkSliceCache (wr st) ->
     Z.of_nat (cap s) = MaxBatchSize (wr st)) /\
  (forall t c, t ∈ tasks st -> tphase t = Sending c \/ tphase t = Returning c ->
     Z.of_nat (cap c) = MaxBatchSize (wr st)).
Proof.
intros Hreach Hst.
pose proof (reachable_WInv st Hreach Hst) as Hinv.
split; [apply (inv_pool _ _ Hinv) |]. split.
- intros s Hs.
  by destruct (proj1 (Forall_forall _ _) (inv_cache _ _ Hinv) s Hs).
- intros t c Ht Hph.
  pose proof (proj1 (Forall_forall _ _) (inv_tasks _ _ Hinv) t Ht) as Hok.
  unfold task_ok in Hok.
  by destruct Hph as [E | E]; rewrite E in Hok; destruct Hok as [[? _] _].
Qed.

(** X13.  A send goroutine never blocks on its two channel sends: when
    it gives its slice back [chunkSliceCache] has room, and when it
    signals its completion [requestDoneCh] has room. *)
Theorem send_goroutine_never_blocks st (i : nat) (count : Z) :
  reachable st ->
  (forall c, tasks st !! i = Some (mkTask count (Returning c)) ->
     Z.of_nat (length (chunkSliceCache (wr st))) < MaxRequests (wr st) /\
     step st (EvSliceBack i) =
       Some (set_phase i Signalling
               (set_wr (set_chunkSliceCache (chunkSliceCache (wr st) ++ [c])
                          (wr st)) st))) /\
  (tasks st !! i = Some (mkTask count Signalling) ->
   Z.of_nat (length (requestDoneCh (wr st))) < MaxRequests (wr st) /\
   step st (EvSignal i) =
     Some (set_tasks (delete i (tasks st))
             (set_wr (set_requestDoneCh (requestDoneCh (wr st) ++ [count])
                        (wr st)) st))).
Proof.
intros HG%reachable_GInv.
assert (forall t, tasks st !! i = Some t -> WInv (wr st) (tasks st)) as Hinv.
{ intros t Hi.
  assert (tasks st <> []) as Hne by (by intros E; rewrite E in Hi).
  by destruct (GInv_WInv _ HG (GInv_has_tasks st HG Hne)). }
split.
- intros c Hi. split; [| by apply (step_sliceBack st i count c)].
  by destruct (WInv_sliceBack _ _ i count c (Hinv _ Hi) Hi).
- intros Hi. split; [| by apply (step_signal st i count)].
  by destruct (WInv_signal _ _ i count (Hinv _ Hi) Hi).
Qed.

(** X14.  Shutdown can always complete: from every reachable state in
    which [run] has reached its loop the run can go on (the context is
    cancelled, the batch being handled is finished, the sends in flight
    return) until the goroutine has closed [shutdownFlag], and
    [WaitForShutdown] returns. *)
Theorem shutdown_can_complete st :
  reachable st -> started (pc st) = true ->
  exists evs st',
    steps st evs = Some st' /\ pc st' = Exited /\
    WaitForShutdown (wr st') = WaitReturns.
Proof.
intros Hreach Hst.
pose proof (reachable_GInv st Hreach) as HG.
pose proof (reachable_DInv st Hreach) as HD.
assert (exists evs st', steps st evs = Some st' /\ pc st' = Exited)
  as (evs & st' & E & Hpc').
{ destruct (pc st) as [| | [] | rest back | | | |] eqn:Hpc; try done.
  - apply select_finishes; auto.
  - apply select_finishes; auto.
  - by apply drain_finishes.
  - by apply (wait_finishes (work st)).
  - unfold DInv in HD. rewrite Hpc in HD.
    destruct rest as [| inst rest]; [by destruct HD |].
    destruct (batch_finishes rest inst back st HG Hpc)
      as (evs1 & st1 & E1 & HG1 & Hpc1).
    assert (exists evs2 st2, steps st1 evs2 = Some st2 /\ pc st2 = Exited)
      as (evs2 & st2 & E2 & Hpc2).
    { destruct HD as [_ [-> | ->]];
        [apply select_finishes; auto | by apply drain_finishes]. }
    exists (evs1 ++ evs2), st2. by rewrite steps_app, E1.
  - exists [EvClose]. eexists. cbn [steps]. unfold step. rewrite Hpc.
    cbn [halted]. unfold GInv in HG. rewrite Hpc in HG.
    destruct HG as (_ & -> & _). done.
  - by exists [], st. }
exists evs, st'. split; [done |]. split; [done |].
pose proof (GInv_steps _ _ _ HG E) as HG'. unfold GInv in HG'.
rewrite Hpc' in HG'. destruct HG' as (_ & Hf & _).
unfold WaitForShutdown. by rewrite Hf.
Qed.


(** X16.  The coordinating goroutine never waits on a backlog that
    nothing will wake: when it is in the select without default of the
    main loop, or in [waitForRequests], and the buffer holds unprocessed
    entries, a request is active and [totalWaiting] is the number of
    those entries, so that the completion of that request sends the next
    batch. *)
Theorem backlog_has_a_waker st b :
  reachable st ->
  pc st = Loop AtBlockingSelect \/ pc st = Loop InWaitForRequests ->
  buff (wr st) = Some b -> (0 < UnprocessedCount b)%nat ->
  0 < requestsActive (wr st) /\
  totalWaiting (wr st) = Z.of_nat (UnprocessedCount b) /\
  (tasks st <> [] \/ requestDoneCh (wr st) <> []).
Proof.
intros Hreach Hpc Hb Hu.
pose proof (reachable_DInv st Hreach) as HD.
assert (started (pc st) = true) as Hst by (by destruct Hpc as [-> | ->]).
pose proof (inv_active _ _ (reachable_WInv st Hreach Hst)) as Hact.
assert (settled (wr st)) as (b0 & Hb0 & Htw & Hwake).
{ unfold DInv in HD. by destruct Hpc as [E | E]; rewrite E in HD. }
assert (b0 = b) as -> by congruence. unfold UnprocessedCount in *.
split; [apply Hwake; lia |]. split; [done |].
destruct (tasks st); [| by left]. right.
destruct (requestDoneCh (wr st)); [| done].
cbn [length] in Hact. lia.
Qed.

(** X17.  Records are overwritten under back-pressure only: when
    [MaxBatchSize] is at most [MaxBuffered], an instance can find the
    buffer full (so that [Add] overwrites) only while [MaxRequests]
    requests are active. *)
Theorem overwrite_only_when_saturated st b (inst : option Instance) :
  reachable st -> started (pc st) = true -> buff (wr st) = Some b ->
  MaxBatchSize (wr st) <= MaxBuffered (wr st) ->
  (Add b inst).2 = true ->
  requestsActive (wr st) = MaxRequests (wr st) /\ 0 < totalWaiting (wr st).
Proof.
intros Hreach Hst Hb Hle Hov.
destruct (reachable_busy st Hreach Hst) as (b0 & Hb0 & Hbusy).
destruct (inv_buff _ _ (reachable_WInv st Hreach Hst)) as (b1 & Hb1 & _ & HS & _).
assert (b0 = b) as -> by congruence. assert (b1 = b) as -> by congruence.
rewrite Add_overwrote in Hov. apply bool_decide_eq_true in Hov.
apply Hbusy. lia.
Qed.
End Facts.
(** ** The claims on a run *)

Ltac reach w evs :=
  exists w, evs; split;
  [ exists None, false, 8, 1, 2; split; [reflexivity |];
    unfold in_int64, min_int64, max_int64; lia
  | vm_compute; reflexivity ].

Lemma requestsActive_bounded_witness :
  reachable (stateAfter backlogWriter toSending) /\
  started (pc (stateAfter backlogWriter toSending)) = true /\
  Z.of_nat (executing (tasks (stateAfter backlogWriter toSending))) <=
    requestsActive (wr (stateAfter backlogWriter toSending)) /\
  requestsActive (wr (stateAfter backlogWriter toSending)) <=
    MaxRequests (wr (stateAfter backlogWriter toSending)).
Proof.
assert (reachable (stateAfter backlogWriter toSending)) as Hreach
  by reach backlogWriter toSending.
split; [exact Hreach |]. split; [reflexivity |].
destruct (requestsActive_bounded _ Hreach eq_refl) as (H1 & H2 & _).
split; [exact H1 | exact H2].
Defined.

Lemma tryToSendChunk_empty_noop_witness :
  reachable (stateAfter backlogWriter [EvStart; EvRun]) /\
  buff (wr (stateAfter backlogWriter [EvStart; EvRun])) =
    Some (Ring.mkRing (replicate 8 None) 0 0) /\
  tryToSendChunk (wr (stateAfter backlogWriter [EvStart; EvRun])) =
    Ok tt (wr (stateAfter backlogWriter [EvStart; EvRun])) [].
Proof.
assert (reachable (stateAfter backlogWriter [EvStart; EvRun])) as Hreach
  by reach backlogWriter [@EvStart nat; EvRun].
split; [exact Hreach |]. split; [reflexivity |].
apply (tryToSendChunk_empty_noop _ (Ring.mkRing (replicate 8 None) 0 0)
         Hreach eq_refl eq_refl).
Defined.

Lemma getChunkSlice_clears_tail_witness :
  reachable (stateAfter backlogWriter toSliceBack) /\
  chunkSliceCache (wr (stateAfter backlogWriter toSliceBack)) =
    [mkSlice [Some 1; Some 2]%nat 2] /\
  exists s',
    getChunkSlice 1 (wr (stateAfter backlogWriter toSliceBack)) =
      Ok s' (set_chunkSliceCache [] (wr (stateAfter backlogWriter toSliceBack))) [] /\
    slen s' = 1%nat /\ arr s' !! 1%nat = Some None.
Proof.
assert (reachable (stateAfter backlogWriter toSliceBack)) as Hreach
  by reach backlogWriter toSliceBack.
split; [exact Hreach |]. split; [reflexivity |].
assert (1 <= cap (mkSlice [Some 1; Some 2]%nat 2))%nat as Hsize
  by (vm_compute; lia).
destruct (getChunkSlice_clears_tail _ (mkSlice [Some 1; Some 2]%nat 2) [] 1
            Hreach eq_refl Hsize) as [(s' & E & Hlen & _ & Hnil & _) _].
exists s'. split; [exact E |]. split; [exact Hlen |].
apply Hnil. vm_compute. lia.
Defined.

Lemma WaitForShutdown_spec_witness :
  reachable (boot backlogWriter) /\
  WaitForShutdown (wr (boot backlogWriter)) =
    WaitPanics "should not wait for writer shutdown when not running" /\
  reachable (stateAfter backlogWriter toSending) /\
  WaitForShutdown (wr (stateAfter backlogWriter toSending)) = WaitBlocks /\
  reachable (stateAfter backlogWriter toExited) /\
  WaitForShutdown (wr (stateAfter backlogWriter toExited)) = WaitReturns.
Proof.
assert (reachable (boot backlogWriter)) as Hreach0
  by reach backlogWriter (@nil (@event nat)).
assert (reachable (stateAfter backlogWriter toSending)) as Hreach1
  by reach backlogWriter toSending.
assert (reachable (stateAfter backlogWriter toExited)) as Hreach2
  by reach backlogWriter toExited.
split; [exact Hreach0 |]. split; [apply (WaitForShutdown_spec _ Hreach0) |].
split; [exact Hreach1 |]. split; [apply (WaitForShutdown_spec _ Hreach1) |].
split; [exact Hreach2 |]. apply (WaitForShutdown_spec _ Hreach2).
Defined.

Lemma defaults_then_immutable_witness :
  config (applyDefaults (NewWriter (@None (option nat -> bool)) false 0 0 0)) =
    (10000, 10, 1000) /\
  reachable (stateAfter backlogWriter toSending) /\
  step (stateAfter backlogWriter toSending) (EvSendReturns 0 false) =
    Some (stateAfter backlogWriter (toSending ++ [EvSendReturns 0 false])) /\
  config (wr (stateAfter backlogWriter (toSending ++ [EvSendReturns 0 false]))) =
    config (wr (stateAfter backlogWriter toSending)).
Proof.
destruct (@defaults_then_immutable nat) as (Hdef & _ & Himm).
split; [apply (Hdef (NewWriter None false 0 0 0)) |].
assert (reachable (stateAfter backlogWriter toSending)) as Hreach
  by reach backlogWriter toSending.
split; [exact Hreach |].
assert (step (stateAfter backlogWriter toSending) (EvSendReturns 0 false) =
          Some (stateAfter backlogWriter (toSending ++ [EvSendReturns 0 false])))
  as Hstep by (vm_compute; reflexivity).
split; [exact Hstep |].
apply (Himm _ _ _ Hreach eq_refl Hstep).
Defined.

Lemma sink_failure_only_counts_witness :
  reachable (stateAfter backlogWriter toSending) /\
  tasks (stateAfter backlogWriter toSending) !! 0%nat =
    Some (mkTask 2 (Sending (mkSlice [Some 1; Some 2]%nat 2))) /\
  exists st',
    step (stateAfter backlogWriter toSending) (EvSendReturns 0 true) = Some st' /\
    TotalFailedToSend (wr st') =
      add64 (TotalFailedToSend (wr (stateAfter backlogWriter toSending))) 2 /\
    TotalSent (wr st') = TotalSent (wr (stateAfter backlogWriter toSending)).
Proof.
assert (reachable (stateAfter backlogWriter toSending)) as Hreach
  by reach backlogWriter toSending.
split; [exact Hreach |]. split; [reflexivity |].
destruct (sink_failure_only_counts _ 0 2 (mkSlice [Some 1; Some 2]%nat 2)
            Hreach eq_refl) as (_ & (st' & Hstep & Hfail & Hsent & _) & _).
exists st'. split; [exact Hstep |]. split; [exact Hfail | exact Hsent].
Defined.

Lemma completion_dispatches_backlog_witness :
  reachable (stateAfter backlogWriter toSignalled) /\
  requestDoneCh (wr (stateAfter backlogWriter toSignalled)) = [2] /\
  totalWaiting (wr (stateAfter backlogWriter toSignalled)) = 3 /\
  exists w' c,
    recvRequestDone (wr (stateAfter backlogWriter toSignalled)) =
      Ok tt w' [Spawn 2 c] /\
    elems c = [Some 3; Some 4]%nat /\
    contents_of w' = Some [Some 5%nat].
Proof.
assert (reachable (stateAfter backlogWriter toSignalled)) as Hreach
  by reach backlogWriter toSignalled.
split; [exact Hreach |]. split; [reflexivity |]. split; [reflexivity |].
destruct (completion_dispatches_backlog _ 2 [] Hreach eq_refl eq_refl)
  as (Hrecv & _ & _ & _ & _ & Hgo).
assert (0 < totalWaiting (wr (stateAfter backlogWriter toSignalled))) as Hpos
  by (vm_compute; reflexivity).
destruct (Hgo Hpos) as (b & s & cache & Hb & Hc & _ & _ & E & He & Hrest).
assert (b = Ring.mkRing
              [None; None; Some 3; Some 4; Some 5; None; None; None]%nat 2 3)
  as -> by (vm_compute in Hb; congruence).
eexists _, _. split; [rewrite Hrecv; exact E |].
split; [exact He | exact Hrest].
Defined.


(** ** The further properties on a run *)

Ltac reachFrom w mb mr mbs evs :=
  exists w, evs; split;
  [ exists None, false, mb, mr, mbs; split; [reflexivity |];
    unfold in_int64, min_int64, max_int64; lia
  | vm_compute; reflexivity ].

Lemma getChunkSlice_never_waits_witness :
  reachable (stateAfter backlogWriter [EvStart; EvRun]) /\
  exists s cache s',
    chunkSliceCache (wr (stateAfter backlogWriter [EvStart; EvRun])) = s :: cache /\
    getChunkSlice 2 (wr (stateAfter backlogWriter [EvStart; EvRun])) =
      Ok s' (set_chunkSliceCache cache (wr (stateAfter backlogWriter [EvStart; EvRun])))
         [] /\
    slen s' = 2%nat.
Proof.
assert (reachable (stateAfter backlogWriter [EvStart; EvRun])) as Hreach
  by reach backlogWriter [@EvStart nat; EvRun].
split; [exact Hreach |].
assert (requestsActive (wr (stateAfter backlogWriter [EvStart; EvRun])) <
        MaxRequests (wr (stateAfter backlogWriter [EvStart; EvRun]))) as Hlt
  by (vm_compute; reflexivity).
assert (Z.of_nat 2 <= MaxBatchSize (wr (stateAfter backlogWriter [EvStart; EvRun])))
  as Hsize by (vm_compute; discriminate).
destruct (getChunkSlice_never_waits _ 2 Hreach eq_refl Hlt Hsize)
  as (s & cache & s' & Hc & E & Hlen & _).
exists s, cache, s'. split; [exact Hc |]. split; [exact E | exact Hlen].
Defined.



Lemma TotalInFlight_counts_witness :
  reachable (stateAfter backlogWriter toSending) /\
  TotalInFlight (wr (stateAfter backlogWriter toSending)) =
    sumCounts (tasks (stateAfter backlogWriter toSending)) +
    sumZ (requestDoneCh (wr (stateAfter backlogWriter toSending))).
Proof.
assert (reachable (stateAfter backlogWriter toSending)) as Hreach
  by reach backlogWriter toSending.
split; [exact Hreach |].
destruct (TotalInFlight_counts _ Hreach eq_refl) as [_ Hexact].
apply Hexact. vm_compute. discriminate.
Defined.

Lemma received_accounted_witness :
  reachable (stateAfter backlogWriter toSending) /\
  cong64 (TotalReceived (wr (stateAfter backlogWriter toSending)))
         (TotalFilteredOut (wr (stateAfter backlogWriter toSending)) +
          TotalOverwritten (wr (stateAfter backlogWriter toSending)) +
          buffered (wr (stateAfter backlogWriter toSending)) +
          pending (pc (stateAfter backlogWriter toSending)) +
          sumSending (tasks (stateAfter backlogWriter toSending)) +
          TotalSent (wr (stateAfter backlogWriter toSending)) +
          TotalFailedToSend (wr (stateAfter backlogWriter toSending))).
Proof.
assert (reachable (stateAfter backlogWriter toSending)) as Hreach
  by reach backlogWriter toSending.
split; [exact Hreach |]. apply (received_accounted _ Hreach).
Defined.



Lemma full_batch_never_idles_witness :
  reachable (stateAfter backlogWriter toSending) /\
  buff (wr (stateAfter backlogWriter toSending)) =
    Some (Ring.mkRing
            [None; None; Some 3; Some 4; Some 5; None; None; None]%nat 2 3) /\
  requestsActive (wr (stateAfter backlogWriter toSending)) =
    MaxRequests (wr (stateAfter backlogWriter toSending)) /\
  0 < totalWaiting (wr (stateAfter backlogWriter toSending)).
Proof.
assert (reachable (stateAfter backlogWriter toSending)) as Hreach
  by reach backlogWriter toSending.
split; [exact Hreach |]. split; [reflexivity |].
apply (full_batch_never_idles _
         (Ring.mkRing [None; None; Some 3; Some 4; Some 5; None; None; None]%nat 2 3)
         Hreach eq_refl eq_refl).
vm_compute. discriminate.
Defined.

Lemma batches_within_MaxBatchSize_witness :
  reachable (stateAfter backlogWriter toSending) /\
  forall t, t ∈ tasks (stateAfter backlogWriter toSending) ->
    0 < tcount t <= MaxBatchSize (wr (stateAfter backlogWriter toSending)).
Proof.
assert (reachable (stateAfter backlogWriter toSending)) as Hreach
  by reach backlogWriter toSending.
split; [exact Hreach |]. apply (batches_within_MaxBatchSize _ Hreach).
Defined.

Lemma records_leave_in_order_witness :
  steps (boot backlogWriter) toSending =
    Some (stateAfter backlogWriter toSending) /\
  dispatched (boot backlogWriter) toSending ++
    held (wr (stateAfter backlogWriter toSending))
    `sublist_of` accepted (boot backlogWriter) toSending.
Proof.
assert (fresh backlogWriter) as Hfresh.
{ exists None, false, 8, 1, 2. split; [reflexivity |].
  unfold in_int64, min_int64, max_int64. lia. }
assert (steps (boot backlogWriter) toSending =
          Some (stateAfter backlogWriter toSending)) as Hsteps
  by (vm_compute; reflexivity).
split; [exact Hsteps |].
apply (records_leave_in_order backlogWriter toSending _ Hfresh Hsteps).
Defined.

Lemma totalWaiting_within_buffer_witness :
  reachable (stateAfter backlogWriter toSending) /\
  totalWaiting (wr (stateAfter backlogWriter toSending)) <=
    buffered (wr (stateAfter backlogWriter toSending)).
Proof.
assert (reachable (stateAfter backlogWriter toSending)) as Hreach
  by reach backlogWriter toSending.
split; [exact Hreach |].
apply (totalWaiting_within_buffer _ Hreach eq_refl).
Defined.

Lemma slices_are_pooled_witness :
  reachable (stateAfter backlogWriter toSending) /\
  Z.of_nat (length (chunkSliceCache (wr (stateAfter backlogWriter toSending))) +
            holding (tasks (stateAfter backlogWriter toSending))) =
    MaxRequests (wr (stateAfter backlogWriter toSending)).
Proof.
assert (reachable (stateAfter backlogWriter toSending)) as Hreach
  by reach backlogWriter toSending.
split; [exact Hreach |].
apply (slices_are_pooled _ Hreach eq_refl).
Defined.

Lemma send_goroutine_never_blocks_witness :
  reachable (stateAfter backlogWriter (toSending ++ [EvSendReturns 0 false])) /\
  tasks (stateAfter backlogWriter (toSending ++ [EvSendReturns 0 false])) !! 0%nat =
    Some (mkTask 2 (Returning (mkSlice [Some 1; Some 2]%nat 2))) /\
  Z.of_nat (length (chunkSliceCache
                      (wr (stateAfter backlogWriter
                             (toSending ++ [EvSendReturns 0 false]))))) <
    MaxRequests (wr (stateAfter backlogWriter (toSending ++ [EvSendReturns 0 false]))).
Proof.
assert (reachable (stateAfter backlogWriter (toSending ++ [EvSendReturns 0 false])))
  as Hreach by reach backlogWriter (toSending ++ [EvSendReturns 0 false]).
split; [exact Hreach |]. split; [reflexivity |].
destruct (send_goroutine_never_blocks _ 0 2 Hreach) as [Hback _].
apply (Hback (mkSlice [Some 1; Some 2]%nat 2) eq_refl).
Defined.

Lemma shutdown_can_complete_witness :
  reachable (stateAfter backlogWriter toSending) /\
  exists evs st',
    steps (stateAfter backlogWriter toSending) evs = Some st' /\ pc st' = Exited.
Proof.
assert (reachable (stateAfter backlogWriter toSending)) as Hreach
  by reach backlogWriter toSending.
split; [exact Hreach |].
destruct (shutdown_can_complete _ Hreach eq_refl) as (evs & st' & E & Hpc & _).
exists evs, st'. split; [exact E | exact Hpc].
Defined.


Lemma backlog_has_a_waker_witness :
  reachable (stateAfter backlogWriter (toSending ++ [EvDefault])) /\
  pc (stateAfter backlogWriter (toSending ++ [EvDefault])) = Loop AtBlockingSelect /\
  buff (wr (stateAfter backlogWriter (toSending ++ [EvDefault]))) =
    Some (Ring.mkRing
            [None; None; Some 3; Some 4; Some 5; None; None; None]%nat 2 3) /\
  0 < requestsActive (wr (stateAfter backlogWriter (toSending ++ [EvDefault]))) /\
  totalWaiting (wr (stateAfter backlogWriter (toSending ++ [EvDefault]))) = 3.
Proof.
assert (reachable (stateAfter backlogWriter (toSending ++ [EvDefault]))) as Hreach
  by reach backlogWriter (toSending ++ [@EvDefault nat]).
split; [exact Hreach |]. split; [reflexivity |]. split; [reflexivity |].
assert (0 < UnprocessedCount
              (Ring.mkRing
                 [None; None; Some 3; Some 4; Some 5; None; None; None]%nat 2 3))%nat
  as Hu by (vm_compute; lia).
destruct (backlog_has_a_waker _ _ Hreach (or_introl eq_refl) eq_refl Hu)
  as (Hra & Htw & _).
split; [exact Hra | exact Htw].
Defined.

Lemma overwrite_only_when_saturated_witness :
  reachable (stateAfter (@NewWriter nat None false 2 1 2)
               [EvStart; EvRun; EvInput [Some 1; Some 2; Some 3; Some 4]%nat;
                EvItem; EvItem; EvItem; EvItem]) /\
  buff (wr (stateAfter (@NewWriter nat None false 2 1 2)
              [EvStart; EvRun; EvInput [Some 1; Some 2; Some 3; Some 4]%nat;
               EvItem; EvItem; EvItem; EvItem])) =
    Some (Ring.mkRing [Some 3; Some 4]%nat 0 2) /\
  (Add (Ring.mkRing [Some 3; Some 4]%nat 0 2) (Some 5%nat)).2 = true /\
  requestsActive (wr (stateAfter (@NewWriter nat None false 2 1 2)
                        [EvStart; EvRun; EvInput [Some 1; Some 2; Some 3; Some 4]%nat;
                         EvItem; EvItem; EvItem; EvItem])) = 1.
Proof.
assert (reachable (stateAfter (@NewWriter nat None false 2 1 2)
                     [EvStart; EvRun; EvInput [Some 1; Some 2; Some 3; Some 4]%nat;
                      EvItem; EvItem; EvItem; EvItem])) as Hreach
  by reachFrom (@NewWriter nat None false 2 1 2) 2 1 2
       [@EvStart nat; EvRun; EvInput [Some 1; Some 2; Some 3; Some 4]%nat;
        EvItem; EvItem; EvItem; EvItem].
split; [exact Hreach |]. split; [reflexivity |]. split; [reflexivity |].
assert (MaxBatchSize (wr (stateAfter (@NewWriter nat None false 2 1 2)
                            [EvStart; EvRun;
                             EvInput [Some 1; Some 2; Some 3; Some 4]%nat;
                             EvItem; EvItem; EvItem; EvItem])) <=
        MaxBuffered (wr (stateAfter (@NewWriter nat None false 2 1 2)
                           [EvStart; EvRun;
                            EvInput [Some 1; Some 2; Some 3; Some 4]%nat;
                            EvItem; EvItem; EvItem; EvItem]))) as Hle
  by (vm_compute; discriminate).
destruct (overwrite_only_when_saturated _ (Ring.mkRing [Some 3; Some 4]%nat 0 2)
            (Some 5%nat) Hreach eq_refl eq_refl Hle eq_refl) as [Hra _].
exact Hra.
Defined.
End WriterFacts.
